(** * svelte-fancy-stores: the load / reload / cache engine of the async stores

    A shallow embedding of [src/index.ts] (asyncWritable, asyncDerived,
    asyncReadable, derived, loadAll, reloadAll and the capability checks).

    Promises live in a heap indexed by natural numbers.  An [async] function is
    cut at each [await] into the pieces that run without suspension; the
    environment (dependency stores, the caller-supplied mapping functions, the
    scheduler) is the sequence of events that drives the pieces.  The reactive
    cell of svelte/store is an external collaborator and is kept as the value
    it holds. *)

From stdpp Require Import base list strings.
From Stdlib Require Import Lia.

(** ** Values, errors and promises *)

#[warnings="-register-all"]
Inductive Value :=
  | VUndefined
  | VStr (s : string)
  | VArr (vs : list Value).

Definition Error := string.

Definition is_undefined (v : Value) : bool :=
  match v with VUndefined => true | _ => false end.

Inductive Settlement :=
  | Pending
  | Fulfilled (v : Value)
  | Rejected (e : Error).

(** What [Promise.all] is handed: a plain value or a promise. *)
Inductive Awaitable :=
  | Plain (v : Value)
  | Prom (p : nat).

(** [FromCall]: returned by a collaborator ([load()] / [reload()] of a
    dependency, the write mapping function); settled by the environment.
    [LoadChain]: [Promise.resolve(mappingLoadFunction(..)).then(set-and-return)];
    settles when the mapping function's result does.
    [All]: the join made by [Promise.all]. *)
Inductive PromiseKind :=
  | FromCall
  | LoadChain
  | All (elems : list Awaitable).

Record PromiseRec := { p_kind : PromiseKind; p_state : Settlement }.

Abbreviation Heap := (list PromiseRec).

Definition state_of (h : Heap) (p : nat) : Settlement :=
  match h !! p with
  | Some r => p_state r
  | None => Pending
  end.

Definition settled_of (h : Heap) (a : Awaitable) : Settlement :=
  match a with
  | Plain v => Fulfilled v
  | Prom p => state_of h p
  end.

(** The first rejected element, in the order [Promise.all] subscribed. *)
Fixpoint first_rejection (h : Heap) (elems : list Awaitable) : option Error :=
  match elems with
  | [] => None
  | a :: rest =>
      match settled_of h a with
      | Rejected e => Some e
      | _ => first_rejection h rest
      end
  end.

(** The values of the elements, in input order, once every one is fulfilled. *)
Fixpoint all_values (h : Heap) (elems : list Awaitable) : option (list Value) :=
  match elems with
  | [] => Some []
  | a :: rest =>
      match settled_of h a, all_values h rest with
      | Fulfilled v, Some vs => Some (v :: vs)
      | _, _ => None
      end
  end.

Definition all_now (h : Heap) (elems : list Awaitable) : Settlement :=
  match first_rejection h elems with
  | Some e => Rejected e
  | None =>
      match all_values h elems with
      | Some vs => Fulfilled (VArr vs)
      | None => Pending
      end
  end.

(** A pending join follows its elements; a settled promise never changes. *)
Definition refresh (h : Heap) (r : PromiseRec) : PromiseRec :=
  match p_kind r, p_state r with
  | All elems, Pending => {| p_kind := All elems; p_state := all_now h elems |}
  | _, _ => r
  end.

Definition is_join (k : PromiseKind) : bool :=
  match k with All _ => true | _ => false end.

(** The environment settles a pending promise that is not a join. *)
Definition settle (p : nat) (o : Settlement) (h : Heap) : option Heap :=
  match h !! p, o with
  | _, Pending => None
  | Some r, _ =>
      match p_state r, is_join (p_kind r) with
      | Pending, false =>
          let h1 := <[p := {| p_kind := p_kind r; p_state := o |}]> h in
          Some (map (refresh h1) h1)
      | _, _ => None
      end
  | None, _ => None
  end.

(** ** Stores as the dispatcher sees them *)

(** [has_load] / [has_reload]: the object has an own property of that name
    ([Object.prototype.hasOwnProperty.call]).  [current] is what [get] reads. *)
Record Store := { current : Value; has_load : bool; has_reload : bool }.

Inductive Stores :=
  | One (s : Store)
  | Many (l : list Store).

Definition isArray (ss : Stores) : bool :=
  match ss with Many _ => true | One _ => false end.

Definition getStoresArray (ss : Stores) : list Store :=
  match ss with Many l => l | One s => [s] end.

Definition isLoadable (s : Store) : bool := has_load s.
Definition isReloadable (s : Store) : bool := has_reload s.

Definition anyLoadable (ss : Stores) : bool := existsb isLoadable (getStoresArray ss).
Definition anyReloadable (ss : Stores) : bool := existsb isReloadable (getStoresArray ss).

Definition get (s : Store) : Value := current s.

(** A method call on the [i]-th store of the array. *)
Inductive Call :=
  | CLoad (i : nat)
  | CReload (i : nat).

(** ** The world of one async store *)

Inductive CycleStatus :=
  | AwaitParents
  | Returned (p : option nat).

(** One activation of [loadDependenciesThenSet]. *)
Record Cycle := { c_parents : nat; c_force : bool; c_status : CycleStatus }.

Inductive SetStage :=
  | SetAwaitParents (agg : nat)
  | SetAwaitWrite (wr : nat)
  | SetAwaitReload (c : nat)
  | SetDone
  | SetFailed (e : Error).

(** One activation of [setStoreValueThenWrite]. *)
Record SetCall := { set_value : Value; set_stage : SetStage }.

(** [loadedValuesString] and [currentLoadPromise] are the two variables of
    the closure of asyncWritable, [cell] the value of [thisStore]; [depCalls],
    [loadCalls] and [writeCalls] record the calls made to the dependencies'
    methods and to the two mapping functions, with their arguments. *)
Record World := {
  heap : Heap;
  stores : Stores;
  cell : Value;
  loadedValuesString : option string;
  currentLoadPromise : option nat;
  cycles : list Cycle;
  sets : list SetCall;
  depCalls : list Call;
  loadCalls : list Value;
  writeCalls : list (Value * Value)
}.

Definition with_heap (h : Heap) (w : World) : World :=
  {| heap := h; stores := stores w; cell := cell w;
     loadedValuesString := loadedValuesString w;
     currentLoadPromise := currentLoadPromise w;
     cycles := cycles w; sets := sets w; depCalls := depCalls w;
     loadCalls := loadCalls w; writeCalls := writeCalls w |}.

Definition with_stores (ss : Stores) (w : World) : World :=
  {| heap := heap w; stores := ss; cell := cell w;
     loadedValuesString := loadedValuesString w;
     currentLoadPromise := currentLoadPromise w;
     cycles := cycles w; sets := sets w; depCalls := depCalls w;
     loadCalls := loadCalls w; writeCalls := writeCalls w |}.

Definition with_cell (v : Value) (w : World) : World :=
  {| heap := heap w; stores := stores w; cell := v;
     loadedValuesString := loadedValuesString w;
     currentLoadPromise := currentLoadPromise w;
     cycles := cycles w; sets := sets w; depCalls := depCalls w;
     loadCalls := loadCalls w; writeCalls := writeCalls w |}.

Definition with_loadedValuesString (k : option string) (w : World) : World :=
  {| heap := heap w; stores := stores w; cell := cell w;
     loadedValuesString := k;
     currentLoadPromise := currentLoadPromise w;
     cycles := cycles w; sets := sets w; depCalls := depCalls w;
     loadCalls := loadCalls w; writeCalls := writeCalls w |}.

Definition with_currentLoadPromise (p : option nat) (w : World) : World :=
  {| heap := heap w; stores := stores w; cell := cell w;
     loadedValuesString := loadedValuesString w;
     currentLoadPromise := p;
     cycles := cycles w; sets := sets w; depCalls := depCalls w;
     loadCalls := loadCalls w; writeCalls := writeCalls w |}.

Definition with_cycles (cs : list Cycle) (w : World) : World :=
  {| heap := heap w; stores := stores w; cell := cell w;
     loadedValuesString := loadedValuesString w;
     currentLoadPromise := currentLoadPromise w;
     cycles := cs; sets := sets w; depCalls := depCalls w;
     loadCalls := loadCalls w; writeCalls := writeCalls w |}.

Definition with_sets (ss : list SetCall) (w : World) : World :=
  {| heap := heap w; stores := stores w; cell := cell w;
     loadedValuesString := loadedValuesString w;
     currentLoadPromise := currentLoadPromise w;
     cycles := cycles w; sets := ss; depCalls := depCalls w;
     loadCalls := loadCalls w; writeCalls := writeCalls w |}.

Definition with_depCalls (cs : list Call) (w : World) : World :=
  {| heap := heap w; stores := stores w; cell := cell w;
     loadedValuesString := loadedValuesString w;
     currentLoadPromise := currentLoadPromise w;
     cycles := cycles w; sets := sets w; depCalls := cs;
     loadCalls := loadCalls w; writeCalls := writeCalls w |}.

Definition with_loadCalls (cs : list Value) (w : World) : World :=
  {| heap := heap w; stores := stores w; cell := cell w;
     loadedValuesString := loadedValuesString w;
     currentLoadPromise := currentLoadPromise w;
     cycles := cycles w; sets := sets w; depCalls := depCalls w;
     loadCalls := cs; writeCalls := writeCalls w |}.

Definition with_writeCalls (cs : list (Value * Value)) (w : World) : World :=
  {| heap := heap w; stores := stores w; cell := cell w;
     loadedValuesString := loadedValuesString w;
     currentLoadPromise := currentLoadPromise w;
     cycles := cycles w; sets := sets w; depCalls := depCalls w;
     loadCalls := loadCalls w; writeCalls := cs |}.

(** A new promise at the end of the heap. *)
Definition alloc (k : PromiseKind) (st : Settlement) (w : World) : nat * World :=
  (length (heap w), with_heap (heap w ++ [{| p_kind := k; p_state := st |}]) w).

(** Calling a method of a dependency: the call is recorded and answers with a
    promise the environment settles. *)
Definition call_method (c : Call) (w : World) : nat * World :=
  alloc FromCall Pending (with_depCalls (depCalls w ++ [c]) w).

Definition Promise_all (elems : list Awaitable) (w : World) : nat * World :=
  alloc (All elems) (all_now (heap w) elems) w.

(** [array.map(f)] for an [f] with effects, left to right. *)
Fixpoint map_stores (f : nat -> Store -> World -> Awaitable * World)
    (i : nat) (l : list Store) (w : World) : list Awaitable * World :=
  match l with
  | [] => ([], w)
  | s :: rest =>
      let '(a, w1) := f i s w in
      let '(others, w2) := map_stores f (S i) rest w1 in
      (a :: others, w2)
  end.

(** ** loadAll / reloadAll *)

Definition load_one (i : nat) (s : Store) (w : World) : Awaitable * World :=
  if has_load s then
    let '(p, w1) := call_method (CLoad i) w in (Prom p, w1)
  else (Plain (get s), w).

Definition reload_one (i : nat) (s : Store) (w : World) : Awaitable * World :=
  if has_reload s then
    let '(p, w1) := call_method (CReload i) w in (Prom p, w1)
  else if has_load s then
    let '(p, w1) := call_method (CLoad i) w in (Prom p, w1)
  else (Plain (get s), w).

Definition loadAll (ss : Stores) (w : World) : nat * World :=
  let '(loadPromises, w1) := map_stores load_one 0 (getStoresArray ss) w in
  Promise_all loadPromises w1.

Definition reloadAll (ss : Stores) (w : World) : nat * World :=
  let '(reloadPromises, w1) := map_stores reload_one 0 (getStoresArray ss) w in
  Promise_all reloadPromises w1.

(** ** The objects the constructors return *)

(** The own properties of the returned object ([subscribe] is always there)
    and the constants its closure holds. *)
Record AsyncStore := {
  reloadable : bool;
  initial : Value;
  o_set : bool;
  o_load : bool;
  o_reload : bool
}.

Definition hasReloadFunction (reloadable : bool) (ss : Stores) : bool :=
  reloadable || anyReloadable ss.

Definition asyncWritable (ss : Stores) (reloadable : bool) (initial : Value)
    : AsyncStore :=
  {| reloadable := reloadable; initial := initial;
     o_set := true; o_load := true;
     o_reload := hasReloadFunction reloadable ss |}.

Definition asyncDerived (ss : Stores) (reloadable : bool) (initial : Value)
    : AsyncStore :=
  let thisStore := asyncWritable ss reloadable initial in
  {| reloadable := reloadable; initial := initial;
     o_set := false; o_load := o_load thisStore;
     o_reload := o_reload thisStore |}.

Definition asyncReadable (initial : Value) (reloadable : bool) : AsyncStore :=
  asyncDerived (Many []) reloadable initial.

(** The earlier [asyncDerived], which owns [loadDependenciesThenSet] itself
    instead of wrapping [asyncWritable] (and the [asyncReadable] built on it):
    the same cycle, but [reload] is always in the returned object. *)
Module Legacy.
Definition asyncDerived (ss : Stores) (reloadable : bool) (initial : Value)
    : AsyncStore :=
  {| reloadable := reloadable; initial := initial;
     o_set := false; o_load := true; o_reload := true |}.

Definition asyncReadable (initial : Value) (reloadable : bool) : AsyncStore :=
  asyncDerived (Many []) reloadable initial.
End Legacy.

(** The synchronous [derived]: [load] / [reload] are spread into the object
    only when some direct dependency has them; each is [loadDependencies] over
    the store's own dependencies, kept here as the load function it was given. *)
Record DerivedStore := {
  d_load : option (Stores -> World -> nat * World);
  d_reload : option (Stores -> World -> nat * World)
}.

Definition derived (ss : Stores) : DerivedStore :=
  {| d_load := if anyLoadable ss then Some loadAll else None;
     d_reload := if anyReloadable ss then Some reloadAll else None |}.

(** [loadDependencies]: up to [await loadFunction(stores)], and from there to
    [return get(thisStore)]. *)
Definition loadDependencies_start
    (loadFunction : Stores -> World -> nat * World) (ss : Stores) (w : World)
    : nat * World :=
  loadFunction ss w.

Definition loadDependencies_resume (thisStore : Store) (h : Heap) (awaited : nat)
    : Settlement :=
  match state_of h awaited with
  | Fulfilled _ => Fulfilled (get thisStore)
  | Rejected e => Rejected e
  | Pending => Pending
  end.

(** An async or derived store seen as a dependency of another store. *)
Definition as_store (o : AsyncStore) (v : Value) : Store :=
  {| current := v; has_load := o_load o; has_reload := o_reload o |}.

Definition derived_as_store (d : DerivedStore) (v : Value) : Store :=
  {| current := v;
     has_load := if d_load d is Some _ then true else false;
     has_reload := if d_reload d is Some _ then true else false |}.

Definition init_world (ss : Stores) (o : AsyncStore) : World :=
  {| heap := []; stores := ss; cell := initial o;
     loadedValuesString := None; currentLoadPromise := None;
     cycles := []; sets := []; depCalls := [];
     loadCalls := []; writeCalls := [] |}.

Definition set_current (v : Value) (s : Store) : Store :=
  {| current := v; has_load := has_load s; has_reload := has_reload s |}.

Definition update_store (i : nat) (v : Value) (ss : Stores) : Stores :=
  match ss with
  | One s => match i with 0 => One (set_current v s) | _ => One s end
  | Many l => Many (alter (set_current v) i l)
  end.

(** What happens to the store from outside.
    [DepChanged i v]: the cell of the [i]-th dependency takes the value [v].
    [Notify]: a callback of [store.subscribe] runs,
      [loadDependenciesThenSet(loadAll).catch(..)]; the start function of the
      cell and every notification of a dependency do this.
    [CallLoad], [CallReload], [CallSet v]: the methods of the returned object,
      where it has them.
    [Settle p o]: the environment settles the promise [p] (a dependency's
      [load()] / [reload()], the result of a mapping function).
    [ResumeCycle c], [ResumeSet k]: the scheduler continues an activation
      after the promise it awaits has settled. *)
Inductive Event :=
  | DepChanged (i : nat) (v : Value)
  | Notify
  | CallLoad
  | CallReload
  | CallSet (v : Value)
  | Settle (p : nat) (o : Settlement)
  | ResumeCycle (c : nat)
  | ResumeSet (k : nat).

Section Engine.

(** [JSON.stringify] applied to the array of dependency values. *)
Variable JSON_stringify : list Value -> string.

(** *** loadDependenciesThenSet *)

(** Up to [await loadParentStores]. *)
Definition loadDependenciesThenSet_start
    (parentLoadFunction : Stores -> World -> nat * World)
    (forceReload : bool) (w : World) : nat * World :=
  let '(loadParentStores, w1) := parentLoadFunction (stores w) w in
  (length (cycles w1),
   with_cycles (cycles w1 ++ [{| c_parents := loadParentStores;
                                 c_force := forceReload;
                                 c_status := AwaitParents |}]) w1).

Definition return_from (c : nat) (cy : Cycle) (ret : option nat) (w : World)
    : World :=
  with_cycles (<[c := {| c_parents := c_parents cy; c_force := c_force cy;
                         c_status := Returned ret |}]> (cycles w)) w.

(** The call of the mapping function and the chain hung on its result. *)
Definition invoke_mapping (storeValues : list Value) (w : World) : nat * World :=
  let arg := if isArray (stores w) then VArr storeValues
             else nth 0 storeValues VUndefined in
  alloc LoadChain Pending (with_loadCalls (loadCalls w ++ [arg]) w).

(** From the [await] to the [return]. *)
Definition loadDependenciesThenSet_resume (c : nat) (w : World) : option World :=
  match cycles w !! c with
  | Some cy =>
      match c_status cy, state_of (heap w) (c_parents cy) with
      | AwaitParents, Rejected _ =>
          let w1 := with_currentLoadPromise (Some (c_parents cy)) w in
          Some (return_from c cy (currentLoadPromise w1) w1)
      | AwaitParents, Fulfilled _ =>
          let storeValues := map get (getStoresArray (stores w)) in
          let newValuesString := JSON_stringify storeValues in
          if negb (c_force cy)
             && bool_decide (Some newValuesString = loadedValuesString w)
          then Some (return_from c cy (currentLoadPromise w) w)
          else
            let w1 := if c_force cy then w
                      else with_loadedValuesString (Some newValuesString) w in
            let '(p, w2) := invoke_mapping storeValues w1 in
            let w3 := with_currentLoadPromise (Some p) w2 in
            Some (return_from c cy (currentLoadPromise w3) w3)
      | _, _ => None
      end
  | None => None
  end.

(** *** setStoreValueThenWrite *)

Definition set_stage_to (k : nat) (sc : SetCall) (st : SetStage) (w : World)
    : World :=
  with_sets (<[k := {| set_value := set_value sc; set_stage := st |}]> (sets w)) w.

(** Up to [await loadAll(stores)]. *)
Definition setStoreValueThenWrite_start (value : Value) (w : World) : World :=
  let w1 := with_cell value w in
  let '(agg, w2) := loadAll (stores w1) w1 in
  with_sets (sets w2 ++ [{| set_value := value;
                            set_stage := SetAwaitParents agg |}]) w2.

Definition setStoreValueThenWrite_resume (o : AsyncStore) (k : nat) (w : World)
    : option World :=
  match sets w !! k with
  | Some sc =>
      match set_stage sc with
      | SetAwaitParents agg =>
          match state_of (heap w) agg with
          | Fulfilled parentValues =>
              let '(wr, w1) :=
                alloc FromCall Pending
                  (with_writeCalls
                     (writeCalls w ++ [(set_value sc, parentValues)]) w) in
              Some (set_stage_to k sc (SetAwaitWrite wr) w1)
          | Rejected e => Some (set_stage_to k sc (SetFailed e) w)
          | Pending => None
          end
      | SetAwaitWrite wr =>
          match state_of (heap w) wr with
          | Fulfilled writeResponse =>
              let w1 := if is_undefined writeResponse then w
                        else with_cell writeResponse w in
              if reloadable o then
                let '(c, w2) :=
                  loadDependenciesThenSet_start reloadAll (reloadable o) w1 in
                Some (set_stage_to k sc (SetAwaitReload c) w2)
              else Some (set_stage_to k sc SetDone w1)
          | Rejected e => Some (set_stage_to k sc (SetFailed e) w)
          | Pending => None
          end
      | SetAwaitReload c =>
          match cycles w !! c with
          | Some cy =>
              match c_status cy with
              | Returned (Some p) =>
                  match state_of (heap w) p with
                  | Fulfilled _ => Some (set_stage_to k sc SetDone w)
                  | Rejected e => Some (set_stage_to k sc (SetFailed e) w)
                  | Pending => None
                  end
              | Returned None => Some (set_stage_to k sc SetDone w)
              | AwaitParents => None
              end
          | None => None
          end
      | SetDone | SetFailed _ => None
      end
  | None => None
  end.

(** *** Settlement of a promise by the environment *)

(** The [then] callback of a load chain publishes the value it is given. *)
Definition settle_in_world (p : nat) (o : Settlement) (w : World) : option World :=
  match heap w !! p, settle p o (heap w) with
  | Some r, Some h' =>
      let w1 := with_heap h' w in
      match p_kind r, o with
      | LoadChain, Fulfilled finalValue => Some (with_cell finalValue w1)
      | _, _ => Some w1
      end
  | _, _ => None
  end.

(** *** One event *)

Definition step (o : AsyncStore) (w : World) (ev : Event) : option World :=
  match ev with
  | DepChanged i v => Some (with_stores (update_store i v (stores w)) w)
  | Notify => Some (snd (loadDependenciesThenSet_start loadAll false w))
  | CallLoad =>
      if o_load o then Some (snd (loadDependenciesThenSet_start loadAll false w))
      else None
  | CallReload =>
      if o_reload o
      then Some (snd (loadDependenciesThenSet_start reloadAll (reloadable o) w))
      else None
  | CallSet v =>
      if o_set o then Some (setStoreValueThenWrite_start v w) else None
  | Settle p out => settle_in_world p out w
  | ResumeCycle c => loadDependenciesThenSet_resume c w
  | ResumeSet k => setStoreValueThenWrite_resume o k w
  end.

Fixpoint run (o : AsyncStore) (w : World) (evs : list Event) : option World :=
  match evs with
  | [] => Some w
  | ev :: rest =>
      match step o w ev with
      | Some w' => run o w' rest
      | None => None
      end
  end.

(** What the promise returned by cycle [c] has come to. *)
Definition cycle_result (w : World) (c : nat) : Settlement :=
  match cycles w !! c with
  | Some cy =>
      match c_status cy with
      | Returned (Some p) => state_of (heap w) p
      | Returned None => Fulfilled VUndefined
      | AwaitParents => Pending
      end
  | None => Pending
  end.

Definition returned (w : World) (c : nat) : option (option nat) :=
  match cycles w !! c with
  | Some cy => match c_status cy with Returned r => Some r | _ => None end
  | None => None
  end.

End Engine.

(** ** The vocabulary of the statements *)

(** Settled promises keep their state from [h] to [h']. *)
Definition heap_le (h h' : Heap) : Prop :=
  forall p, state_of h p <> Pending -> state_of h' p = state_of h p.

Definition elems_in (h : Heap) (elems : list Awaitable) : Prop :=
  forall p, In (Prom p) elems ->
    exists r, h !! p = Some r /\ is_join (p_kind r) = false.

Definition heap_ok (h : Heap) : Prop :=
  forall q r elems, h !! q = Some r -> p_kind r = All elems ->
    elems_in h elems /\
    (p_state r = Pending -> first_rejection h elems = None) /\
    (forall v, p_state r = Fulfilled v ->
       exists vs, v = VArr vs /\ all_values h elems = Some vs).

Fixpoint settles (l : list (nat * Settlement)) (h : Heap) : option Heap :=
  match l with
  | [] => Some h
  | (p, o) :: rest =>
      match settle p o h with
      | Some h' => settles rest h'
      | None => None
      end
  end.

(** A join that is not fulfilled has the reason among its elements: while it
    is pending some element is not fulfilled, and once it is rejected some
    element is rejected with its error. *)
Definition join_follows (h : Heap) (agg : nat) (elems : list Awaitable) : Prop :=
  (state_of h agg = Pending -> all_values h elems = None) /\
  (forall e, state_of h agg = Rejected e ->
     exists p, In (Prom p) elems /\ state_of h p = Rejected e).

(** Which method the dispatcher calls on a store, if any. *)
Definition load_choice (s : Store) : option (nat -> Call) :=
  if has_load s then Some CLoad else None.

Definition reload_choice (s : Store) : option (nat -> Call) :=
  if has_reload s then Some CReload
  else if has_load s then Some CLoad else None.

Definition dispatch_one (ch : Store -> option (nat -> Call))
    (i : nat) (s : Store) (w : World) : Awaitable * World :=
  match ch s with
  | Some mk => let '(p, w1) := call_method (mk i) w in (Prom p, w1)
  | None => (Plain (get s), w)
  end.

Fixpoint expected_calls (ch : Store -> option (nat -> Call)) (i : nat)
    (l : list Store) : list Call :=
  match l with
  | [] => []
  | s :: rest =>
      match ch s with
      | Some mk => mk i :: expected_calls ch (S i) rest
      | None => expected_calls ch (S i) rest
      end
  end.

Definition pending_call : PromiseRec := {| p_kind := FromCall; p_state := Pending |}.

(** Everything of the world but the heap and the log of dependency calls. *)
Definition same_store_state (w w' : World) : Prop :=
  stores w' = stores w /\ cell w' = cell w /\
  loadedValuesString w' = loadedValuesString w /\
  currentLoadPromise w' = currentLoadPromise w /\
  cycles w' = cycles w /\ sets w' = sets w /\
  loadCalls w' = loadCalls w /\ writeCalls w' = writeCalls w.

Definition dispatchAll (ch : Store -> option (nat -> Call)) (ss : Stores)
    (w : World) : nat * World :=
  let '(elems, w1) := map_stores (dispatch_one ch) 0 (getStoresArray ss) w in
  Promise_all elems w1.

(** What a run of the dispatcher leaves behind: the join [agg] over [elems],
    one element per store and in the order of the stores. *)
Definition dispatched (ch : Store -> option (nat -> Call)) (ss : Stores)
    (w w' : World) (agg : nat) (elems : list Awaitable) : Prop :=
  heap w !! agg = None /\
  (exists st, heap w' !! agg = Some {| p_kind := All elems; p_state := st |}) /\
  Forall2 (fun s a =>
             match ch s with
             | Some _ => exists p, a = Prom p /\ heap w !! p = None /\
                                   heap w' !! p = Some pending_call
             | None => a = Plain (get s)
             end) (getStoresArray ss) elems /\
  depCalls w' = depCalls w ++ expected_calls ch 0 (getStoresArray ss) /\
  (exists extra, heap w' = heap w ++ extra) /\
  same_store_state w w' /\
  heap_ok (heap w').

(** Every cycle awaits a join of the heap. *)
Definition cycles_joined (h : Heap) (cs : list Cycle) : Prop :=
  forall c cy, cs !! c = Some cy ->
    exists elems st,
      h !! c_parents cy = Some {| p_kind := All elems; p_state := st |}.

(** The joins of the heap agree with their elements, and the cycles await
    joins. *)
Definition world_ok (w : World) : Prop :=
  heap_ok (heap w) /\ cycles_joined (heap w) (cycles w).

Definition key_of (JSON_stringify : list Value -> string) (w : World) : string :=
  JSON_stringify (map get (getStoresArray (stores w))).

(** Promises stay in the heap with their kind, and settled ones with their
    state. *)
Definition heap_grows (h h' : Heap) : Prop :=
  heap_le h h' /\
  forall p r, h !! p = Some r ->
    exists r', h' !! p = Some r' /\ p_kind r' = p_kind r.

Definition load_calls (l : list Store) : list Call := expected_calls load_choice 0 l.
Definition reload_calls (l : list Store) : list Call := expected_calls reload_choice 0 l.

(** Events that cannot start a forced cycle: on a reloadable store [reload()]
    forces, and so does the reload that follows a [set]. *)
Definition unforced_event (o : AsyncStore) (ev : Event) : bool :=
  match ev with
  | CallReload | CallSet _ => negb (reloadable o)
  | _ => true
  end.

Fixpoint count_changes (evs : list Event) : nat :=
  match evs with
  | [] => 0
  | DepChanged _ _ :: rest => S (count_changes rest)
  | _ :: rest => count_changes rest
  end.

(** With [d] dependency changes so far and no forced cycle, the mapping
    function has run at most [d] times, or [d + 1] times when the recorded
    key is the key of the present dependency values. *)
Definition dedup_inv (JSON_stringify : list Value -> string) (o : AsyncStore)
    (d : nat) (w : World) : Prop :=
  Forall (fun cy => c_force cy = false) (cycles w) /\
  (reloadable o = true -> sets w = []) /\
  length (loadCalls w)
    <= d + (if bool_decide (loadedValuesString w = Some (key_of JSON_stringify w))
            then 1 else 0).

(** A serializer to run the engine on examples: nested lists in brackets,
    [null] for undefined. *)
Fixpoint sample_stringify_value (v : Value) : string :=
  match v with
  | VUndefined => "null"
  | VStr s => s
  | VArr vs =>
      "[" +:+ (fix go (l : list Value) : string :=
                 match l with
                 | [] => ""
                 | x :: rest => sample_stringify_value x +:+ "," +:+ go rest
                 end) vs +:+ "]"
  end.

Definition sample_stringify (vs : list Value) : string :=
  sample_stringify_value (VArr vs).

Definition plain_store (s : string) : Store :=
  {| current := VStr s; has_load := false; has_reload := false |}.

Definition loadable_store (s : string) : Store :=
  {| current := VStr s; has_load := true; has_reload := false |}.

Definition reloadable_store (s : string) : Store :=
  {| current := VStr s; has_load := true; has_reload := true |}.

(** The world a run of events from the fresh store ends in. *)
Definition world_after (o : AsyncStore) (ss : Stores) (evs : list Event) : World :=
  default (init_world ss o) (run sample_stringify o (init_world ss o) evs).

(** C2 as the spec has it: once the computation that is current (the last one
    started) has resolved, the cell holds its value. *)
Definition last_triggered_wins (JSON_stringify : list Value -> string)
    (o : AsyncStore) (ss : Stores) : Prop :=
  forall evs w p v,
    run JSON_stringify o (init_world ss o) evs = Some w ->
    currentLoadPromise w = Some p ->
    state_of (heap w) p = Fulfilled v ->
    cell w = v.

(** A parent goes from A to B while the computation for A is in flight; the
    computation for B resolves first, the one for A after it. *)
Definition overtaken : list Event :=
  [CallLoad; ResumeCycle 0; DepChanged 0 (VStr "B"); Notify; ResumeCycle 1;
   Settle 3 (Fulfilled (VStr "from B")); Settle 1 (Fulfilled (VStr "from A"));
   CallLoad; ResumeCycle 2].

(** A chain of async stores, each an [asyncDerived] of the one before it,
    down from a loadable [ancestor] whose [load()] comes to [out].  Each
    [load()] runs on a fresh store: the call, the settlement of the parent's
    promise, the rest of the cycle.  The result is the last store as a
    dependency, what its [load()] comes to, and the number of mapping calls
    made on the way. *)
Fixpoint chain_load (JSON_stringify : list Value -> string)
    (levels : list (bool * Value)) (ancestor : Store) (out : Settlement)
    : Store * Settlement * nat :=
  match levels with
  | [] => (ancestor, out, 0)
  | (reloadable, initial) :: rest =>
      let '(parent, parent_out, calls) :=
        chain_load JSON_stringify rest ancestor out in
      let o := asyncDerived (One parent) reloadable initial in
      match run JSON_stringify o (init_world (One parent) o)
              [CallLoad; Settle 0 parent_out; ResumeCycle 0] with
      | Some w => (as_store o (cell w), cycle_result w 0,
                   calls + length (loadCalls w))
      | None => (as_store o initial, Pending, calls)
      end
  end.

(** Some load chain of the heap has fulfilled: a computation has succeeded. *)
Definition some_success (h : Heap) : Prop :=
  exists p r v, h !! p = Some r /\ p_kind r = LoadChain /\ p_state r = Fulfilled v.

(** Until a computation succeeds or [set] is called, the cell keeps the
    initial value. *)
Definition initial_inv (o : AsyncStore) (w : World) : Prop :=
  cell w = initial o \/ sets w <> [] \/ some_success (heap w).

(** A run in which every event passes a check made on the world it meets. *)
Fixpoint run_where (JSON_stringify : list Value -> string)
    (ok : World -> Event -> bool) (o : AsyncStore) (w : World)
    (evs : list Event) : option World :=
  match evs with
  | [] => Some w
  | ev :: rest =>
      if ok w ev then
        match step JSON_stringify o w ev with
        | Some w' => run_where JSON_stringify ok o w' rest
        | None => None
        end
      else None
  end.

(** No dependency takes a new value and no forced cycle gets to its end. *)
Definition same_attempt (w : World) (ev : Event) : bool :=
  match ev with
  | DepChanged _ _ => false
  | ResumeCycle c =>
      match cycles w !! c with
      | Some cy => negb (c_force cy)
      | None => true
      end
  | _ => true
  end.

(** The event ends a cycle whose dependencies failed to load. *)
Definition resumes_failed (w : World) (ev : Event) : bool :=
  match ev with
  | ResumeCycle c =>
      match cycles w !! c with
      | Some cy =>
          match state_of (heap w) (c_parents cy) with
          | Rejected _ => true
          | _ => false
          end
      | None => false
      end
  | _ => false
  end.

(** C10 with the events allowed in between as a parameter: the load chain [m]
    is current and rejected and its key is the recorded one; after any run of
    allowed events, an unforced cycle whose dependencies loaded returns [m]
    and the mapping function has not been called again. *)
Definition failed_attempt_is_cached (JSON_stringify : list Value -> string)
    (ok : World -> Event -> bool) (o : AsyncStore) (ss : Stores) : Prop :=
  forall evs1 w1 m e evs2 w2 c cy v w3,
    run JSON_stringify o (init_world ss o) evs1 = Some w1 ->
    currentLoadPromise w1 = Some m ->
    state_of (heap w1) m = Rejected e ->
    loadedValuesString w1 = Some (key_of JSON_stringify w1) ->
    run_where JSON_stringify ok o w1 evs2 = Some w2 ->
    cycles w2 !! c = Some cy -> c_status cy = AwaitParents ->
    c_force cy = false ->
    state_of (heap w2) (c_parents cy) = Fulfilled v ->
    step JSON_stringify o w2 (ResumeCycle c) = Some w3 ->
    returned w3 c = Some (Some m) /\ cycle_result w3 c = Rejected e /\
    loadCalls w3 = loadCalls w1.

Definition failed_once : list Event :=
  [CallLoad; Settle 0 (Fulfilled (VStr "p")); ResumeCycle 0;
   Settle 2 (Rejected "mapping failed")].

Definition parent_fails_then_loads : list Event :=
  [CallLoad; Settle 3 (Rejected "parent failed"); ResumeCycle 1;
   CallLoad; Settle 5 (Fulfilled (VStr "p"))].

(** C7 as the spec has it, for a constructor of async stores: neither the flag
    nor a reloadable dependency, no [reload] in the object. *)
Definition reload_only_when_reloadable
    (constructor : Stores -> bool -> Value -> AsyncStore) : Prop :=
  forall ss initial,
    anyReloadable ss = false -> o_reload (constructor ss false initial) = false.

(** ** Further vocabulary *)

(** What the mapping load function is given: the list of the values, or the
    first value when the dependencies were declared as a single store. *)
Definition mapping_argument (ss : Stores) : Value :=
  if isArray ss then VArr (map get (getStoresArray ss))
  else nth 0 (map get (getStoresArray ss)) VUndefined.

(** The event ends an unforced cycle. *)
Definition unforced_resume (w : World) (ev : Event) : bool :=
  match ev with
  | ResumeCycle c =>
      match cycles w !! c with
      | Some cy => negb (c_force cy)
      | None => false
      end
  | _ => false
  end.

(** The memo of the closure points at promises: a recorded key comes with a
    current promise, the current promise is in the heap, and so is the promise
    every finished cycle has returned. *)
Definition memo_ok (w : World) : Prop :=
  (forall k, loadedValuesString w = Some k -> is_Some (currentLoadPromise w)) /\
  (forall p, currentLoadPromise w = Some p -> p < length (heap w)) /\
  (forall c cy r, cycles w !! c = Some cy -> c_status cy = Returned r ->
     exists p, r = Some p /\ p < length (heap w)).

(** A store without dependencies that is not reloadable: no event is forced,
    the key cannot change, every call is on the empty list. *)
Definition readable_inv (JSON_stringify : list Value -> string) (o : AsyncStore)
    (w : World) : Prop :=
  dedup_inv JSON_stringify o 0 w /\ stores w = Many [] /\
  Forall (fun a => a = VArr []) (loadCalls w).

(** Stores built from other stores: a [Leaf] is any store given as it is (a
    writable, a readable, an object with methods of its own); the other nodes
    are what the constructors return for one parent or a list of parents. *)
#[warnings="-register-all"]
Inductive StoreTree :=
  | Leaf (s : Store)
  | AsyncOne (writable reloadable : bool) (initial : Value) (parent : StoreTree)
  | AsyncMany (writable reloadable : bool) (initial : Value)
      (parents : list StoreTree)
  | DerivedOne (parent : StoreTree) (v : Value)
  | DerivedMany (parents : list StoreTree) (v : Value).

Definition async_object (writable : bool) (ss : Stores) (reloadable : bool)
    (initial : Value) : AsyncStore :=
  if writable then asyncWritable ss reloadable initial
  else asyncDerived ss reloadable initial.

(** The store a tree stands for, as its children see it. *)
Fixpoint store_of (t : StoreTree) : Store :=
  match t with
  | Leaf s => s
  | AsyncOne wr r i p =>
      as_store (async_object wr (One (store_of p)) r i) i
  | AsyncMany wr r i ps =>
      as_store (async_object wr (Many (map store_of ps)) r i) i
  | DerivedOne p v => derived_as_store (derived (One (store_of p))) v
  | DerivedMany ps v => derived_as_store (derived (Many (map store_of ps))) v
  end.

(** Some store with [load] is met going up from [t] through derived stores:
    an async store, or a leaf that has [load]. *)
Fixpoint loadable_above (t : StoreTree) : bool :=
  match t with
  | Leaf s => has_load s
  | AsyncOne _ _ _ _ | AsyncMany _ _ _ _ => true
  | DerivedOne p _ => loadable_above p
  | DerivedMany ps _ => existsb loadable_above ps
  end.

(** Some ancestor of [t], or [t] itself, is an async store flagged reloadable
    or a leaf that has [reload]. *)
Fixpoint reloadable_above (t : StoreTree) : bool :=
  match t with
  | Leaf s => has_reload s
  | AsyncOne _ r _ p => r || reloadable_above p
  | AsyncMany _ r _ ps => r || existsb reloadable_above ps
  | DerivedOne p _ => reloadable_above p
  | DerivedMany ps _ => existsb reloadable_above ps
  end.

(** The cell holds the initial value or what some load chain has fulfilled
    with. *)
Definition cell_from_mapping (o : AsyncStore) (w : World) : Prop :=
  cell w = initial o \/
  exists p r, heap w !! p = Some r /\ p_kind r = LoadChain /\
              p_state r = Fulfilled (cell w).

(** The event ends a forced cycle whose dependencies have reloaded. *)
Definition forced_resume (w : World) (ev : Event) : bool :=
  match ev with
  | ResumeCycle c =>
      match cycles w !! c with
      | Some cy =>
          match state_of (heap w) (c_parents cy) with
          | Fulfilled _ => c_force cy
          | _ => false
          end
      | None => false
      end
  | _ => false
  end.

(** How many events of a run end such a cycle. *)
Fixpoint count_forced_ends (JSON_stringify : list Value -> string)
    (o : AsyncStore) (w : World) (evs : list Event) : nat :=
  match evs with
  | [] => 0
  | ev :: rest =>
      (if forced_resume w ev then 1 else 0)
      + match step JSON_stringify o w ev with
        | Some w' => count_forced_ends JSON_stringify o w' rest
        | None => 0
        end
  end.

(** The calls of the mapping function made so far, and one more when the
    recorded key is not the key of the present dependency values: the call the
    next unforced cycle will make. *)
Definition calls_due (JSON_stringify : list Value -> string) (w : World) : nat :=
  length (loadCalls w)
  + (if bool_decide (loadedValuesString w = Some (key_of JSON_stringify w))
     then 0 else 1).

(** The consequence C1 draws, as the spec has it: while the dependency values
    do not change, once the mapping function has been called no unforced cycle
    calls it again. *)
Definition unforced_cycles_never_recompute
    (JSON_stringify : list Value -> string) (o : AsyncStore) (ss : Stores)
    : Prop :=
  forall evs w c w',
    run JSON_stringify o (init_world ss o) evs = Some w ->
    count_changes evs = 0 -> loadCalls w <> [] ->
    unforced_resume w (ResumeCycle c) = true ->
    step JSON_stringify o w (ResumeCycle c) = Some w' ->
    loadCalls w' = loadCalls w.

(** [reload()] on a fresh reloadable store, then a notification. *)
Definition reload_then_notify : list Event :=
  [CallReload; ResumeCycle 0; Notify].

(** C6 as the spec has it: when a mapping computation is rejected and no
    computation has succeeded, the cell holds the initial value. *)
Definition initial_until_success (JSON_stringify : list Value -> string)
    (o : AsyncStore) (ss : Stores) : Prop :=
  forall evs w p r e w',
    run JSON_stringify o (init_world ss o) evs = Some w ->
    heap w !! p = Some r -> p_kind r = LoadChain -> p_state r = Pending ->
    step JSON_stringify o w (Settle p (Rejected e)) = Some w' ->
    ~ some_success (heap w') ->
    cell w' = initial o.

(** [set] is called on a fresh store, then [load()], whose cycle calls the
    mapping function. *)
Definition set_then_failed_load : list Event :=
  [CallSet (VStr "optimistic"); CallLoad; ResumeCycle 0].

(** Every cycle that ends with its dependencies loaded is unforced and finds
    dependency values that serialize to [K]. *)
Definition same_key (JSON_stringify : list Value -> string) (K : string)
    (w : World) (ev : Event) : bool :=
  match ev with
  | ResumeCycle c =>
      match cycles w !! c with
      | Some cy =>
          match state_of (heap w) (c_parents cy) with
          | Fulfilled _ =>
              negb (c_force cy) && bool_decide (key_of JSON_stringify w = K)
          | _ => true
          end
      | None => true
      end
  | _ => true
  end.

(** The same, and no cycle ends on a failed dependency load. *)
Definition same_key_loaded (JSON_stringify : list Value -> string) (K : string)
    (w : World) (ev : Event) : bool :=
  same_key JSON_stringify K w ev && negb (resumes_failed w ev).

(** ** The lint rule use-fancy-stores *)

Module Eslint.

(** The string literal of an import: its value and its text in the file. *)
Record Literal := { value : string; raw : string }.

Record ImportNode := { specifiers : list string; source : Literal }.

(** [fixer.replaceText(source, text)]. *)
Record Fix := { replaceText : string }.

(** One [context.report]. *)
Record Report := { node : ImportNode; message : string; fix_ : Fix }.

(** The handler of the rule for [ImportDeclaration] nodes. *)
Definition ImportDeclaration (n : ImportNode) : list Report :=
  if bool_decide (value (source n) <> "svelte/store") then []
  else [{| node := n;
           message := "Import stores from svelte-fancy-stores";
           fix_ := {| replaceText := "'svelte-fancy-stores'" |} |}].

(** What the linter does with a fix: the text takes the place of the literal
    and is read again as a quoted string. *)
Fixpoint drop_last (s : string) : string :=
  match s with
  | EmptyString => EmptyString
  | String c EmptyString => EmptyString
  | String c rest => String c (drop_last rest)
  end.

Definition unquote (s : string) : string :=
  match s with
  | EmptyString => EmptyString
  | String _ rest => drop_last rest
  end.

Definition apply_fix (r : Report) : ImportNode :=
  {| specifiers := specifiers (node r);
     source := {| value := unquote (replaceText (fix_ r));
                  raw := replaceText (fix_ r) |} |}.

(** The reports of a file, and the file after the fixes of one pass. *)
Definition lint (file : list ImportNode) : list Report :=
  concat (map ImportDeclaration file).

Definition fix_pass (file : list ImportNode) : list ImportNode :=
  map (fun n => match ImportDeclaration n with
                | r :: _ => apply_fix r
                | [] => n
                end) file.

Definition from_svelte (n : ImportNode) : bool :=
  bool_decide (value (source n) = "svelte/store").

Fixpoint count_from_svelte (file : list ImportNode) : nat :=
  match file with
  | [] => 0
  | n :: rest =>
      (if from_svelte n then 1 else 0) + count_from_svelte rest
  end.

End Eslint.

(** * Proofs *)

(** ** Facts about the promise heap *)

Lemma state_of_app_l (h x : Heap) (p : nat) :
  p < length h -> state_of (h ++ x) p = state_of h p.
Proof. intros Hp. unfold state_of. by rewrite lookup_app_l. Qed.

Lemma state_of_app_pending (h x : Heap) (p : nat) :
  state_of h p <> Pending -> state_of (h ++ x) p = state_of h p.
Proof.
  intros Hs. apply state_of_app_l. apply lookup_lt_is_Some.
  unfold state_of in Hs. destruct (h !! p); [eauto | done].
Qed.

Lemma first_rejection_ext (h h' : Heap) (elems : list Awaitable) :
  (forall a, In a elems -> settled_of h a = settled_of h' a) ->
  first_rejection h elems = first_rejection h' elems.
Proof.
  induction elems as [|a rest IH]; intros Hs; [done|]. simpl.
  rewrite <- (Hs a) by (by left).
  rewrite IH; [done|]. intros b Hb. apply Hs. by right.
Qed.

Lemma all_values_ext (h h' : Heap) (elems : list Awaitable) :
  (forall a, In a elems -> settled_of h a = settled_of h' a) ->
  all_values h elems = all_values h' elems.
Proof.
  induction elems as [|a rest IH]; intros Hs; [done|]. simpl.
  rewrite <- (Hs a) by (by left).
  rewrite IH; [done|]. intros b Hb. apply Hs. by right.
Qed.

Lemma heap_le_refl h : heap_le h h.
Proof. by intros p _. Qed.

Lemma heap_le_trans h1 h2 h3 : heap_le h1 h2 -> heap_le h2 h3 -> heap_le h1 h3.
Proof.
  intros H12 H23 p Hp. rewrite <- (H12 p Hp). apply H23. by rewrite (H12 p Hp).
Qed.

Lemma all_values_mono (h h' : Heap) (elems : list Awaitable) (vs : list Value) :
  heap_le h h' -> all_values h elems = Some vs -> all_values h' elems = Some vs.
Proof.
  intros Hle. revert vs. induction elems as [|a rest IH]; intros vs; [done|].
  simpl. destruct (settled_of h a) as [|v|e] eqn:Ha; try done.
  destruct (all_values h rest) as [vs'|] eqn:Hr; [|done].
  intros [= <-]. rewrite (IH vs' eq_refl).
  assert (settled_of h' a = Fulfilled v) as ->; [|done].
  destruct a as [x|p]; simpl in *; [done|].
  rewrite Hle; rewrite Ha; done.
Qed.

Lemma all_values_Forall2 (h : Heap) (elems : list Awaitable) (vs : list Value) :
  all_values h elems = Some vs ->
  Forall2 (fun a v => settled_of h a = Fulfilled v) elems vs.
Proof.
  revert vs. induction elems as [|a rest IH]; intros vs; simpl.
  - intros [= <-]. constructor.
  - destruct (settled_of h a) as [|v|e] eqn:Ha; try done.
    destruct (all_values h rest) as [vs'|]; [|done].
    intros [= <-]. constructor; auto.
Qed.

Lemma first_rejection_None (h : Heap) (elems : list Awaitable) :
  first_rejection h elems = None <->
  forall a e, In a elems -> settled_of h a <> Rejected e.
Proof.
  induction elems as [|a rest IH]; simpl.
  - split; [intros _ a e [] | done].
  - destruct (settled_of h a) as [|v|e'] eqn:Ha.
    + rewrite IH. split.
      * intros Hr b e [<-|Hb]; [by rewrite Ha | by apply Hr].
      * intros Hr b e Hb. apply Hr. by right.
    + rewrite IH. split.
      * intros Hr b e [<-|Hb]; [by rewrite Ha | by apply Hr].
      * intros Hr b e Hb. apply Hr. by right.
    + split; [done|]. intros Hr. exfalso. apply (Hr a e'); [by left | done].
Qed.

(** *** What [settle] does to the heap *)

Lemma settle_inv (p : nat) (o : Settlement) (h h' : Heap) :
  settle p o h = Some h' ->
  exists r, h !! p = Some r /\ p_state r = Pending /\ is_join (p_kind r) = false /\
            o <> Pending /\
            h' = map (refresh (<[p := {| p_kind := p_kind r; p_state := o |}]> h))
                     (<[p := {| p_kind := p_kind r; p_state := o |}]> h).
Proof.
  unfold settle. destruct (h !! p) as [r|] eqn:Hp.
  - destruct o as [|v|e]; [done| |];
      destruct (p_state r) eqn:Hs; try done;
      destruct (is_join (p_kind r)) eqn:Hj; try done;
      intros [= <-]; exists r; repeat split; done.
  - by destruct o.
Qed.

Lemma refresh_kind h r : p_kind (refresh h r) = p_kind r.
Proof. unfold refresh. destruct (p_kind r) eqn:Hk, (p_state r); simpl; done. Qed.

Lemma refresh_nonjoin h r : is_join (p_kind r) = false -> refresh h r = r.
Proof. unfold refresh. by destruct (p_kind r). Qed.

Lemma refresh_settled h r : p_state r <> Pending -> refresh h r = r.
Proof. unfold refresh. destruct (p_kind r), (p_state r); done. Qed.

Lemma settle_kind p o h h' q :
  settle p o h = Some h' -> p_kind <$> h' !! q = p_kind <$> h !! q.
Proof.
  intros (r & Hp & _ & _ & _ & ->)%settle_inv.
  rewrite list_lookup_fmap.
  destruct (decide (q = p)) as [->|Hne].
  - rewrite list_lookup_insert_eq by (by eapply lookup_lt_Some).
    simpl. rewrite refresh_kind. simpl. by rewrite Hp.
  - rewrite list_lookup_insert_ne by done.
    destruct (h !! q) as [r'|]; simpl; [|done]. by rewrite refresh_kind.
Qed.

Lemma settle_state_self p o h h' : settle p o h = Some h' -> state_of h' p = o.
Proof.
  intros (r & Hp & _ & Hj & _ & ->)%settle_inv.
  unfold state_of. rewrite list_lookup_fmap.
  rewrite list_lookup_insert_eq by (by eapply lookup_lt_Some).
  simpl. by rewrite refresh_nonjoin.
Qed.

Lemma settle_other_nonjoin p o h h' q r :
  settle p o h = Some h' -> q <> p -> h !! q = Some r ->
  is_join (p_kind r) = false -> h' !! q = Some r.
Proof.
  intros (r0 & Hp & _ & _ & _ & ->)%settle_inv Hne Hq Hj.
  rewrite list_lookup_fmap, list_lookup_insert_ne by done.
  rewrite Hq. simpl. by rewrite refresh_nonjoin.
Qed.

Lemma settle_mono p o h h' : settle p o h = Some h' -> heap_le h h'.
Proof.
  intros (r & Hp & Hs & _ & _ & ->)%settle_inv q Hq.
  unfold state_of in *. rewrite list_lookup_fmap.
  destruct (decide (q = p)) as [->|Hne].
  - rewrite Hp in Hq. done.
  - rewrite list_lookup_insert_ne by done.
    destruct (h !! q) as [r'|]; simpl; [|done].
    by rewrite refresh_settled.
Qed.

Lemma settle_join p o h h' q elems :
  settle p o h = Some h' ->
  h !! q = Some {| p_kind := All elems; p_state := Pending |} ->
  exists r, h !! p = Some r /\
    state_of h' q = all_now (<[p := {| p_kind := p_kind r; p_state := o |}]> h) elems.
Proof.
  intros (r & Hp & Hs & Hj & _ & ->)%settle_inv Hq.
  exists r. split; [done|].
  assert (q <> p) as Hne by (intros ->; rewrite Hp in Hq; by injection Hq as ->).
  unfold state_of. rewrite list_lookup_fmap, list_lookup_insert_ne by done.
  by rewrite Hq.
Qed.

Lemma heap_ok_nil : heap_ok [].
Proof. intros q r elems Hq. done. Qed.

Lemma all_now_cases (h : Heap) (elems : list Awaitable) :
  match all_now h elems with
  | Pending => first_rejection h elems = None
  | Fulfilled v => exists vs, v = VArr vs /\ all_values h elems = Some vs
  | Rejected e => first_rejection h elems = Some e
  end.
Proof.
  unfold all_now. destruct (first_rejection h elems); [done|].
  destruct (all_values h elems); eauto.
Qed.

Lemma elems_in_settled_app (h x : Heap) (elems : list Awaitable) :
  elems_in h elems ->
  forall a, In a elems -> settled_of h a = settled_of (h ++ x) a.
Proof.
  intros Hin [v|p] Ha; [done|]. simpl.
  destruct (Hin p Ha) as (r & Hr & _).
  symmetry. apply state_of_app_l. by eapply lookup_lt_Some.
Qed.

Lemma elems_in_app (h x : Heap) (elems : list Awaitable) :
  elems_in h elems -> elems_in (h ++ x) elems.
Proof.
  intros Hin p Hp. destruct (Hin p Hp) as (r & Hr & Hj).
  exists r. split; [|done]. by apply lookup_app_l_Some.
Qed.

Lemma heap_ok_alloc (h : Heap) (k : PromiseKind) (st : Settlement) :
  heap_ok h ->
  match k with
  | All elems => elems_in h elems /\ st = all_now h elems
  | _ => True
  end ->
  heap_ok (h ++ [{| p_kind := k; p_state := st |}]).
Proof.
  intros Hok Hk q r elems Hq Hkind.
  apply lookup_app_Some in Hq as [Hq | [Hlen Hq]].
  - destruct (Hok q r elems Hq Hkind) as (Hin & Hpend & Hful).
    split; [by apply elems_in_app|]. split.
    + intros Hs. rewrite <- (first_rejection_ext h); [by apply Hpend|].
      by apply elems_in_settled_app.
    + intros v Hs. destruct (Hful v Hs) as (vs & -> & Hvs).
      exists vs. split; [done|].
      rewrite <- (all_values_ext h); [done|]. by apply elems_in_settled_app.
  - apply list_lookup_singleton_Some in Hq as [_ <-]. simpl in *. subst k.
    destruct Hk as [Hin ->]. split; [by apply elems_in_app|].
    pose proof (all_now_cases h elems) as Hc. split.
    + intros Hs. rewrite Hs in Hc.
      rewrite <- (first_rejection_ext h); [done|]. by apply elems_in_settled_app.
    + intros v Hs. rewrite Hs in Hc. destruct Hc as (vs & -> & Hvs).
      exists vs. split; [done|].
      rewrite <- (all_values_ext h); [done|]. by apply elems_in_settled_app.
Qed.

Lemma settle_elems_same p o h h' r elems :
  settle p o h = Some h' -> h !! p = Some r -> elems_in h elems ->
  forall a, In a elems ->
    settled_of (<[p := {| p_kind := p_kind r; p_state := o |}]> h) a
    = settled_of h' a.
Proof.
  intros Hs Hp Hin [v|x] Ha; [done|]. simpl.
  destruct (Hin x Ha) as (rx & Hx & Hj).
  destruct (decide (x = p)) as [->|Hne].
  - rewrite (settle_state_self _ _ _ _ Hs). unfold state_of.
    by rewrite list_lookup_insert_eq by (by eapply lookup_lt_Some).
  - unfold state_of. rewrite list_lookup_insert_ne by done.
    by rewrite (settle_other_nonjoin _ _ _ _ _ _ Hs Hne Hx Hj), Hx.
Qed.

Lemma elems_in_settle p o h h' elems :
  settle p o h = Some h' -> elems_in h elems -> elems_in h' elems.
Proof.
  intros Hs Hin x Hx. destruct (Hin x Hx) as (r & Hr & Hj).
  pose proof (settle_kind _ _ _ _ x Hs) as Hk. rewrite Hr in Hk. simpl in Hk.
  destruct (h' !! x) as [r'|]; [|done]. injection Hk as Hk.
  exists r'. by rewrite Hk.
Qed.

Lemma heap_ok_settle p o h h' :
  heap_ok h -> settle p o h = Some h' -> heap_ok h'.
Proof.
  intros Hok Hs q r' elems Hq' Hkind.
  pose proof (settle_kind _ _ _ _ q Hs) as Hk. rewrite Hq' in Hk. simpl in Hk.
  destruct (h !! q) as [r0|] eqn:Hq; [|done]. injection Hk as Hk.
  rewrite Hkind in Hk. symmetry in Hk.
  destruct (Hok q r0 elems Hq Hk) as (Hin & Hpend & Hful).
  split; [by eapply elems_in_settle|].
  destruct (p_state r0) as [|v0|e0] eqn:Hst0.
  - assert (h !! q = Some {| p_kind := All elems; p_state := Pending |}) as Hq0.
    { rewrite Hq. f_equal. destruct r0; simpl in *; by subst. }
    destruct (settle_join _ _ _ _ _ _ Hs Hq0) as (r & Hp & Hst).
    unfold state_of in Hst at 1. rewrite Hq' in Hst.
    pose proof (all_now_cases (<[p := {| p_kind := p_kind r; p_state := o |}]> h) elems) as Hc.
    rewrite <- Hst in Hc. split.
    + intros Hpd. rewrite Hpd in Hc.
      rewrite <- Hc. symmetry. apply first_rejection_ext.
      by eapply settle_elems_same.
    + intros v Hv. rewrite Hv in Hc. destruct Hc as (vs & -> & Hvs).
      exists vs. split; [done|]. rewrite <- Hvs. symmetry.
      apply all_values_ext. by eapply settle_elems_same.
  - pose proof (settle_mono _ _ _ _ Hs q) as Hm. unfold state_of in Hm.
    rewrite Hq, Hq', Hst0 in Hm. specialize (Hm ltac:(done)).
    split; [by rewrite Hm|]. intros v Hv. rewrite Hm in Hv. injection Hv as <-.
    destruct (Hful v0 eq_refl) as (vs & -> & Hvs). exists vs. split; [done|].
    eapply all_values_mono; [by eapply settle_mono | done].
  - pose proof (settle_mono _ _ _ _ Hs q) as Hm. unfold state_of in Hm.
    rewrite Hq, Hq', Hst0 in Hm. specialize (Hm ltac:(done)).
    split; intros; congruence.
Qed.

Lemma heap_ok_settles l : forall h h',
  heap_ok h -> settles l h = Some h' -> heap_ok h'.
Proof.
  induction l as [|[p o] rest IH]; intros h h' Hok; simpl.
  - by intros [= <-].
  - destruct (settle p o h) as [h1|] eqn:Hs; [|done].
    apply IH. by eapply heap_ok_settle.
Qed.

Lemma settles_mono l : forall h h', settles l h = Some h' -> heap_le h h'.
Proof.
  induction l as [|[p o] rest IH]; intros h h'; simpl.
  - intros [= <-]. apply heap_le_refl.
  - destruct (settle p o h) as [h1|] eqn:Hs; [|done]. intros Hr.
    eapply heap_le_trans; [by eapply settle_mono | by apply IH].
Qed.

Lemma settles_kind l : forall h h' q,
  settles l h = Some h' -> p_kind <$> h' !! q = p_kind <$> h !! q.
Proof.
  induction l as [|[p o] rest IH]; intros h h' q; simpl.
  - by intros [= <-].
  - destruct (settle p o h) as [h1|] eqn:Hs; [|done]. intros Hr.
    rewrite (IH _ _ _ Hr). by eapply settle_kind.
Qed.

(** A pending join is rejected by the first of its elements to be rejected,
    and with that element's error. *)
Lemma settle_rejects_join p e h h' q r elems :
  heap_ok h -> h !! q = Some r -> p_kind r = All elems -> p_state r = Pending ->
  In (Prom p) elems -> settle p (Rejected e) h = Some h' ->
  state_of h' q = Rejected e.
Proof.
  intros Hok Hq Hk Hst Hin Hs.
  destruct (Hok q r elems Hq Hk) as (Hel & Hpend & _).
  assert (h !! q = Some {| p_kind := All elems; p_state := Pending |}) as Hq0.
  { rewrite Hq. f_equal. destruct r; simpl in *; by subst. }
  destruct (settle_join _ _ _ _ _ _ Hs Hq0) as (rp & Hp & ->).
  specialize (Hpend Hst). rewrite first_rejection_None in Hpend.
  set (h1 := <[p := _]> h).
  assert (first_rejection h1 elems = Some e) as Hfr; [|by unfold all_now; rewrite Hfr].
  clear Hq Hq0 Hk Hel. induction elems as [|a rest IH]; [done|]. simpl.
  assert (settled_of h1 a = Rejected e \/
          (a <> Prom p /\ settled_of h1 a = settled_of h a)) as [Ha|[Hne Ha]].
  { destruct a as [v|x]; [right; split; [congruence|done]|]. destruct (decide (x = p)) as [->|Hne].
    - left. simpl. unfold state_of, h1.
      by rewrite list_lookup_insert_eq by (by eapply lookup_lt_Some).
    - right. split; [congruence|]. simpl. unfold state_of, h1.
      by rewrite list_lookup_insert_ne by done. }
  - by rewrite Ha.
  - rewrite Ha. destruct (settled_of h a) as [| |e'] eqn:Hsa.
    + apply IH; [destruct Hin; [congruence|done]|].
      intros b e0 Hb. apply Hpend. by right.
    + apply IH; [destruct Hin; [congruence|done]|].
      intros b e0 Hb. apply Hpend. by right.
    + exfalso. apply (Hpend a e'); [by left | done].
Qed.

Lemma load_one_dispatch i s w : load_one i s w = dispatch_one load_choice i s w.
Proof. unfold load_one, dispatch_one, load_choice. by destruct (has_load s). Qed.

Lemma reload_one_dispatch i s w :
  reload_one i s w = dispatch_one reload_choice i s w.
Proof.
  unfold reload_one, dispatch_one, reload_choice.
  by destruct (has_reload s), (has_load s).
Qed.

Lemma map_stores_ext f g l : forall i w,
  (forall i s w, f i s w = g i s w) -> map_stores f i l w = map_stores g i l w.
Proof.
  induction l as [|s rest IH]; intros i w Hfg; [done|]. simpl.
  rewrite Hfg. destruct (g i s w) as [a w1]. by rewrite IH.
Qed.

Lemma same_store_state_refl w : same_store_state w w.
Proof. by repeat split. Qed.

Lemma map_stores_dispatch ch l : forall i w elems w',
  map_stores (dispatch_one ch) i l w = (elems, w') ->
  exists n,
    heap w' = heap w ++ replicate n pending_call /\
    depCalls w' = depCalls w ++ expected_calls ch i l /\
    same_store_state w w' /\
    Forall2 (fun s a =>
               match ch s with
               | Some _ => exists p, a = Prom p /\
                             length (heap w) <= p < length (heap w) + n
               | None => a = Plain (get s)
               end) l elems.
Proof.
  induction l as [|s rest IH]; intros i w elems w'; simpl.
  - intros [= <- <-]. exists 0. simpl. rewrite !app_nil_r.
    split_and!; [done|done|apply same_store_state_refl|constructor].
  - unfold dispatch_one at 1. destruct (ch s) as [mk|] eqn:Hch.
    + simpl. destruct (map_stores _ _ rest _) as [others w2] eqn:Hrest.
      intros [= <- <-]. destruct (IH _ _ _ _ Hrest) as (n & Hh & Hc & Hsame & Hall).
      simpl in *. exists (S n). split_and!.
      * rewrite Hh, <- app_assoc. done.
      * rewrite Hc, <- app_assoc. done.
      * destruct Hsame as (?&?&?&?&?&?&?&?). by repeat split.
      * constructor.
        -- rewrite Hch. exists (length (heap w)). split; [done|lia].
        -- eapply Forall2_impl; [exact Hall|]. intros s' a. simpl.
           destruct (ch s'); [|done]. intros (p & -> & Hp). exists p.
           split; [done|]. rewrite length_app in Hp. simpl in Hp. lia.
    + destruct (map_stores _ _ rest _) as [others w2] eqn:Hrest.
      intros [= <- <-]. destruct (IH _ _ _ _ Hrest) as (n & Hh & Hc & Hsame & Hall).
      exists n. split_and!; [done|done|done|].
      constructor; [by rewrite Hch | done].
Qed.

Lemma heap_ok_calls h n : heap_ok h -> heap_ok (h ++ replicate n pending_call).
Proof.
  intros Hok. induction n as [|n IH].
  - simpl. by rewrite app_nil_r.
  - rewrite replicate_S_end, app_assoc. by apply heap_ok_alloc.
Qed.

Lemma dispatched_elems_in (ch : Store -> option (nat -> Call)) (h : Heap) n l elems :
  Forall2 (fun (s : Store) a =>
             match ch s with
             | Some _ => exists p, a = Prom p /\
                           length h <= p < length h + n
             | None => a = Plain (get s)
             end) l elems ->
  elems_in (h ++ replicate n pending_call) elems /\
  (forall p, In (Prom p) elems ->
     (h ++ replicate n pending_call) !! p = Some pending_call /\ h !! p = None).
Proof.
  intros Hall.
  assert (forall p, In (Prom p) elems -> length h <= p < length h + n) as Hrange.
  { intros p Hp. apply list_elem_of_In in Hp.
    induction Hall as [|s a l' e' Hsa Hrest IH]; [by apply elem_of_nil in Hp|].
    apply elem_of_cons in Hp as [<-|Hp]; [|by apply IH].
    destruct (ch s); [|done]. destruct Hsa as (q & [= <-] & Hq). done. }
  assert (forall p, In (Prom p) elems ->
     (h ++ replicate n pending_call) !! p = Some pending_call /\ h !! p = None) as Hl.
  { intros p Hp. specialize (Hrange p Hp). split.
    - rewrite lookup_app_r by lia. apply lookup_replicate_2. lia.
    - apply lookup_ge_None. lia. }
  split; [|done]. intros p Hp. exists pending_call. split; [by apply Hl | done].
Qed.

Lemma loadAll_dispatchAll ss w : loadAll ss w = dispatchAll load_choice ss w.
Proof.
  unfold loadAll, dispatchAll.
  by rewrite (map_stores_ext load_one (dispatch_one load_choice))
    by apply load_one_dispatch.
Qed.

Lemma reloadAll_dispatchAll ss w : reloadAll ss w = dispatchAll reload_choice ss w.
Proof.
  unfold reloadAll, dispatchAll.
  by rewrite (map_stores_ext reload_one (dispatch_one reload_choice))
    by apply reload_one_dispatch.
Qed.

Lemma dispatchAll_spec ch ss w agg w' :
  heap_ok (heap w) -> dispatchAll ch ss w = (agg, w') ->
  exists elems, dispatched ch ss w w' agg elems.
Proof.
  intros Hok. unfold dispatchAll.
  destruct (map_stores _ _ _ _) as [elems w1] eqn:Hmap.
  apply map_stores_dispatch in Hmap as (n & Hh & Hc & Hsame & Hall).
  unfold Promise_all, alloc. intros [= <- <-]. exists elems.
  destruct (dispatched_elems_in ch (heap w) n _ _ Hall) as [Hin _].
  rewrite <- Hh in Hin.
  set (j := {| p_kind := All elems; p_state := all_now (heap w1) elems |}).
  split_and!; cbn [heap with_heap depCalls].
  - apply lookup_ge_None. rewrite Hh, length_app. lia.
  - exists (all_now (heap w1) elems).
    cbn [heap with_heap]. rewrite lookup_app_r by lia. by rewrite Nat.sub_diag.
  - eapply Forall2_impl; [exact Hall|]. intros s a. simpl.
    destruct (ch s); [|done]. intros (p & -> & Hp). exists p.
    split_and!; [done| |].
    + apply lookup_ge_None. lia.
    + apply lookup_app_l_Some. rewrite Hh, lookup_app_r by lia.
      apply lookup_replicate_2. lia.
  - done.
  - exists (replicate n pending_call ++ [j]). by rewrite Hh, <- app_assoc.
  - destruct Hsame as (?&?&?&?&?&?&?&?). by repeat split.
  - apply heap_ok_alloc; [rewrite Hh; by apply heap_ok_calls | done].
Qed.

(** A fulfilled join carries the values of its elements, in their order. *)
Lemma join_fulfilled (h : Heap) (agg : nat) (elems : list Awaitable)
    (st : Settlement) (v : Value) :
  heap_ok h -> h !! agg = Some {| p_kind := All elems; p_state := st |} ->
  state_of h agg = Fulfilled v ->
  exists vs, v = VArr vs /\
    Forall2 (fun a x => settled_of h a = Fulfilled x) elems vs.
Proof.
  intros Hok Hagg Hst. unfold state_of in Hst. rewrite Hagg in Hst. simpl in Hst.
  destruct (Hok _ _ elems Hagg eq_refl) as (_ & _ & Hful).
  destruct (Hful v Hst) as (vs & -> & Hvs). exists vs. split; [done|].
  by apply all_values_Forall2.
Qed.

Lemma settles_join_lookup l (h h' : Heap) agg elems st :
  settles l h = Some h' ->
  h !! agg = Some {| p_kind := All elems; p_state := st |} ->
  exists st', h' !! agg = Some {| p_kind := All elems; p_state := st' |}.
Proof.
  intros Hs Hagg. pose proof (settles_kind _ _ _ agg Hs) as Hk.
  rewrite Hagg in Hk. simpl in Hk.
  destruct (h' !! agg) as [[k st']|]; [|done]. simpl in Hk.
  injection Hk as ->. by exists st'.
Qed.

(** What the aggregate of a dispatch does as its elements settle. *)
Lemma dispatched_join ch ss w w' agg elems :
  dispatched ch ss w w' agg elems ->
  (forall l h v, settles l (heap w') = Some h -> state_of h agg = Fulfilled v ->
     exists vs, v = VArr vs /\ length vs = length (getStoresArray ss) /\
    Forall2 (fun a x => settled_of h a = Fulfilled x) elems vs) /\
  (forall l h p e h1 l2 h2,
     settles l (heap w') = Some h -> state_of h agg = Pending ->
     In (Prom p) elems -> settle p (Rejected e) h = Some h1 ->
     settles l2 h1 = Some h2 -> state_of h2 agg = Rejected e).
Proof.
  intros (_ & [st Hagg] & Hall & _ & _ & _ & Hok). split.
  - intros l h v Hs Hv.
    destruct (settles_join_lookup _ _ _ _ _ _ Hs Hagg) as [st' Hagg'].
    destruct (join_fulfilled h agg elems st' v) as (vs & -> & Hvs);
      [by eapply heap_ok_settles | done | done |].
    exists vs. split_and!; [done| |done].
    rewrite <- (Forall2_length _ _ _ Hvs). symmetry. by eapply Forall2_length.
  - intros l h p e h1 l2 h2 Hs Hpend Hin Hrej Hs2.
    destruct (settles_join_lookup _ _ _ _ _ _ Hs Hagg) as [st' Hagg'].
    assert (state_of h1 agg = Rejected e) as Hr.
    { eapply settle_rejects_join; [by eapply heap_ok_settles | exact Hagg' | done | | done | done].
      unfold state_of in Hpend. by rewrite Hagg' in Hpend. }
    rewrite <- Hr. apply (settles_mono _ _ _ Hs2). by rewrite Hr.
Qed.

Lemma dispatchAll_frame ch ss w agg w' :
  dispatchAll ch ss w = (agg, w') ->
  same_store_state w w' /\ agg = length (heap w') - 1 /\
  exists elems n,
    heap w' = (heap w ++ replicate n pending_call)
              ++ [{| p_kind := All elems;
                     p_state := all_now (heap w ++ replicate n pending_call) elems |}] /\
    depCalls w' = depCalls w ++ expected_calls ch 0 (getStoresArray ss).
Proof.
  unfold dispatchAll.
  destruct (map_stores _ _ _ _) as [elems w1] eqn:Hmap.
  apply map_stores_dispatch in Hmap as (n & Hh & Hc & Hsame & Hall).
  unfold Promise_all, alloc. intros [= <- <-]. cbn [heap with_heap depCalls].
  split_and!.
  - destruct Hsame as (?&?&?&?&?&?&?&?). by repeat split.
  - rewrite length_app. simpl. lia.
  - exists elems, n. by rewrite Hh.
Qed.

Section EngineFacts.

Variable JSON_stringify : list Value -> string.

Abbreviation resume := (loadDependenciesThenSet_resume JSON_stringify).
Abbreviation key := (key_of JSON_stringify).

(** *** The start of a cycle *)

Lemma start_spec ch f force w c w' :
  (forall ss w0, f ss w0 = dispatchAll ch ss w0) ->
  loadDependenciesThenSet_start f force w = (c, w') ->
  exists agg w1,
    dispatchAll ch (stores w) w = (agg, w1) /\
    c = length (cycles w) /\
    cycles w' = cycles w ++ [{| c_parents := agg; c_force := force;
                                c_status := AwaitParents |}] /\
    heap w' = heap w1 /\ depCalls w' = depCalls w1 /\
    stores w' = stores w /\ cell w' = cell w /\
    loadedValuesString w' = loadedValuesString w /\
    currentLoadPromise w' = currentLoadPromise w /\
    sets w' = sets w /\ loadCalls w' = loadCalls w /\
    writeCalls w' = writeCalls w.
Proof.
  intros Hf. unfold loadDependenciesThenSet_start. rewrite Hf.
  destruct (dispatchAll ch (stores w) w) as [agg w1] eqn:Hd.
  intros [= <- <-]. exists agg, w1.
  destruct (dispatchAll_frame _ _ _ _ _ Hd) as ((?&?&?&?&Hcy&?&?&?) & _).
  cbn. rewrite Hcy. split_and!; done.
Qed.

(** *** The end of a cycle: the three ways out *)

Lemma resume_rejected w c cy e :
  cycles w !! c = Some cy -> c_status cy = AwaitParents ->
  state_of (heap w) (c_parents cy) = Rejected e ->
  resume c w =
    Some (return_from c cy (Some (c_parents cy))
            (with_currentLoadPromise (Some (c_parents cy)) w)).
Proof.
  intros Hc Hs Hp. unfold loadDependenciesThenSet_resume.
  by rewrite Hc, Hs, Hp.
Qed.

Lemma resume_unchanged w c cy v :
  cycles w !! c = Some cy -> c_status cy = AwaitParents ->
  state_of (heap w) (c_parents cy) = Fulfilled v ->
  c_force cy = false -> loadedValuesString w = Some (key w) ->
  resume c w = Some (return_from c cy (currentLoadPromise w) w).
Proof.
  intros Hc Hs Hp Hf Hk. unfold loadDependenciesThenSet_resume.
  rewrite Hc, Hs, Hp, Hf. simpl. fold (key w). rewrite Hk.
  by rewrite bool_decide_eq_true_2.
Qed.

Lemma resume_invokes w c cy v :
  cycles w !! c = Some cy -> c_status cy = AwaitParents ->
  state_of (heap w) (c_parents cy) = Fulfilled v ->
  c_force cy = true \/ loadedValuesString w <> Some (key w) ->
  resume c w =
    Some (let w1 := if c_force cy then w
                    else with_loadedValuesString (Some (key w)) w in
          let pw := invoke_mapping (map get (getStoresArray (stores w))) w1 in
          return_from c cy (Some (fst pw))
            (with_currentLoadPromise (Some (fst pw)) (snd pw))).
Proof.
  intros Hc Hs Hp Hf. unfold loadDependenciesThenSet_resume.
  rewrite Hc, Hs, Hp. fold (key w).
  destruct (c_force cy) eqn:Hforce; simpl.
  - done.
  - destruct Hf as [|Hf]; [done|].
    rewrite bool_decide_eq_false_2 by congruence. done.
Qed.

Lemma resume_cases w c w' :
  resume c w = Some w' ->
  exists cy, cycles w !! c = Some cy /\ c_status cy = AwaitParents /\
    ((exists e, state_of (heap w) (c_parents cy) = Rejected e) \/
     (exists v, state_of (heap w) (c_parents cy) = Fulfilled v /\
        ((c_force cy = false /\ loadedValuesString w = Some (key w)) \/
         (c_force cy = true \/ loadedValuesString w <> Some (key w))))).
Proof.
  unfold loadDependenciesThenSet_resume.
  destruct (cycles w !! c) as [cy|] eqn:Hc; [|done].
  destruct (c_status cy) eqn:Hs; [|done].
  destruct (state_of (heap w) (c_parents cy)) as [|v|e] eqn:Hp; [done| |].
  - intros _. exists cy. split_and!; [done|done|]. right. exists v. split; [done|].
    destruct (c_force cy); [right; by left|].
    destruct (decide (loadedValuesString w = Some (key w))); [left|right;right]; done.
  - intros _. exists cy. split_and!; [done|done|]. left. by exists e.
Qed.

Lemma returned_return_from w c cy r :
  cycles w !! c = Some cy -> returned (return_from c cy r w) c = Some r.
Proof.
  intros Hc. unfold returned, return_from. cbn [cycles with_cycles].
  by rewrite list_lookup_insert_eq by (by eapply lookup_lt_Some).
Qed.

End EngineFacts.

Lemma heap_grows_refl h : heap_grows h h.
Proof. split; [apply heap_le_refl|]. intros p r Hp. by exists r. Qed.

Lemma heap_grows_trans h1 h2 h3 :
  heap_grows h1 h2 -> heap_grows h2 h3 -> heap_grows h1 h3.
Proof.
  intros [Hle1 Hk1] [Hle2 Hk2]. split; [by eapply heap_le_trans|].
  intros p r Hp. destruct (Hk1 p r Hp) as (r1 & Hp1 & Hkind1).
  destruct (Hk2 p r1 Hp1) as (r2 & Hp2 & Hkind2). exists r2. split; congruence.
Qed.

Lemma heap_grows_app h x : heap_grows h (h ++ x).
Proof.
  split.
  - intros p Hp. by apply state_of_app_pending.
  - intros p r Hp. exists r. split; [by apply lookup_app_l_Some | done].
Qed.

Lemma heap_grows_settle p o h h' : settle p o h = Some h' -> heap_grows h h'.
Proof.
  intros Hs. split; [by eapply settle_mono|]. intros q r Hq.
  pose proof (settle_kind _ _ _ _ q Hs) as Hk. rewrite Hq in Hk. simpl in Hk.
  destruct (h' !! q) as [r'|]; [|done]. injection Hk as Hk. by exists r'.
Qed.

Lemma heap_grows_state h h' p s :
  heap_grows h h' -> state_of h p = s -> s <> Pending -> state_of h' p = s.
Proof. intros [Hle _] <- Hs. by apply Hle. Qed.

Lemma dispatchAll_grows ch ss w agg w' :
  dispatchAll ch ss w = (agg, w') -> heap_grows (heap w) (heap w').
Proof.
  intros Hd. destruct (dispatchAll_frame _ _ _ _ _ Hd)
    as (_ & _ & elems & n & -> & _).
  rewrite <- app_assoc. apply heap_grows_app.
Qed.

Section Growth.

Variable JSON_stringify : list Value -> string.

Abbreviation resume := (loadDependenciesThenSet_resume JSON_stringify).
Abbreviation step := (step JSON_stringify).
Abbreviation run := (run JSON_stringify).

Lemma start_grows ch f force w c w' :
  (forall ss w0, f ss w0 = dispatchAll ch ss w0) ->
  loadDependenciesThenSet_start f force w = (c, w') ->
  heap_grows (heap w) (heap w').
Proof.
  intros Hf Hst.
  destruct (start_spec _ _ _ _ _ _ Hf Hst) as (agg & w1 & Hd & _ & _ & -> & _).
  by eapply dispatchAll_grows.
Qed.

Lemma resume_grows c w w' : resume c w = Some w' -> heap_grows (heap w) (heap w').
Proof.
  intros Hres. destruct (resume_cases _ _ _ _ Hres)
    as (cy & Hc & Hst & [[e He]|(v & Hv & [[Hfo Hk]|Hinvk])]).
  - rewrite (resume_rejected _ _ _ _ _ Hc Hst He) in Hres.
    injection Hres as <-. apply heap_grows_refl.
  - rewrite (resume_unchanged _ _ _ _ _ Hc Hst Hv Hfo Hk) in Hres.
    injection Hres as <-. apply heap_grows_refl.
  - rewrite (resume_invokes _ _ _ _ _ Hc Hst Hv Hinvk) in Hres.
    injection Hres as <-. cbn. destruct (c_force cy); apply heap_grows_app.
Qed.

Lemma step_grows o w ev w' :
  step o w ev = Some w' -> heap_grows (heap w) (heap w').
Proof.
  destruct ev as [i v| | | |v|p out|c|k]; simpl.
  - intros [= <-]. apply heap_grows_refl.
  - intros [= <-].
    destruct (loadDependenciesThenSet_start loadAll false w) as [c w1] eqn:Hst.
    eapply start_grows; [apply loadAll_dispatchAll|done].
  - destruct (o_load o); [|done]. intros [= <-].
    destruct (loadDependenciesThenSet_start loadAll false w) as [c w1] eqn:Hst.
    eapply start_grows; [apply loadAll_dispatchAll|done].
  - destruct (o_reload o); [|done]. intros [= <-].
    destruct (loadDependenciesThenSet_start reloadAll _ w) as [c w1] eqn:Hst.
    eapply start_grows; [apply reloadAll_dispatchAll|done].
  - destruct (o_set o); [|done]. intros [= <-].
    unfold setStoreValueThenWrite_start.
    destruct (loadAll _ _) as [agg w2] eqn:Hl. rewrite loadAll_dispatchAll in Hl.
    apply dispatchAll_grows in Hl. done.
  - unfold settle_in_world. destruct (heap w !! p) as [r|]; [|done].
    destruct (settle p out (heap w)) as [h'|] eqn:Hs; [|done].
    apply heap_grows_settle in Hs.
    destruct (p_kind r), out; intros [= <-]; done.
  - apply resume_grows.
  - unfold setStoreValueThenWrite_resume.
    destruct (sets w !! k) as [sc|] eqn:Hk; [|done].
    destruct (set_stage sc) as [agg|wr|c| |e]; [| | |done|done].
    + destruct (state_of (heap w) agg); [done| |]; intros [= <-]; cbn;
        [apply heap_grows_app | apply heap_grows_refl].
    + destruct (state_of (heap w) wr) as [|wresp|e]; [done| |].
      * destruct (reloadable o).
        -- destruct (loadDependenciesThenSet_start _ _ _) as [c w2] eqn:Hst.
           intros [= <-]. cbn.
           apply (start_grows _ _ _ _ _ _ reloadAll_dispatchAll) in Hst.
           by destruct (is_undefined wresp).
        -- intros [= <-]. destruct (is_undefined wresp); apply heap_grows_refl.
      * intros [= <-]. apply heap_grows_refl.
    + destruct (cycles w !! c) as [cy|]; [|done].
      destruct (c_status cy) as [|[p|]]; [done| |].
      * destruct (state_of (heap w) p); [done| |]; intros [= <-];
          apply heap_grows_refl.
      * intros [= <-]. apply heap_grows_refl.
Qed.

End Growth.

Lemma cycles_joined_grows h h' cs :
  heap_grows h h' -> cycles_joined h cs -> cycles_joined h' cs.
Proof.
  intros [_ Hk] Hj c cy Hc. destruct (Hj c cy Hc) as (elems & st & Hp).
  destruct (Hk _ _ Hp) as ([k st'] & Hp' & Hkind). simpl in Hkind. subst k.
  by exists elems, st'.
Qed.

Lemma cycles_joined_insert h cs c cy cy' :
  cycles_joined h cs -> cs !! c = Some cy -> c_parents cy' = c_parents cy ->
  cycles_joined h (<[c := cy']> cs).
Proof.
  intros Hj Hc Hp c0 cy0 Hc0.
  destruct (decide (c0 = c)) as [->|Hne].
  - rewrite list_lookup_insert_eq in Hc0 by (by eapply lookup_lt_Some).
    injection Hc0 as <-. rewrite Hp. by eapply Hj.
  - rewrite list_lookup_insert_ne in Hc0 by done. by eapply Hj.
Qed.

Section Preservation.

Variable JSON_stringify : list Value -> string.

Abbreviation resume := (loadDependenciesThenSet_resume JSON_stringify).
Abbreviation step := (step JSON_stringify).
Abbreviation run := (run JSON_stringify).

Lemma world_ok_dispatch ch ss w agg w' :
  world_ok w -> dispatchAll ch ss w = (agg, w') ->
  world_ok w' /\
  exists elems st, heap w' !! agg = Some {| p_kind := All elems; p_state := st |}.
Proof.
  intros [Hok Hj] Hd.
  destruct (dispatchAll_spec _ _ _ _ _ Hok Hd)
    as (elems & _ & [st Hagg] & _ & _ & _ & Hsame & Hok').
  split; [|by exists elems, st]. split; [done|].
  destruct Hsame as (_ & _ & _ & _ & -> & _).
  eapply cycles_joined_grows; [by eapply dispatchAll_grows | done].
Qed.

Lemma world_ok_start ch f force w c w' :
  (forall ss w0, f ss w0 = dispatchAll ch ss w0) ->
  world_ok w -> loadDependenciesThenSet_start f force w = (c, w') ->
  world_ok w'.
Proof.
  intros Hf Hw Hst.
  destruct (start_spec _ _ _ _ _ _ Hf Hst)
    as (agg & w1 & Hd & _ & Hcy & Hh & _).
  destruct (world_ok_dispatch _ _ _ _ _ Hw Hd) as [[Hok1 Hj1] (elems & st & Hagg)].
  destruct (dispatchAll_frame _ _ _ _ _ Hd) as ((_&_&_&_&Hc1&_) & _).
  split; rewrite Hh; [done|]. rewrite Hcy. intros c0 cy0 Hc0.
  apply lookup_app_Some in Hc0 as [Hc0 | [_ Hc0]].
  - apply (Hj1 c0). by rewrite Hc1.
  - apply list_lookup_singleton_Some in Hc0 as [_ <-]. simpl. by exists elems, st.
Qed.

Lemma world_ok_resume c w w' : world_ok w -> resume c w = Some w' -> world_ok w'.
Proof.
  intros [Hok Hj] Hres. destruct (resume_cases _ _ _ _ Hres)
    as (cy & Hc & Hst & [[e He]|(v & Hv & [[Hfo Hk]|Hinvk])]).
  - rewrite (resume_rejected _ _ _ _ _ Hc Hst He) in Hres. injection Hres as <-.
    split; cbn; [done|]. by eapply cycles_joined_insert.
  - rewrite (resume_unchanged _ _ _ _ _ Hc Hst Hv Hfo Hk) in Hres.
    injection Hres as <-. split; cbn; [done|]. by eapply cycles_joined_insert.
  - rewrite (resume_invokes _ _ _ _ _ Hc Hst Hv Hinvk) in Hres.
    injection Hres as <-. destruct (c_force cy); (split; cbn;
      [by apply heap_ok_alloc
      |eapply cycles_joined_insert; [|done..];
       eapply cycles_joined_grows; [apply heap_grows_app|done]]).
Qed.

Lemma world_ok_step o w ev w' : world_ok w -> step o w ev = Some w' -> world_ok w'.
Proof.
  intros Hw. destruct ev as [i v| | | |v|p out|c|k]; simpl.
  - intros [= <-]. done.
  - intros [= <-].
    destruct (loadDependenciesThenSet_start loadAll false w) as [c w1] eqn:Hst.
    eapply world_ok_start; [apply loadAll_dispatchAll|done|done].
  - destruct (o_load o); [|done]. intros [= <-].
    destruct (loadDependenciesThenSet_start loadAll false w) as [c w1] eqn:Hst.
    eapply world_ok_start; [apply loadAll_dispatchAll|done|done].
  - destruct (o_reload o); [|done]. intros [= <-].
    destruct (loadDependenciesThenSet_start reloadAll _ w) as [c w1] eqn:Hst.
    eapply world_ok_start; [apply reloadAll_dispatchAll|done|done].
  - destruct (o_set o); [|done]. intros [= <-].
    unfold setStoreValueThenWrite_start.
    destruct (loadAll _ _) as [agg w2] eqn:Hl. rewrite loadAll_dispatchAll in Hl.
    assert (world_ok (with_cell v w)) as Hw1 by done.
    destruct (world_ok_dispatch _ _ _ _ _ Hw1 Hl) as [Hw2 _]. done.
  - unfold settle_in_world. destruct (heap w !! p) as [r|]; [|done].
    destruct (settle p out (heap w)) as [h'|] eqn:Hs; [|done].
    assert (world_ok (with_heap h' w)) as Hw1.
    { destruct Hw as [Hok Hj]. split; cbn; [by eapply heap_ok_settle|].
      eapply cycles_joined_grows; [by eapply heap_grows_settle | done]. }
    destruct (p_kind r), out; intros [= <-]; done.
  - by apply world_ok_resume.
  - unfold setStoreValueThenWrite_resume.
    destruct (sets w !! k) as [sc|] eqn:Hk; [|done].
    destruct (set_stage sc) as [agg|wr|c| |e]; [| | |done|done].
    + destruct (state_of (heap w) agg); [done| |]; intros [= <-]; [|done].
      destruct Hw as [Hok Hj]. split; cbn; [by apply heap_ok_alloc|].
      eapply cycles_joined_grows; [apply heap_grows_app | done].
    + destruct (state_of (heap w) wr) as [|wresp|e]; [done| |].
      * assert (world_ok (if is_undefined wresp then w else with_cell wresp w))
          as Hw1 by (by destruct (is_undefined wresp)).
        destruct (reloadable o).
        -- destruct (loadDependenciesThenSet_start _ _ _) as [c w2] eqn:Hst.
           intros [= <-].
           by apply (world_ok_start _ _ _ _ _ _ reloadAll_dispatchAll Hw1) in Hst.
        -- intros [= <-]. done.
      * intros [= <-]. done.
    + destruct (cycles w !! c) as [cy|]; [|done].
      destruct (c_status cy) as [|[p|]]; [done| |].
      * destruct (state_of (heap w) p); [done| |]; intros [= <-]; done.
      * intros [= <-]. done.
Qed.

Lemma world_ok_run o evs : forall w w',
  world_ok w -> run o w evs = Some w' -> world_ok w'.
Proof.
  induction evs as [|ev rest IH]; intros w w' Hw; simpl.
  - by intros [= <-].
  - destruct (step o w ev) as [w1|] eqn:Hstep; [|done].
    apply IH. by eapply world_ok_step.
Qed.

Lemma world_ok_init ss o : world_ok (init_world ss o).
Proof. split; [apply heap_ok_nil|]. intros c cy Hc. done. Qed.

Lemma world_ok_reachable o ss evs w :
  run o (init_world ss o) evs = Some w -> world_ok w.
Proof. apply world_ok_run, world_ok_init. Qed.

End Preservation.

Lemma expected_calls_In ch l : forall i c,
  In c (expected_calls ch i l) <->
  exists k s mk, l !! k = Some s /\ ch s = Some mk /\ c = mk (i + k).
Proof.
  induction l as [|s rest IH]; intros i c; simpl.
  - split; [done|]. by intros (k & s & mk & Hk & _).
  - assert (In c (expected_calls ch (S i) rest) <->
            exists k s0 mk, rest !! k = Some s0 /\ ch s0 = Some mk /\
                            c = mk (i + S k)) as IH'.
    { rewrite IH. split; intros (k & s0 & mk & Hk & Hch & ->); exists k, s0, mk;
        (split_and!; [done|done|f_equal; lia]). }
    destruct (ch s) as [mk|] eqn:Hch; simpl; rewrite IH'.
    + split.
      * intros [<-|(k & s0 & mk0 & Hk & Hch0 & ->)].
        -- exists 0, s, mk. split_and!; [done|done|f_equal; lia].
        -- exists (S k), s0, mk0. done.
      * intros ([|k] & s0 & mk0 & Hk & Hch0 & ->); simpl in Hk.
        -- left. injection Hk as <-. rewrite Hch in Hch0. injection Hch0 as <-.
           f_equal. lia.
        -- right. exists k, s0, mk0. done.
    + split.
      * intros (k & s0 & mk0 & Hk & Hch0 & ->). exists (S k), s0, mk0. done.
      * intros ([|k] & s0 & mk0 & Hk & Hch0 & ->); simpl in Hk.
        -- injection Hk as <-. congruence.
        -- exists k, s0, mk0. done.
Qed.

Lemma load_calls_load l i :
  In (CLoad i) (load_calls l) <-> exists s, l !! i = Some s /\ has_load s = true.
Proof.
  unfold load_calls. rewrite expected_calls_In. unfold load_choice. split.
  - intros (k & s & mk & Hk & Hch & Hc). destruct (has_load s) eqn:Hl; [|done].
    injection Hch as <-. injection Hc as ->. by exists s.
  - intros (s & Hs & Hl). exists i, s, CLoad. by rewrite Hl.
Qed.

Lemma load_calls_reload l i : ~ In (CReload i) (load_calls l).
Proof.
  unfold load_calls. rewrite expected_calls_In. unfold load_choice.
  intros (k & s & mk & Hk & Hch & Hc). destruct (has_load s); [|done].
  by injection Hch as <-.
Qed.

Lemma reload_calls_reload l i :
  In (CReload i) (reload_calls l) <->
  exists s, l !! i = Some s /\ has_reload s = true.
Proof.
  unfold reload_calls. rewrite expected_calls_In. unfold reload_choice. split.
  - intros (k & s & mk & Hk & Hch & Hc). destruct (has_reload s) eqn:Hr.
    + injection Hch as <-. injection Hc as ->. by exists s.
    + destruct (has_load s); [|done]. by injection Hch as <-.
  - intros (s & Hs & Hl). exists i, s, CReload. by rewrite Hl.
Qed.

Lemma reload_calls_load l i :
  In (CLoad i) (reload_calls l) <->
  exists s, l !! i = Some s /\ has_reload s = false /\ has_load s = true.
Proof.
  unfold reload_calls. rewrite expected_calls_In. unfold reload_choice. split.
  - intros (k & s & mk & Hk & Hch & Hc). destruct (has_reload s) eqn:Hr.
    + by injection Hch as <-.
    + destruct (has_load s) eqn:Hl; [|done].
      injection Hch as <-. injection Hc as ->. by exists s.
  - intros (s & Hs & Hr & Hl). exists i, s, CLoad. by rewrite Hr, Hl.
Qed.

Lemma first_rejection_Some (h : Heap) (elems : list Awaitable) (e : Error) :
  first_rejection h elems = Some e ->
  exists p, In (Prom p) elems /\ state_of h p = Rejected e.
Proof.
  induction elems as [|a rest IH]; [done|]. simpl.
  destruct (settled_of h a) as [|v|e'] eqn:Ha.
  - intros (p & Hp & He)%IH. exists p. split; [by right | done].
  - intros (p & Hp & He)%IH. exists p. split; [by right | done].
  - intros [= ->]. destruct a as [v|p]; [done|]. exists p. split; [by left | done].
Qed.

Lemma Forall2_all_values (h : Heap) (elems : list Awaitable) (vs : list Value) :
  Forall2 (fun a v => settled_of h a = Fulfilled v) elems vs ->
  all_values h elems = Some vs.
Proof.
  induction 1 as [|a v elems vs Ha _ IH]; [done|]. simpl. by rewrite Ha, IH.
Qed.

Lemma all_values_None (h : Heap) (elems : list Awaitable) :
  all_values h elems = None -> first_rejection h elems = None ->
  exists p, In (Prom p) elems /\ state_of h p = Pending.
Proof.
  induction elems as [|a rest IH]; [done|]. simpl.
  destruct (settled_of h a) as [|v|e] eqn:Ha.
  - intros _ _. destruct a as [v|p]; [done|]. exists p. split; [by left | done].
  - destruct (all_values h rest) as [vs|]; [done|]. intros _ Hr.
    destruct (IH eq_refl Hr) as (p & Hp & Hs). exists p. split; [by right | done].
  - done.
Qed.

Lemma all_now_Pending (h : Heap) (elems : list Awaitable) :
  all_now h elems = Pending -> all_values h elems = None.
Proof.
  unfold all_now. destruct (first_rejection h elems); [done|].
  by destruct (all_values h elems).
Qed.

(** The join [Promise.all] has just made. *)
Lemma join_follows_alloc (h : Heap) (elems : list Awaitable) :
  elems_in h elems ->
  join_follows (h ++ [{| p_kind := All elems; p_state := all_now h elems |}])
    (length h) elems.
Proof.
  intros Hin.
  set (j := {| p_kind := All elems; p_state := all_now h elems |}).
  assert (state_of (h ++ [j]) (length h) = all_now h elems) as Hst.
  { unfold state_of. by rewrite lookup_app_r, Nat.sub_diag by lia. }
  pose proof (elems_in_settled_app h [j] elems Hin) as Hsame.
  split.
  - rewrite Hst. intros Hp. rewrite <- (all_values_ext h) by done.
    by apply all_now_Pending.
  - intros e. rewrite Hst. intros He.
    pose proof (all_now_cases h elems) as Hc. rewrite He in Hc.
    rewrite (first_rejection_ext h (h ++ [j])) in Hc by done.
    by apply first_rejection_Some.
Qed.

Lemma join_follows_settle p o (h h' : Heap) agg elems st :
  heap_ok h -> h !! agg = Some {| p_kind := All elems; p_state := st |} ->
  join_follows h agg elems -> settle p o h = Some h' ->
  join_follows h' agg elems.
Proof.
  intros Hok Hagg [Hpend Hrej] Hs.
  destruct (Hok _ _ elems Hagg eq_refl) as (Hin & _ & _).
  destruct st as [|v0|e0].
  - destruct (settle_join _ _ _ _ _ _ Hs Hagg) as (r & Hp & Hst).
    pose proof (settle_elems_same _ _ _ _ _ _ Hs Hp Hin) as Hsame.
    split.
    + rewrite Hst. intros Hpd. rewrite <- (all_values_ext _ h' elems Hsame).
      by apply all_now_Pending.
    + intros e. rewrite Hst. intros He.
      pose proof (all_now_cases (<[p := {| p_kind := p_kind r; p_state := o |}]> h)
                    elems) as Hc.
      rewrite He in Hc. rewrite (first_rejection_ext _ h' elems Hsame) in Hc.
      by apply first_rejection_Some.
  - assert (state_of h' agg = Fulfilled v0) as Hst.
    { rewrite (settle_mono _ _ _ _ Hs agg); unfold state_of; by rewrite Hagg. }
    split; intros; congruence.
  - assert (state_of h agg = Rejected e0) as Hst0
      by (unfold state_of; by rewrite Hagg).
    assert (state_of h' agg = Rejected e0) as Hst.
    { rewrite (settle_mono _ _ _ _ Hs agg); [done|by rewrite Hst0]. }
    split; [congruence|]. intros e He.
    assert (e = e0) as -> by congruence.
    destruct (Hrej e0 Hst0) as (q & Hq & Hqs). exists q. split; [done|].
    rewrite (settle_mono _ _ _ _ Hs q); [done|by rewrite Hqs].
Qed.

Lemma join_follows_settles l agg elems : forall (h h' : Heap) st,
  heap_ok h -> h !! agg = Some {| p_kind := All elems; p_state := st |} ->
  join_follows h agg elems -> settles l h = Some h' ->
  join_follows h' agg elems.
Proof.
  induction l as [|[p o] rest IH]; intros h h' st Hok Hagg Hj; simpl.
  - by intros [= <-].
  - destruct (settle p o h) as [h1|] eqn:Hs; [|done].
    destruct (settles_join_lookup [(p, o)] h h1 agg elems st) as [st1 Hagg1];
      [by simpl; rewrite Hs | done |].
    eapply IH; [by eapply heap_ok_settle | exact Hagg1 |].
    by eapply join_follows_settle.
Qed.

(** The aggregate of a dispatch is settled by its elements and by nothing
    else: it fulfils with their values once they are all fulfilled, it is
    pending only while one of them is, and its error is that of one of them. *)
Lemma dispatched_join_settles ch ss w w' agg elems :
  dispatchAll ch ss w = (agg, w') ->
  dispatched ch ss w w' agg elems ->
  (forall l h vs,
     settles l (heap w') = Some h ->
     Forall2 (fun a x => settled_of h a = Fulfilled x) elems vs ->
     state_of h agg = Fulfilled (VArr vs)) /\
  (forall l h,
     settles l (heap w') = Some h -> state_of h agg = Pending ->
     exists p, In (Prom p) elems /\ state_of h p = Pending) /\
  (forall l h e,
     settles l (heap w') = Some h -> state_of h agg = Rejected e ->
     exists p, In (Prom p) elems /\ state_of h p = Rejected e).
Proof.
  intros Hd (_ & [st Hagg] & _ & _ & _ & _ & Hok).
  assert (join_follows (heap w') agg elems) as Hj.
  { destruct (dispatchAll_frame _ _ _ _ _ Hd) as (_ & Hlen & elems' & n & Hh & _).
    set (h0 := heap w ++ replicate n pending_call) in *.
    assert (agg = length h0) as Hagg0.
    { rewrite Hlen, Hh, length_app. simpl. lia. }
    rewrite Hh, Hagg0, lookup_app_r, Nat.sub_diag in Hagg by lia.
    injection Hagg as <- _. rewrite Hh, Hagg0.
    apply join_follows_alloc.
    rewrite Hh in Hok.
    destruct (Hok (length h0)
                {| p_kind := All elems'; p_state := all_now h0 elems' |} elems')
      as (Hin & _); [|done|].
    { by rewrite lookup_app_r, Nat.sub_diag by lia. }
    intros p Hp. destruct (Hin p Hp) as (r & Hr & Hjn).
    exists r. split; [|done].
    apply lookup_app_Some in Hr as [Hr|[Hge Hr]]; [done|].
    apply list_lookup_singleton_Some in Hr as [_ <-]. done. }
  assert (forall l h, settles l (heap w') = Some h ->
            heap_ok h /\ join_follows h agg elems /\
            exists st', h !! agg = Some {| p_kind := All elems; p_state := st' |})
    as Hinv.
  { intros l h Hs. split_and!.
    - by eapply heap_ok_settles.
    - by eapply join_follows_settles.
    - by eapply settles_join_lookup. }
  split_and!.
  - intros l h vs Hs Hall. destruct (Hinv l h Hs) as (Hokh & [Hpd Hrj] & st' & Hag).
    pose proof (Forall2_all_values _ _ _ Hall) as Hvs.
    destruct (state_of h agg) as [|v|e] eqn:Hst.
    + rewrite Hpd in Hvs; done.
    + destruct (Hokh _ _ elems Hag eq_refl) as (_ & _ & Hful).
      unfold state_of in Hst. rewrite Hag in Hst. simpl in Hst.
      destruct (Hful v Hst) as (vs' & -> & Hvs'). congruence.
    + destruct (Hrj e eq_refl) as (p & Hp & He). exfalso.
      apply list_elem_of_In in Hp.
      destruct (proj1 (list_elem_of_lookup _ _) Hp) as [i Hi].
      destruct (Forall2_lookup_l _ _ _ _ _ Hall Hi) as (x & _ & Hx).
      simpl in Hx. congruence.
  - intros l h Hs Hst. destruct (Hinv l h Hs) as (Hokh & [Hpd _] & st' & Hag).
    destruct (Hokh _ _ elems Hag eq_refl) as (_ & Hfr & _).
    apply all_values_None; [by apply Hpd|]. apply Hfr.
    unfold state_of in Hst. by rewrite Hag in Hst.
  - intros l h e Hs Hst. destruct (Hinv l h Hs) as (_ & [_ Hrj] & _). by apply Hrj.
Qed.

(** C3.  loadAll calls [load()] on exactly the elements that have it and reads
    the others with [get]; the aggregate joins one element per store in input
    order (one element for a single store).  It fulfils with the list of their
    values, in that order, as soon as every element is fulfilled, and with
    nothing else; it stays pending only while some element is pending; once an
    element is rejected while the aggregate is pending the aggregate is
    rejected with that error for good, and it is rejected in no other way. *)
Theorem loadAll_spec (ss : Stores) (w : World) :
  heap_ok (heap w) ->
  exists agg w' elems,
    loadAll ss w = (agg, w') /\
    heap w !! agg = None /\
    (exists st, heap w' !! agg = Some {| p_kind := All elems; p_state := st |}) /\
    Forall2 (fun s a =>
               if has_load s
               then exists p, a = Prom p /\ heap w !! p = None /\
                              heap w' !! p = Some pending_call
               else a = Plain (get s)) (getStoresArray ss) elems /\
    depCalls w' = depCalls w ++ load_calls (getStoresArray ss) /\
    (forall i, In (CLoad i) (load_calls (getStoresArray ss)) <->
               exists s, getStoresArray ss !! i = Some s /\ has_load s = true) /\
    (forall i, ~ In (CReload i) (load_calls (getStoresArray ss))) /\
    (forall s, ss = One s -> length elems = 1) /\
    (forall l h v,
       settles l (heap w') = Some h -> state_of h agg = Fulfilled v ->
       exists vs, v = VArr vs /\ length vs = length (getStoresArray ss) /\
                  Forall2 (fun a x => settled_of h a = Fulfilled x) elems vs) /\
    (forall l h p e h1 l2 h2,
       settles l (heap w') = Some h -> state_of h agg = Pending ->
       In (Prom p) elems -> settle p (Rejected e) h = Some h1 ->
       settles l2 h1 = Some h2 -> state_of h2 agg = Rejected e) /\
    (forall l h vs,
       settles l (heap w') = Some h ->
       Forall2 (fun a x => settled_of h a = Fulfilled x) elems vs ->
       state_of h agg = Fulfilled (VArr vs)) /\
    (forall l h,
       settles l (heap w') = Some h -> state_of h agg = Pending ->
       exists p, In (Prom p) elems /\ state_of h p = Pending) /\
    (forall l h e,
       settles l (heap w') = Some h -> state_of h agg = Rejected e ->
       exists p, In (Prom p) elems /\ state_of h p = Rejected e).
Proof.
  intros Hok. destruct (loadAll ss w) as [agg w'] eqn:Hl.
  rewrite loadAll_dispatchAll in Hl.
  destruct (dispatchAll_spec _ _ _ _ _ Hok Hl) as [elems Hd].
  exists agg, w', elems.
  destruct (dispatched_join _ _ _ _ _ _ Hd) as [Hful Hrej].
  destruct (dispatched_join_settles _ _ _ _ _ _ Hl Hd) as (Hall & Hpend & Herr).
  destruct Hd as (Hfresh & Hagg & Hall2 & Hcalls & _ & _ & _).
  split_and!; try done.
  - eapply Forall2_impl; [exact Hall2|]. intros s a. unfold load_choice.
    by destruct (has_load s).
  - apply load_calls_load.
  - apply load_calls_reload.
  - intros s ->. by rewrite <- (Forall2_length _ _ _ Hall2).
Qed.

(** C4.  reloadAll calls [reload()] on the elements that have it, [load()] on
    those that have [load] but no [reload], and reads the others with [get];
    the join is that of loadAll: the values in input order once every element
    is fulfilled, the error of the first element to be rejected otherwise. *)
Theorem reloadAll_spec (ss : Stores) (w : World) :
  heap_ok (heap w) ->
  exists agg w' elems,
    reloadAll ss w = (agg, w') /\
    heap w !! agg = None /\
    (exists st, heap w' !! agg = Some {| p_kind := All elems; p_state := st |}) /\
    Forall2 (fun s a =>
               if has_reload s || has_load s
               then exists p, a = Prom p /\ heap w !! p = None /\
                              heap w' !! p = Some pending_call
               else a = Plain (get s)) (getStoresArray ss) elems /\
    depCalls w' = depCalls w ++ reload_calls (getStoresArray ss) /\
    (forall i, In (CReload i) (reload_calls (getStoresArray ss)) <->
               exists s, getStoresArray ss !! i = Some s /\ has_reload s = true) /\
    (forall i, In (CLoad i) (reload_calls (getStoresArray ss)) <->
               exists s, getStoresArray ss !! i = Some s /\
                         has_reload s = false /\ has_load s = true) /\
    (forall s, ss = One s -> length elems = 1) /\
    (forall l h v,
       settles l (heap w') = Some h -> state_of h agg = Fulfilled v ->
       exists vs, v = VArr vs /\ length vs = length (getStoresArray ss) /\
                  Forall2 (fun a x => settled_of h a = Fulfilled x) elems vs) /\
    (forall l h p e h1 l2 h2,
       settles l (heap w') = Some h -> state_of h agg = Pending ->
       In (Prom p) elems -> settle p (Rejected e) h = Some h1 ->
       settles l2 h1 = Some h2 -> state_of h2 agg = Rejected e) /\
    (forall l h vs,
       settles l (heap w') = Some h ->
       Forall2 (fun a x => settled_of h a = Fulfilled x) elems vs ->
       state_of h agg = Fulfilled (VArr vs)) /\
    (forall l h,
       settles l (heap w') = Some h -> state_of h agg = Pending ->
       exists p, In (Prom p) elems /\ state_of h p = Pending) /\
    (forall l h e,
       settles l (heap w') = Some h -> state_of h agg = Rejected e ->
       exists p, In (Prom p) elems /\ state_of h p = Rejected e).
Proof.
  intros Hok. destruct (reloadAll ss w) as [agg w'] eqn:Hl.
  rewrite reloadAll_dispatchAll in Hl.
  destruct (dispatchAll_spec _ _ _ _ _ Hok Hl) as [elems Hd].
  exists agg, w', elems.
  destruct (dispatched_join _ _ _ _ _ _ Hd) as [Hful Hrej].
  destruct (dispatched_join_settles _ _ _ _ _ _ Hl Hd) as (Hall & Hpend & Herr).
  destruct Hd as (Hfresh & Hagg & Hall2 & Hcalls & _ & _ & _).
  split_and!; try done.
  - eapply Forall2_impl; [exact Hall2|]. intros s a. unfold reload_choice.
    by destruct (has_reload s), (has_load s).
  - apply reload_calls_reload.
  - apply reload_calls_load.
  - intros s ->. by rewrite <- (Forall2_length _ _ _ Hall2).
Qed.

Section Dedup.

Variable JSON_stringify : list Value -> string.

Abbreviation resume := (loadDependenciesThenSet_resume JSON_stringify).
Abbreviation key := (key_of JSON_stringify).
Abbreviation step := (step JSON_stringify).
Abbreviation run := (run JSON_stringify).
Abbreviation dedup_inv := (dedup_inv JSON_stringify).

Lemma dedup_inv_frame o d w w' :
  dedup_inv o d w ->
  cycles w' = cycles w -> (sets w = [] -> sets w' = []) ->
  loadCalls w' = loadCalls w ->
  loadedValuesString w' = loadedValuesString w -> stores w' = stores w ->
  dedup_inv o d w'.
Proof.
  intros (Hf & Hs & Hl) Hc Hse Hlc Hk Hst. unfold dedup_inv, key_of.
  rewrite Hc, Hlc, Hk, Hst. split_and!; [done| |done]. auto.
Qed.

Lemma dedup_inv_start o d ch f w c w' :
  (forall ss w0, f ss w0 = dispatchAll ch ss w0) ->
  dedup_inv o d w ->
  loadDependenciesThenSet_start f false w = (c, w') ->
  dedup_inv o d w'.
Proof.
  intros Hf (Hfo & Hs & Hl) Hstart.
  destruct (start_spec _ _ _ _ _ _ Hf Hstart)
    as (agg & w1 & _ & _ & Hcy & _ & _ & Hst & _ & Hk & _ & Hse & Hlc & _).
  unfold dedup_inv, key_of. rewrite Hcy, Hse, Hlc, Hk, Hst.
  split_and!; [|done|done].
  apply Forall_app. split; [done|]. by repeat constructor.
Qed.

Ltac frame_set :=
  unfold dedup_inv, key_of in *; cbn;
  split_and!; [done | intros; congruence | done].

Lemma dedup_inv_step o d w ev w' :
  unforced_event o ev = true ->
  dedup_inv o d w -> step o w ev = Some w' ->
  dedup_inv o (match ev with DepChanged _ _ => S d | _ => d end) w'.
Proof.
  intros Hunf Hinv. destruct ev as [i v| | | |v|p out|c|k]; simpl.
  - intros [= <-]. destruct Hinv as (Hf & Hs & Hl).
    split_and!; [done|done|]. cbn [loadCalls with_stores loadedValuesString].
    destruct (bool_decide _), (bool_decide _); lia.
  - intros [= <-].
    destruct (loadDependenciesThenSet_start loadAll false w) as [c w1] eqn:Hst.
    eapply dedup_inv_start; [apply loadAll_dispatchAll|done|done].
  - destruct (o_load o); [|done]. intros [= <-].
    destruct (loadDependenciesThenSet_start loadAll false w) as [c w1] eqn:Hst.
    eapply dedup_inv_start; [apply loadAll_dispatchAll|done|done].
  - destruct (o_reload o); [|done]. intros [= <-]. simpl in Hunf.
    apply negb_true_iff in Hunf. rewrite Hunf.
    destruct (loadDependenciesThenSet_start reloadAll false w) as [c w1] eqn:Hst.
    eapply dedup_inv_start; [apply reloadAll_dispatchAll|done|done].
  - destruct (o_set o); [|done]. intros [= <-]. simpl in Hunf.
    apply negb_true_iff in Hunf. unfold setStoreValueThenWrite_start.
    destruct (loadAll _ _) as [agg w2] eqn:Hl.
    rewrite loadAll_dispatchAll in Hl.
    destruct (dispatchAll_frame _ _ _ _ _ Hl) as ((?&?&?&?&?&?&?&?) & _).
    destruct Hinv as (Hf & Hs & Hlen). unfold dedup_inv, key_of in *.
    cbn [cycles with_sets with_cell sets loadCalls loadedValuesString stores] in *.
    split_and!; [congruence|congruence|]. 
    replace (loadCalls w2) with (loadCalls w) by congruence.
    replace (loadedValuesString w2) with (loadedValuesString w) by congruence.
    replace (stores w2) with (stores w) by congruence. done.
  - unfold settle_in_world. destruct (heap w !! p) as [r|]; [|done].
    destruct (settle p out (heap w)) as [h'|]; [|done].
    destruct (p_kind r), out; intros [= <-];
      (eapply dedup_inv_frame; [exact Hinv|done..]).
  - intros Hres. destruct Hinv as (Hf & Hs & Hlen).
    destruct (resume_cases _ _ _ _ Hres)
      as (cy & Hc & Hst & [[e He]|(v & Hv & [[Hfo Hk]|Hinvk])]).
    + rewrite (resume_rejected _ _ _ _ _ Hc Hst He) in Hres.
      injection Hres as <-. unfold dedup_inv, key_of in *.
      cbn [cycles return_from with_cycles with_currentLoadPromise sets
           loadCalls loadedValuesString stores].
      split_and!; [|done|done].
      apply Forall_insert; [done|]. simpl.
      by eapply (Forall_lookup_1 _ _ _ _ Hf).
    + rewrite (resume_unchanged _ _ _ _ _ Hc Hst Hv Hfo Hk) in Hres.
      injection Hres as <-. unfold dedup_inv, key_of in *.
      cbn [cycles return_from with_cycles sets loadCalls loadedValuesString stores].
      split_and!; [|done|done].
      apply Forall_insert; [done|]. simpl.
      by eapply (Forall_lookup_1 _ _ _ _ Hf).
    + rewrite (resume_invokes _ _ _ _ _ Hc Hst Hv Hinvk) in Hres.
      injection Hres as <-.
      assert (c_force cy = false) as Hfo by (by eapply (Forall_lookup_1 _ _ _ _ Hf)).
      rewrite Hfo in *. destruct Hinvk as [|Hne]; [done|].
      unfold dedup_inv, key_of in *.
      cbn [cycles return_from with_cycles with_currentLoadPromise sets
           invoke_mapping alloc fst snd with_heap with_loadCalls
           with_loadedValuesString loadCalls loadedValuesString stores].
      split_and!; [|done|].
      * apply Forall_insert; [done|]. simpl. done.
      * rewrite length_app. simpl.
        rewrite bool_decide_eq_true_2 by done.
        rewrite bool_decide_eq_false_2 in Hlen by done. lia.
  - unfold setStoreValueThenWrite_resume.
    destruct (sets w !! k) as [sc|] eqn:Hk; [|done].
    destruct Hinv as (Hf & Hs & Hlen).
    destruct (reloadable o) eqn:Hrel.
    { rewrite (Hs eq_refl) in Hk. done. }
    destruct (set_stage sc) as [agg|wr|c| |e].
    + destruct (state_of (heap w) agg); [done| |]; intros [= <-]; frame_set.
    + destruct (state_of (heap w) wr) as [|wresp|e]; [done| |]; intros [= <-].
      * destruct (is_undefined wresp); frame_set.
      * frame_set.
    + destruct (cycles w !! c) as [cy|]; [|done].
      destruct (c_status cy) as [|[p|]]; [done| |].
      * destruct (state_of (heap w) p); [done| |]; intros [= <-]; frame_set.
      * intros [= <-]. frame_set.
    + done.
    + done.
Qed.

Lemma dedup_inv_run o evs : forall d w w',
  forallb (unforced_event o) evs = true ->
  dedup_inv o d w -> run o w evs = Some w' ->
  dedup_inv o (d + count_changes evs) w'.
Proof.
  induction evs as [|ev rest IH]; intros d w w' Hunf Hinv; simpl.
  - intros [= <-]. by rewrite Nat.add_0_r.
  - simpl in Hunf. apply andb_true_iff in Hunf as [Hev Hrest].
    destruct (step o w ev) as [w1|] eqn:Hstep; [|done]. intros Hrun.
    pose proof (dedup_inv_step _ _ _ _ _ Hev Hinv Hstep) as Hinv1.
    pose proof (IH _ _ _ Hrest Hinv1 Hrun) as Hfin.
    destruct ev; simpl in *; try done.
    by replace (d + S (count_changes rest)) with (S d + count_changes rest) by lia.
Qed.

Lemma dedup_inv_init o ss : dedup_inv o 0 (init_world ss o).
Proof. unfold dedup_inv. simpl. split_and!; [constructor|done|lia]. Qed.

End Dedup.

Section Publication.

Variable JSON_stringify : list Value -> string.

Abbreviation resume := (loadDependenciesThenSet_resume JSON_stringify).
Abbreviation step := (step JSON_stringify).
Abbreviation run := (run JSON_stringify).

Lemma resume_returns_current c w w' :
  resume c w = Some w' -> returned w' c = Some (currentLoadPromise w').
Proof.
  intros Hres. destruct (resume_cases _ _ _ _ Hres)
    as (cy & Hc & Hst & [[e He]|(v & Hv & [[Hfo Hk]|Hinvk])]).
  - rewrite (resume_rejected _ _ _ _ _ Hc Hst He) in Hres. injection Hres as <-.
    by rewrite returned_return_from.
  - rewrite (resume_unchanged _ _ _ _ _ Hc Hst Hv Hfo Hk) in Hres.
    injection Hres as <-. by rewrite returned_return_from.
  - rewrite (resume_invokes _ _ _ _ _ Hc Hst Hv Hinvk) in Hres.
    injection Hres as <-. cbn zeta. rewrite returned_return_from; [done|].
    by destruct (c_force cy).
Qed.

Lemma resume_cell c w w' : resume c w = Some w' -> cell w' = cell w.
Proof.
  intros Hres. destruct (resume_cases _ _ _ _ Hres)
    as (cy & Hc & Hst & [[e He]|(v & Hv & [[Hfo Hk]|Hinvk])]).
  - rewrite (resume_rejected _ _ _ _ _ Hc Hst He) in Hres. by injection Hres as <-.
  - rewrite (resume_unchanged _ _ _ _ _ Hc Hst Hv Hfo Hk) in Hres.
    by injection Hres as <-.
  - rewrite (resume_invokes _ _ _ _ _ Hc Hst Hv Hinvk) in Hres.
    injection Hres as <-. by destruct (c_force cy).
Qed.

Lemma settle_chain_fulfilled w p r v :
  heap w !! p = Some r -> p_kind r = LoadChain -> p_state r = Pending ->
  exists h', settle p (Fulfilled v) (heap w) = Some h' /\
    settle_in_world p (Fulfilled v) w = Some (with_cell v (with_heap h' w)).
Proof.
  intros Hp Hk Hs. unfold settle_in_world, settle. rewrite Hp, Hs, Hk. simpl.
  eexists. split; done.
Qed.

Lemma step_cell_cases o w ev w' :
  step o w ev = Some w' ->
  cell w' = cell w \/
  (exists p r v, ev = Settle p (Fulfilled v) /\ heap w !! p = Some r /\
                 p_kind r = LoadChain /\ cell w' = v) \/
  (exists v, ev = CallSet v) \/ (exists k, ev = ResumeSet k).
Proof.
  destruct ev as [i v| | | |v|p out|c|k]; simpl.
  - intros [= <-]. by left.
  - intros [= <-]. left.
    destruct (loadDependenciesThenSet_start loadAll false w) as [c w1] eqn:Hst.
    destruct (start_spec _ _ _ _ _ _ loadAll_dispatchAll Hst)
      as (agg & w2 & _ & _ & _ & _ & _ & _ & Hcell & _). done.
  - destruct (o_load o); [|done]. intros [= <-]. left.
    destruct (loadDependenciesThenSet_start loadAll false w) as [c w1] eqn:Hst.
    destruct (start_spec _ _ _ _ _ _ loadAll_dispatchAll Hst)
      as (agg & w2 & _ & _ & _ & _ & _ & _ & Hcell & _). done.
  - destruct (o_reload o); [|done]. intros [= <-]. left.
    destruct (loadDependenciesThenSet_start reloadAll _ w) as [c w1] eqn:Hst.
    destruct (start_spec _ _ _ _ _ _ reloadAll_dispatchAll Hst)
      as (agg & w2 & _ & _ & _ & _ & _ & _ & Hcell & _). done.
  - intros _. right. right. left. by exists v.
  - unfold settle_in_world. destruct (heap w !! p) as [r|] eqn:Hp; [|done].
    destruct (settle p out (heap w)) as [h'|] eqn:Hs; [|done].
    destruct (p_kind r) eqn:Hk, out; intros [= <-]; try (by left).
    right. left. by exists p, r, v.
  - intros Hres. left. by eapply resume_cell.
  - intros _. right. right. right. by exists k.
Qed.

(** C2, amended.  A cycle returns the promise that is [currentLoadPromise]
    when it finishes; every load chain publishes its value when it fulfils,
    current or not, and leaves [currentLoadPromise] as it is; the cell changes
    in no other way than by such a fulfilment or on the write path. *)
Theorem publication_follows_fulfilment (o : AsyncStore) (w : World) :
  (forall c w', step o w (ResumeCycle c) = Some w' ->
     returned w' c = Some (currentLoadPromise w')) /\
  (forall p r v,
     heap w !! p = Some r -> p_kind r = LoadChain -> p_state r = Pending ->
     exists w', step o w (Settle p (Fulfilled v)) = Some w' /\
                cell w' = v /\
                currentLoadPromise w' = currentLoadPromise w) /\
  (forall ev w', step o w ev = Some w' ->
     cell w' = cell w \/
     (exists p r v, ev = Settle p (Fulfilled v) /\ heap w !! p = Some r /\
                    p_kind r = LoadChain /\ cell w' = v) \/
     (exists v, ev = CallSet v) \/ (exists k, ev = ResumeSet k)).
Proof.
  split_and!.
  - intros c w'. apply resume_returns_current.
  - intros p r v Hp Hk Hs.
    destruct (settle_chain_fulfilled w p r v Hp Hk Hs) as (h' & _ & Hw).
    eexists. split; [exact Hw|]. done.
  - apply step_cell_cases.
Qed.

End Publication.

(** C2 fails: the computation for B is current and has resolved, a fresh
    [load()] returns it, and the cell shows the value computed from A. *)
Lemma last_triggered_wins_fails :
  ~ last_triggered_wins sample_stringify
      (asyncDerived (One (plain_store "A")) false VUndefined)
      (One (plain_store "A")).
Proof.
  intros Hclaim.
  pose (o := asyncDerived (One (plain_store "A")) false VUndefined).
  destruct (run sample_stringify o (init_world (One (plain_store "A")) o) overtaken)
    as [w|] eqn:Hrun; [|by vm_compute in Hrun].
  specialize (Hclaim overtaken w 3 (VStr "from B") Hrun).
  vm_compute in Hrun. injection Hrun as <-.
  specialize (Hclaim eq_refl eq_refl). by vm_compute in Hclaim.
Qed.

Lemma publication_follows_fulfilment_witness :
  exists w',
    step sample_stringify (asyncReadable VUndefined false)
      {| heap := [{| p_kind := LoadChain; p_state := Pending |}];
         stores := Many []; cell := VUndefined;
         loadedValuesString := None; currentLoadPromise := None;
         cycles := []; sets := []; depCalls := []; loadCalls := [];
         writeCalls := [] |}
      (Settle 0 (Fulfilled (VStr "x"))) = Some w' /\ cell w' = VStr "x".
Proof.
  destruct (publication_follows_fulfilment sample_stringify
              (asyncReadable VUndefined false)
              {| heap := [{| p_kind := LoadChain; p_state := Pending |}];
                 stores := Many []; cell := VUndefined;
                 loadedValuesString := None; currentLoadPromise := None;
                 cycles := []; sets := []; depCalls := []; loadCalls := [];
                 writeCalls := [] |}) as (_ & Hpub & _).
  destruct (Hpub 0 {| p_kind := LoadChain; p_state := Pending |} (VStr "x")
              eq_refl eq_refl eq_refl) as (w' & Hstep & Hcell & _).
  exists w'. split; [exact Hstep | exact Hcell].
Defined.

Section Failures.

Variable JSON_stringify : list Value -> string.

Abbreviation resume := (loadDependenciesThenSet_resume JSON_stringify).
Abbreviation step := (step JSON_stringify).
Abbreviation run := (run JSON_stringify).

Lemma chain_load_rejected levels ancestor e :
  has_load ancestor = true ->
  exists last,
    chain_load JSON_stringify levels ancestor (Rejected e) = (last, Rejected e, 0) /\
    has_load last = true.
Proof.
  intros Hanc. induction levels as [|[rel ini] rest IH]; [by exists ancestor|].
  destruct IH as ([cur hl hr] & Hrest & Hl). simpl in Hl. subst hl.
  simpl. rewrite Hrest. eexists. split; reflexivity.
Qed.

(** C5.  When a dependency's [load()] / [reload()] is rejected while the
    cycle awaits the join, the cycle ends without calling the mapping
    function or touching the cell, and the promise it returns is the join
    itself, rejected with that error; through a chain of stores of any
    length the error arrives as it was raised, with no mapping call. *)
Theorem ancestor_failure_short_circuits (o : AsyncStore) :
  (forall w c cy elems p e w1,
     world_ok w ->
     cycles w !! c = Some cy -> c_status cy = AwaitParents ->
     heap w !! c_parents cy = Some {| p_kind := All elems; p_state := Pending |} ->
     In (Prom p) elems ->
     step o w (Settle p (Rejected e)) = Some w1 ->
     exists w2,
       step o w1 (ResumeCycle c) = Some w2 /\
       loadCalls w2 = loadCalls w /\ cell w2 = cell w /\
       returned w2 c = Some (Some (c_parents cy)) /\
       cycle_result w2 c = Rejected e) /\
  (forall levels ancestor e,
     has_load ancestor = true ->
     exists last,
       chain_load JSON_stringify levels ancestor (Rejected e)
       = (last, Rejected e, 0)).
Proof.
  split.
  2:{ intros levels ancestor e Hanc.
      destruct (chain_load_rejected levels ancestor e Hanc) as (last & Hlast & _).
      by exists last. }
  intros w c cy elems p e w1 [Hok Hj] Hc Hst Hagg Hin Hstep.
  simpl in Hstep. unfold settle_in_world in Hstep.
  destruct (heap w !! p) as [r|] eqn:Hp; [|done].
  destruct (settle p (Rejected e) (heap w)) as [h'|] eqn:Hs; [|done].
  assert (w1 = with_heap h' w) as -> by (destruct (p_kind r); congruence).
  assert (state_of h' (c_parents cy) = Rejected e) as Hrej.
  { eapply settle_rejects_join; [exact Hok|exact Hagg|done|done|exact Hin|exact Hs]. }
  eexists. split.
  - simpl. apply (resume_rejected JSON_stringify (with_heap h' w) c cy e); done.
  - split_and!; try done.
    + by apply returned_return_from.
    + unfold cycle_result, return_from. cbn [cycles with_cycles].
      rewrite list_lookup_insert_eq by (by eapply lookup_lt_Some). done.
Qed.

End Failures.

Lemma ancestor_failure_short_circuits_witness :
  exists w2,
    run sample_stringify
      (asyncDerived (One (loadable_store "parent")) false (VStr "initial"))
      (init_world (One (loadable_store "parent"))
         (asyncDerived (One (loadable_store "parent")) false (VStr "initial")))
      [CallLoad; Settle 0 (Rejected "error"); ResumeCycle 0] = Some w2 /\
    loadCalls w2 = [] /\ cell w2 = VStr "initial" /\
    cycle_result w2 0 = Rejected "error".
Proof.
  pose (o := asyncDerived (One (loadable_store "parent")) false (VStr "initial")).
  pose (w := snd (loadDependenciesThenSet_start loadAll false
                    (init_world (One (loadable_store "parent")) o))).
  destruct (ancestor_failure_short_circuits sample_stringify o) as [Hone _].
  destruct (Hone w 0
              {| c_parents := 1; c_force := false; c_status := AwaitParents |}
              [Prom 0] 0 "error"
              (with_heap [{| p_kind := FromCall; p_state := Rejected "error" |};
                          {| p_kind := All [Prom 0]; p_state := Rejected "error" |}] w)
              (world_ok_reachable sample_stringify o
                 (One (loadable_store "parent")) [CallLoad] w eq_refl)
              eq_refl eq_refl eq_refl (or_introl eq_refl) eq_refl)
    as (w2 & Hstep & Hcalls & Hcell & _ & Hres).
  exists w2. split; [exact Hstep|]. split; [exact Hcalls|]. split; [exact Hcell|].
  exact Hres.
Defined.

Lemma some_success_grows h h' :
  heap_grows h h' -> some_success h -> some_success h'.
Proof.
  intros [Hle Hk] (p & r & v & Hp & Hkind & Hst).
  destruct (Hk p r Hp) as (r' & Hp' & Hkind').
  exists p, r', v. split_and!; [done|congruence|].
  specialize (Hle p). unfold state_of in Hle. rewrite Hp, Hp', Hst in Hle.
  by apply Hle.
Qed.

Section MappingFailure.

Variable JSON_stringify : list Value -> string.

Abbreviation step := (step JSON_stringify).
Abbreviation run := (run JSON_stringify).

Lemma step_sets_length o w ev w' :
  step o w ev = Some w' -> length (sets w) <= length (sets w').
Proof.
  destruct ev as [i v| | | |v|p out|c|k]; simpl.
  - by intros [= <-].
  - intros [= <-].
    destruct (loadDependenciesThenSet_start loadAll false w) as [c w1] eqn:Hst.
    destruct (start_spec _ _ _ _ _ _ loadAll_dispatchAll Hst)
      as (agg & w2 & _ & _ & _ & _ & _ & _ & _ & _ & _ & Hs & _).
    simpl. by rewrite Hs.
  - destruct (o_load o); [|done]. intros [= <-].
    destruct (loadDependenciesThenSet_start loadAll false w) as [c w1] eqn:Hst.
    destruct (start_spec _ _ _ _ _ _ loadAll_dispatchAll Hst)
      as (agg & w2 & _ & _ & _ & _ & _ & _ & _ & _ & _ & Hs & _).
    simpl. by rewrite Hs.
  - destruct (o_reload o); [|done]. intros [= <-].
    destruct (loadDependenciesThenSet_start reloadAll _ w) as [c w1] eqn:Hst.
    destruct (start_spec _ _ _ _ _ _ reloadAll_dispatchAll Hst)
      as (agg & w2 & _ & _ & _ & _ & _ & _ & _ & _ & _ & Hs & _).
    simpl. by rewrite Hs.
  - destruct (o_set o); [|done]. intros [= <-].
    unfold setStoreValueThenWrite_start.
    destruct (loadAll _ _) as [agg w2] eqn:Hl. rewrite loadAll_dispatchAll in Hl.
    destruct (dispatchAll_frame _ _ _ _ _ Hl) as ((_&_&_&_&_&Hs&_) & _).
    cbn [sets with_sets with_cell] in *. rewrite length_app, Hs. lia.
  - unfold settle_in_world. destruct (heap w !! p) as [r|]; [|done].
    destruct (settle p out (heap w)) as [h'|]; [|done].
    destruct (p_kind r), out; intros [= <-]; done.
  - intros Hres. destruct (resume_cases _ _ _ _ Hres)
      as (cy & Hc & Hst & [[e He]|(v & Hv & [[Hfo Hk]|Hinvk])]).
    + rewrite (resume_rejected _ _ _ _ _ Hc Hst He) in Hres.
      by injection Hres as <-.
    + rewrite (resume_unchanged _ _ _ _ _ Hc Hst Hv Hfo Hk) in Hres.
      by injection Hres as <-.
    + rewrite (resume_invokes _ _ _ _ _ Hc Hst Hv Hinvk) in Hres.
      injection Hres as <-. by destruct (c_force cy).
  - unfold setStoreValueThenWrite_resume.
    destruct (sets w !! k) as [sc|] eqn:Hk; [|done].
    destruct (set_stage sc) as [agg|wr|c| |e]; [| | |done|done].
    + destruct (state_of (heap w) agg); [done| |]; intros [= <-]; cbn;
        by rewrite length_insert.
    + destruct (state_of (heap w) wr) as [|wresp|e]; [done| |].
      * destruct (reloadable o).
        -- destruct (loadDependenciesThenSet_start _ _ _) as [c w2] eqn:Hst.
           intros [= <-].
           destruct (start_spec _ _ _ _ _ _ reloadAll_dispatchAll Hst)
             as (agg & w3 & _ & _ & _ & _ & _ & _ & _ & _ & _ & Hs & _).
           cbn [sets set_stage_to with_sets]. rewrite length_insert, Hs.
           by destruct (is_undefined wresp).
        -- intros [= <-]. cbn [sets set_stage_to with_sets].
           rewrite length_insert. by destruct (is_undefined wresp).
      * intros [= <-]. cbn. by rewrite length_insert.
    + destruct (cycles w !! c) as [cy|]; [|done].
      destruct (c_status cy) as [|[p|]]; [done| |].
      * destruct (state_of (heap w) p); [done| |]; intros [= <-]; cbn;
          by rewrite length_insert.
      * intros [= <-]. cbn. by rewrite length_insert.
Qed.

Lemma step_sets o w ev w' :
  step o w ev = Some w' -> sets w <> [] -> sets w' <> [].
Proof.
  intros Hstep Hne Hnil. apply step_sets_length in Hstep.
  rewrite Hnil in Hstep. destruct (sets w); [done|]. simpl in Hstep. lia.
Qed.

Lemma initial_inv_step o w ev w' :
  initial_inv o w -> step o w ev = Some w' -> initial_inv o w'.
Proof.
  intros Hinv Hstep.
  destruct Hinv as [Hcell|[Hsets|Hsucc]].
  - destruct (step_cell_cases _ _ _ _ _ Hstep)
      as [Heq|[(p & r & v & -> & Hp & Hk & Hv)|[[v ->]|[k ->]]]].
    + left. congruence.
    + right. right. simpl in Hstep. unfold settle_in_world in Hstep.
      rewrite Hp in Hstep.
      destruct (settle p (Fulfilled v) (heap w)) as [h'|] eqn:Hs; [|done].
      rewrite Hk in Hstep. injection Hstep as <-. cbn [heap with_cell with_heap].
      pose proof (settle_state_self _ _ _ _ Hs) as Hst.
      destruct (heap_grows_settle _ _ _ _ Hs) as [_ Hkind].
      destruct (Hkind p r Hp) as (r' & Hp' & Hk').
      exists p, r', v. split_and!; [done|congruence|].
      unfold state_of in Hst. by rewrite Hp' in Hst.
    + right. left. simpl in Hstep. destruct (o_set o); [|done].
      injection Hstep as <-. unfold setStoreValueThenWrite_start.
      destruct (loadAll _ _) as [agg w2]. cbn [sets with_sets].
      intros Hnil. by apply app_eq_nil in Hnil as [_ ?].
    + right. left. eapply step_sets; [exact Hstep|]. intros Hnil.
      simpl in Hstep. unfold setStoreValueThenWrite_resume in Hstep.
      by rewrite Hnil, lookup_nil in Hstep.
  - right. left. by eapply step_sets.
  - right. right. eapply some_success_grows; [by eapply step_grows | done].
Qed.

Lemma initial_inv_run o evs : forall w w',
  initial_inv o w -> run o w evs = Some w' -> initial_inv o w'.
Proof.
  induction evs as [|ev rest IH]; intros w w' Hinv; simpl.
  - by intros [= <-].
  - destruct (step o w ev) as [w1|] eqn:Hstep; [|done].
    apply IH. by eapply initial_inv_step.
Qed.

End MappingFailure.

Section WritePath.

Variable JSON_stringify : list Value -> string.

Abbreviation step := (step JSON_stringify).

Lemma set_stage_to_lookup k sc st w :
  sets w !! k = Some sc ->
  sets (set_stage_to k sc st w) !! k
  = Some {| set_value := set_value sc; set_stage := st |}.
Proof.
  intros Hk. unfold set_stage_to. cbn [sets with_sets].
  by rewrite list_lookup_insert_eq by (by eapply lookup_lt_Some).
Qed.

End WritePath.

Section FailureCache.

Variable JSON_stringify : list Value -> string.

Abbreviation resume := (loadDependenciesThenSet_resume JSON_stringify).
Abbreviation key := (key_of JSON_stringify).
Abbreviation step := (step JSON_stringify).
Abbreviation run := (run JSON_stringify).
Abbreviation run_where := (run_where JSON_stringify).

(** Only the end of a cycle touches the memo; only a dependency changes the
    key. *)
Lemma step_memo o w ev w' :
  step o w ev = Some w' ->
  (forall c, ev <> ResumeCycle c) ->
  currentLoadPromise w' = currentLoadPromise w /\
  loadedValuesString w' = loadedValuesString w /\
  loadCalls w' = loadCalls w /\
  ((forall i v, ev <> DepChanged i v) -> stores w' = stores w).
Proof.
  destruct ev as [i v| | | |v|p out|c|k]; simpl; intros Hstep Hnr.
  - injection Hstep as <-. split_and!; try done. intros Hn. by destruct (Hn i v).
  - injection Hstep as <-.
    destruct (loadDependenciesThenSet_start loadAll false w) as [c w1] eqn:Hst.
    destruct (start_spec _ _ _ _ _ _ loadAll_dispatchAll Hst)
      as (agg & w2 & _ & _ & _ & _ & _ & ? & _ & ? & ? & _ & ? & _). done.
  - destruct (o_load o); [|done]. injection Hstep as <-.
    destruct (loadDependenciesThenSet_start loadAll false w) as [c w1] eqn:Hst.
    destruct (start_spec _ _ _ _ _ _ loadAll_dispatchAll Hst)
      as (agg & w2 & _ & _ & _ & _ & _ & ? & _ & ? & ? & _ & ? & _). done.
  - destruct (o_reload o); [|done]. injection Hstep as <-.
    destruct (loadDependenciesThenSet_start reloadAll _ w) as [c w1] eqn:Hst.
    destruct (start_spec _ _ _ _ _ _ reloadAll_dispatchAll Hst)
      as (agg & w2 & _ & _ & _ & _ & _ & ? & _ & ? & ? & _ & ? & _). done.
  - destruct (o_set o); [|done]. injection Hstep as <-.
    unfold setStoreValueThenWrite_start.
    destruct (loadAll _ _) as [agg w2] eqn:Hl. rewrite loadAll_dispatchAll in Hl.
    destruct (dispatchAll_frame _ _ _ _ _ Hl) as ((?&?&?&?&?&?&?&?) & _). done.
  - unfold settle_in_world in Hstep. destruct (heap w !! p) as [r|]; [|done].
    destruct (settle p out (heap w)) as [h'|]; [|done].
    destruct (p_kind r), out; injection Hstep as <-; done.
  - by destruct (Hnr c).
  - unfold setStoreValueThenWrite_resume in Hstep.
    destruct (sets w !! k) as [sc|] eqn:Hk; [|done].
    destruct (set_stage sc) as [agg|wr|c| |e]; [| | |done|done].
    + destruct (state_of (heap w) agg); [done| |]; injection Hstep as <-; done.
    + destruct (state_of (heap w) wr) as [|wresp|e]; [done| |].
      * destruct (reloadable o).
        -- destruct (loadDependenciesThenSet_start _ _ _) as [c w2] eqn:Hst.
           injection Hstep as <-.
           destruct (start_spec _ _ _ _ _ _ reloadAll_dispatchAll Hst)
             as (agg & w3 & _ & _ & _ & _ & _ & ? & _ & ? & ? & _ & ? & _).
           cbn. by destruct (is_undefined wresp).
        -- injection Hstep as <-. cbn. by destruct (is_undefined wresp).
      * injection Hstep as <-. done.
    + destruct (cycles w !! c) as [cy|]; [|done].
      destruct (c_status cy) as [|[p|]]; [done| |].
      * destruct (state_of (heap w) p); [done| |]; injection Hstep as <-; done.
      * injection Hstep as <-. done.
Qed.

(** The mapping function is not called again while the recorded key stays
    that of the dependency values and no forced cycle ends. *)
Lemma same_attempt_step o w ev w' :
  same_attempt w ev = true -> step o w ev = Some w' ->
  loadedValuesString w = Some (key w) ->
  loadedValuesString w' = Some (key w') /\ loadCalls w' = loadCalls w /\
  (resumes_failed w ev = false -> currentLoadPromise w' = currentLoadPromise w).
Proof.
  intros Hok Hstep Hk.
  assert ((exists c, ev = ResumeCycle c) \/ (forall c, ev <> ResumeCycle c))
    as [[c ->]|Hnr'] by (destruct ev; eauto; right; done).
  - simpl in *. destruct (resume_cases _ _ _ _ Hstep)
      as (cy & Hc & Hst & [[e He]|(v & Hv & [[Hfo Hkk]|Hinvk])]).
    + rewrite (resume_rejected _ _ _ _ _ Hc Hst He) in Hstep.
      injection Hstep as <-. rewrite Hc, He. split_and!; done.
    + rewrite (resume_unchanged _ _ _ _ _ Hc Hst Hv Hfo Hkk) in Hstep.
      injection Hstep as <-. split_and!; done.
    + rewrite Hc in Hok. apply negb_true_iff in Hok.
      destruct Hinvk as [?|?]; congruence.
  - destruct (step_memo _ _ _ _ Hstep Hnr') as (Hclp & Hl & Hlc & Hst).
    assert (stores w' = stores w) as Hs.
    { apply Hst. intros i v ->. done. }
    unfold key_of in *. rewrite Hl, Hs. split_and!; done.
Qed.

Lemma same_attempt_run o evs : forall w w',
  run_where same_attempt o w evs = Some w' ->
  loadedValuesString w = Some (key w) ->
  loadedValuesString w' = Some (key w') /\ loadCalls w' = loadCalls w.
Proof.
  induction evs as [|ev rest IH]; intros w w'; simpl.
  - by intros [= <-].
  - destruct (same_attempt w ev) eqn:Hok; [|done].
    destruct (step o w ev) as [w1|] eqn:Hstep; [|done]. intros Hrun Hk.
    destruct (same_attempt_step _ _ _ _ Hok Hstep Hk) as (Hk1 & Hlc & _).
    destruct (IH _ _ Hrun Hk1) as [Hk' Hlc']. split; congruence.
Qed.

End FailureCache.

(** C10 fails as the spec has it: the mapping function fails for the
    tuple, then a dependency fails to load and its rejected join becomes
    current; the next load with the same tuple returns that join, not the
    rejected load chain. *)
Lemma failed_attempt_is_cached_fails :
  ~ failed_attempt_is_cached sample_stringify same_attempt
      (asyncDerived (One (loadable_store "parent")) false VUndefined)
      (One (loadable_store "parent")).
Proof.
  intros Hclaim.
  pose (o := asyncDerived (One (loadable_store "parent")) false VUndefined).
  pose (ss := One (loadable_store "parent")).
  assert (returned (world_after o ss (failed_once ++ parent_fails_then_loads
                                      ++ [ResumeCycle 2])) 2 = Some (Some 2))
    as Hret.
  { eapply (Hclaim failed_once (world_after o ss failed_once) 2 "mapping failed"
              parent_fails_then_loads
              (world_after o ss (failed_once ++ parent_fails_then_loads))
              2 {| c_parents := 6; c_force := false; c_status := AwaitParents |}
              (VArr [VStr "p"]));
      vm_compute; reflexivity. }
  vm_compute in Hret. discriminate Hret.
Qed.

Lemma anyLoadable_spec ss :
  anyLoadable ss = true <-> exists s, In s (getStoresArray ss) /\ has_load s = true.
Proof. unfold anyLoadable, isLoadable. apply existsb_exists. Qed.

Lemma anyReloadable_spec ss :
  anyReloadable ss = true <->
  exists s, In s (getStoresArray ss) /\ has_reload s = true.
Proof. unfold anyReloadable, isReloadable. apply existsb_exists. Qed.

(** C7 fails for the stand-alone [asyncDerived]: its object always has
    [reload]. *)
Lemma reload_only_when_reloadable_fails :
  ~ reload_only_when_reloadable Legacy.asyncDerived.
Proof. intros Hclaim. by specialize (Hclaim (Many []) VUndefined eq_refl). Qed.

(** C7, amended.  The object of asyncWritable, and of the asyncDerived and
    asyncReadable built on it, has [reload] exactly when the store is flagged
    reloadable or some dependency has [reload], and without it a call of
    [reload] is not possible; the stand-alone asyncDerived always has it.
    Where the object has [reload], the call starts a cycle over reloadAll
    that is forced exactly when the store is flagged reloadable: on a
    stand-alone store that is not, the cycle is unforced, and with the key of
    the present values recorded it ends without a call of the mapping
    function, on [currentLoadPromise]. *)
Theorem reload_exposure (JSON_stringify : list Value -> string)
    (ss : Stores) (flag : bool) (initial : Value) :
  (o_reload (asyncWritable ss flag initial) = true <->
   flag = true \/
   exists s, In s (getStoresArray ss) /\ has_reload s = true) /\
  o_reload (asyncDerived ss flag initial)
  = o_reload (asyncWritable ss flag initial) /\
  o_reload (asyncReadable initial flag) = flag /\
  reload_only_when_reloadable asyncWritable /\
  reload_only_when_reloadable asyncDerived /\
  (forall o w, step JSON_stringify o w CallReload = None <-> o_reload o = false) /\
  o_reload (Legacy.asyncDerived ss flag initial) = true /\
  (forall o w, o_reload o = true ->
     exists agg w1 w',
       reloadAll (stores w) w = (agg, w1) /\
       step JSON_stringify o w CallReload = Some w' /\
       cycles w' = cycles w ++ [{| c_parents := agg;
                                   c_force := reloadable o;
                                   c_status := AwaitParents |}] /\
       heap w' = heap w1 /\
       depCalls w' = depCalls w ++ reload_calls (getStoresArray (stores w)) /\
       loadCalls w' = loadCalls w /\ cell w' = cell w /\
       loadedValuesString w' = loadedValuesString w /\
       currentLoadPromise w' = currentLoadPromise w) /\
  reloadable (Legacy.asyncDerived ss false initial) = false /\
  (forall o w c cy v,
     cycles w !! c = Some cy -> c_status cy = AwaitParents ->
     c_force cy = false ->
     state_of (heap w) (c_parents cy) = Fulfilled v ->
     loadedValuesString w = Some (key_of JSON_stringify w) ->
     exists w',
       step JSON_stringify o w (ResumeCycle c) = Some w' /\
       returned w' c = Some (currentLoadPromise w) /\
       loadCalls w' = loadCalls w /\ cell w' = cell w /\ heap w' = heap w).
Proof.
  split_and!.
  - simpl. unfold hasReloadFunction. rewrite orb_true_iff, anyReloadable_spec. done.
  - done.
  - simpl. unfold hasReloadFunction. simpl. by rewrite orb_false_r.
  - intros ss0 ini Hany. simpl. unfold hasReloadFunction. by rewrite Hany.
  - intros ss0 ini Hany. simpl. unfold hasReloadFunction. by rewrite Hany.
  - intros o w. simpl. destruct (o_reload o); split; done.
  - done.
  - intros o w Hrel. simpl. rewrite Hrel.
    destruct (loadDependenciesThenSet_start reloadAll (reloadable o) w)
      as [c w'] eqn:Hst.
    destruct (start_spec _ _ _ _ _ _ reloadAll_dispatchAll Hst)
      as (agg & w1 & Hd & _ & Hcy & Hh & Hdc & _ & Hcell & Hk & Hclp & _ & Hlc & _).
    exists agg, w1, w'. rewrite reloadAll_dispatchAll. split_and!; try done.
    rewrite Hdc.
    by destruct (dispatchAll_frame _ _ _ _ _ Hd) as (_ & _ & elems & n & _ & ->).
  - done.
  - intros o w c cy v Hc Hst Hfo Hv Hk. eexists. split.
    + simpl. by eapply resume_unchanged.
    + split_and!; try done. by apply returned_return_from.
Qed.

Section Derived.

(** C9.  A derived store has [load] (resp. [reload]) exactly when a direct
    dependency has it, and so shows as loadable (reloadable) to the stores that
    derive from it; the function is [loadDependencies] over loadAll (resp.
    reloadAll) and the store's own dependencies: it changes nothing but the
    heap and the log of calls to the dependencies, and it comes to the value
    [get] reads from the store once the join is fulfilled, to the join's
    error when it is rejected. *)
Theorem derived_capabilities (ss : Stores) (thisStore : Store) :
  (is_Some (d_load (derived ss)) <->
   exists s, In s (getStoresArray ss) /\ has_load s = true) /\
  (is_Some (d_reload (derived ss)) <->
   exists s, In s (getStoresArray ss) /\ has_reload s = true) /\
  (forall f, d_load (derived ss) = Some f -> f = loadAll) /\
  (forall f, d_reload (derived ss) = Some f -> f = reloadAll) /\
  (forall v, has_load (derived_as_store (derived ss) v) = anyLoadable ss /\
             has_reload (derived_as_store (derived ss) v) = anyReloadable ss) /\
  (forall w,
     loadDependencies_start loadAll ss w = loadAll ss w /\
     loadDependencies_start reloadAll ss w = reloadAll ss w /\
     same_store_state w (snd (loadAll ss w)) /\
     same_store_state w (snd (reloadAll ss w))) /\
  (forall h awaited,
     (forall v, state_of h awaited = Fulfilled v ->
        loadDependencies_resume thisStore h awaited = Fulfilled (get thisStore)) /\
     (forall e, state_of h awaited = Rejected e ->
        loadDependencies_resume thisStore h awaited = Rejected e) /\
     (state_of h awaited = Pending ->
        loadDependencies_resume thisStore h awaited = Pending)).
Proof.
  split_and!.
  - rewrite <- anyLoadable_spec. simpl. destruct (anyLoadable ss); split;
      intros H; try done; by destruct H.
  - rewrite <- anyReloadable_spec. simpl. destruct (anyReloadable ss); split;
      intros H; try done; by destruct H.
  - simpl. intros f. destruct (anyLoadable ss); [|done]. by intros [= <-].
  - simpl. intros f. destruct (anyReloadable ss); [|done]. by intros [= <-].
  - intros v. simpl. by destruct (anyLoadable ss), (anyReloadable ss).
  - intros w. split_and!; [done|done| |].
    + destruct (loadAll ss w) as [agg w'] eqn:Hl. rewrite loadAll_dispatchAll in Hl.
      by destruct (dispatchAll_frame _ _ _ _ _ Hl) as [? _].
    + destruct (reloadAll ss w) as [agg w'] eqn:Hl.
      rewrite reloadAll_dispatchAll in Hl.
      by destruct (dispatchAll_frame _ _ _ _ _ Hl) as [? _].
  - intros h awaited. unfold loadDependencies_resume.
    split_and!; [intros v ->|intros e ->|intros ->]; done.
Qed.

End Derived.

Lemma loadAll_spec_witness :
  exists agg w' h,
    loadAll (Many [plain_store "A"; loadable_store "B"; reloadable_store "C"])
      (init_world (Many []) (asyncReadable VUndefined false)) = (agg, w') /\
    depCalls w' = [CLoad 1; CLoad 2] /\
    settles [(0, Fulfilled (VStr "B")); (1, Fulfilled (VStr "C"))] (heap w')
    = Some h /\
    state_of h agg = Fulfilled (VArr [VStr "A"; VStr "B"; VStr "C"]).
Proof.
  destruct (loadAll_spec
              (Many [plain_store "A"; loadable_store "B"; reloadable_store "C"])
              (init_world (Many []) (asyncReadable VUndefined false))
              heap_ok_nil)
    as (agg & w' & elems & Hl & _ & Hagg & _ & Hcalls & _ & _ & _ & _ & _ & Hall & _).
  vm_compute in Hl. injection Hl as <- <-.
  destruct Hagg as [st Hagg]. vm_compute in Hagg. injection Hagg as <- _.
  eexists _, _, _. split; [reflexivity|]. split; [exact Hcalls|].
  split; [vm_compute; reflexivity|].
  apply (Hall [(0, Fulfilled (VStr "B")); (1, Fulfilled (VStr "C"))]).
  - vm_compute. reflexivity.
  - repeat constructor.
Defined.

Lemma reloadAll_spec_witness :
  exists agg w' h,
    reloadAll (Many [plain_store "A"; loadable_store "B"; reloadable_store "C"])
      (init_world (Many []) (asyncReadable VUndefined false)) = (agg, w') /\
    depCalls w' = [CLoad 1; CReload 2] /\
    settles [(0, Fulfilled (VStr "B")); (1, Fulfilled (VStr "D"))] (heap w')
    = Some h /\
    state_of h agg = Fulfilled (VArr [VStr "A"; VStr "B"; VStr "D"]).
Proof.
  destruct (reloadAll_spec
              (Many [plain_store "A"; loadable_store "B"; reloadable_store "C"])
              (init_world (Many []) (asyncReadable VUndefined false))
              heap_ok_nil)
    as (agg & w' & elems & Hl & _ & Hagg & _ & Hcalls & _ & _ & _ & _ & _ & Hall & _).
  vm_compute in Hl. injection Hl as <- <-.
  destruct Hagg as [st Hagg]. vm_compute in Hagg. injection Hagg as <- _.
  eexists _, _, _. split; [reflexivity|]. split; [exact Hcalls|].
  split; [vm_compute; reflexivity|].
  apply (Hall [(0, Fulfilled (VStr "B")); (1, Fulfilled (VStr "D"))]).
  - vm_compute. reflexivity.
  - repeat constructor.
Defined.

Lemma reload_exposure_witness :
  o_reload (asyncReadable VUndefined false) = false /\
  o_reload (asyncDerived (One (reloadable_store "parent")) false VUndefined) = true /\
  exists w' w2,
    step sample_stringify (Legacy.asyncReadable VUndefined false)
      (world_after (Legacy.asyncReadable VUndefined false) (Many [])
         [CallLoad; ResumeCycle 0; Settle 1 (Fulfilled (VStr "first value"))])
      CallReload = Some w' /\
    step sample_stringify (Legacy.asyncReadable VUndefined false) w'
      (ResumeCycle 1) = Some w2 /\
    loadCalls w2 = [VArr []] /\
    cycle_result w2 1 = Fulfilled (VStr "first value").
Proof.
  split_and!.
  - destruct (reload_exposure sample_stringify (Many []) false VUndefined)
      as (_ & _ & Hreadable & _). exact Hreadable.
  - destruct (reload_exposure sample_stringify (One (reloadable_store "parent"))
                false VUndefined) as (Hwritable & Hderived & _).
    rewrite Hderived. apply Hwritable. right.
    exists (reloadable_store "parent"). split; [left; reflexivity | reflexivity].
  - destruct (reload_exposure sample_stringify (Many []) false VUndefined)
      as (_ & _ & _ & _ & _ & _ & _ & Hcall & _ & Hend).
    destruct (Hcall (Legacy.asyncReadable VUndefined false)
                (world_after (Legacy.asyncReadable VUndefined false) (Many [])
                   [CallLoad; ResumeCycle 0;
                    Settle 1 (Fulfilled (VStr "first value"))]))
      as (agg & w1 & w' & _ & Hstep & Hcy & Hh & _ & Hlc & _ & Hk & Hclp).
    { reflexivity. }
    exists w'.
    assert (w' = world_after (Legacy.asyncReadable VUndefined false) (Many [])
                   [CallLoad; ResumeCycle 0;
                    Settle 1 (Fulfilled (VStr "first value")); CallReload])
      as Hw'.
    { vm_compute in Hstep. injection Hstep as <-. vm_compute. reflexivity. }
    destruct (Hend (Legacy.asyncReadable VUndefined false) w' 1
                {| c_parents := 2; c_force := false; c_status := AwaitParents |}
                (VArr []))
      as (w2 & Hstep2 & Hret & Hlc2 & _ & Hh2).
    + rewrite Hw'. vm_compute. reflexivity.
    + reflexivity.
    + reflexivity.
    + rewrite Hw'. vm_compute. reflexivity.
    + rewrite Hw'. vm_compute. reflexivity.
    + exists w2. split; [exact Hstep|]. split; [exact Hstep2|].
      split.
      * rewrite Hlc2, Hw'. vm_compute. reflexivity.
      * rewrite Hw' in Hstep2. vm_compute in Hstep2. injection Hstep2 as <-.
        vm_compute. reflexivity.
Defined.

Lemma derived_capabilities_witness :
  is_Some (d_load (derived (Many [plain_store "A"; loadable_store "B"]))) /\
  loadDependencies_resume (plain_store "derived")
    [{| p_kind := All [Plain (VStr "A")]; p_state := Fulfilled (VArr [VStr "A"]) |}]
    0 = Fulfilled (VStr "derived").
Proof.
  destruct (derived_capabilities (Many [plain_store "A"; loadable_store "B"])
              (plain_store "derived")) as (Hload & _ & _ & _ & _ & _ & Hresume).
  split.
  - apply Hload. exists (loadable_store "B").
    split; [right; left; reflexivity | reflexivity].
  - destruct (Hresume
                [{| p_kind := All [Plain (VStr "A")];
                    p_state := Fulfilled (VArr [VStr "A"]) |}] 0) as (Hful & _).
    exact (Hful (VArr [VStr "A"]) eq_refl).
Defined.

(** * Further properties of the code *)

(** ** The dispatcher on stores without the method *)

Lemma map_stores_ext_in f g l : forall i w,
  (forall s, In s l -> forall j w0, f j s w0 = g j s w0) ->
  map_stores f i l w = map_stores g i l w.
Proof.
  induction l as [|s rest IH]; intros i w Hfg; [done|]. simpl.
  rewrite (Hfg s) by (by left). destruct (g i s w) as [a w1].
  rewrite IH; [done|]. intros s' Hs'. apply Hfg. by right.
Qed.

Lemma existsb_false_In {A} (f : A -> bool) (l : list A) :
  existsb f l = false -> forall x, In x l -> f x = false.
Proof.
  intros Hex x Hx. destruct (f x) eqn:Hf; [|done].
  assert (existsb f l = true) as Ht by (apply existsb_exists; eauto).
  congruence.
Qed.

Lemma map_stores_plain l : forall i w,
  (forall s, In s l -> has_load s = false) ->
  map_stores load_one i l w = (map (fun s => Plain (get s)) l, w).
Proof.
  induction l as [|s rest IH]; intros i w Hl; [done|]. simpl.
  unfold load_one at 1. rewrite (Hl s) by (by left).
  rewrite IH; [done|]. intros s' Hs'. apply Hl. by right.
Qed.

Lemma all_now_plain (h : Heap) (l : list Store) :
  all_now h (map (fun s => Plain (get s)) l) = Fulfilled (VArr (map get l)).
Proof.
  unfold all_now.
  assert (first_rejection h (map (fun s => Plain (get s)) l) = None) as ->
    by (induction l; done).
  assert (all_values h (map (fun s => Plain (get s)) l) = Some (map get l)) as ->;
    [|done].
  induction l as [|s rest IH]; [done|]. simpl. by rewrite IH.
Qed.

(** X1.  On stores none of which has [load], loadAll calls nothing and its
    promise is fulfilled from the start, with the values [get] reads, in
    input order. *)
Theorem loadAll_plain_immediate (ss : Stores) (w : World) :
  anyLoadable ss = false ->
  exists w',
    loadAll ss w = (length (heap w), w') /\
    heap w' = heap w ++ [{| p_kind := All (map (fun s => Plain (get s))
                                             (getStoresArray ss));
                            p_state := Fulfilled (VArr (map get (getStoresArray ss))) |}] /\
    state_of (heap w') (length (heap w))
    = Fulfilled (VArr (map get (getStoresArray ss))) /\
    depCalls w' = depCalls w.
Proof.
  intros Hany. unfold loadAll.
  rewrite map_stores_plain
    by (intros s Hs; apply (existsb_false_In isLoadable _ Hany s Hs)).
  unfold Promise_all, alloc. rewrite all_now_plain. eexists. split_and!; try done.
  unfold state_of. cbn [heap with_heap].
  by rewrite lookup_app_r, Nat.sub_diag by lia.
Qed.

(** X2.  On stores none of which has [reload], reloadAll is loadAll: the same
    calls, the same promise. *)
Theorem reloadAll_without_reload (ss : Stores) (w : World) :
  anyReloadable ss = false -> reloadAll ss w = loadAll ss w.
Proof.
  intros Hany. unfold reloadAll, loadAll.
  rewrite (map_stores_ext_in reload_one load_one); [done|].
  intros s Hs j w0. unfold reload_one, load_one.
  pose proof (existsb_false_In isReloadable _ Hany s Hs) as Hr.
  unfold isReloadable in Hr. by rewrite Hr.
Qed.

Section Cycles.

Variable JSON_stringify : list Value -> string.

Abbreviation resume := (loadDependenciesThenSet_resume JSON_stringify).
Abbreviation key := (key_of JSON_stringify).
Abbreviation step := (step JSON_stringify).
Abbreviation run := (run JSON_stringify).
Abbreviation run_where := (run_where JSON_stringify).

(** The world after a cycle has called the mapping function. *)
Lemma resume_invokes_fields w c cy v w' :
  cycles w !! c = Some cy -> c_status cy = AwaitParents ->
  state_of (heap w) (c_parents cy) = Fulfilled v ->
  c_force cy = true \/ loadedValuesString w <> Some (key w) ->
  resume c w = Some w' ->
  loadCalls w' = loadCalls w ++ [mapping_argument (stores w)] /\
  loadedValuesString w'
  = (if c_force cy then loadedValuesString w else Some (key w)) /\
  currentLoadPromise w' = Some (length (heap w)) /\
  heap w' = heap w ++ [{| p_kind := LoadChain; p_state := Pending |}] /\
  returned w' c = Some (Some (length (heap w))) /\
  cycles w' = <[c := {| c_parents := c_parents cy; c_force := c_force cy;
                        c_status := Returned (Some (length (heap w))) |}]> (cycles w) /\
  stores w' = stores w /\ cell w' = cell w /\ sets w' = sets w /\
  writeCalls w' = writeCalls w /\ depCalls w' = depCalls w.
Proof.
  intros Hc Hst Hv Hinv Hres.
  rewrite (resume_invokes _ _ _ _ _ Hc Hst Hv Hinv) in Hres. injection Hres as <-.
  cbn zeta. rewrite returned_return_from by (by destruct (c_force cy)).
  unfold return_from. destruct (c_force cy); cbn; split_and!; done.
Qed.

Lemma resume_stores c w w' : resume c w = Some w' -> stores w' = stores w.
Proof.
  intros Hres. destruct (resume_cases _ _ _ _ Hres)
    as (cy & Hc & Hst & [[e He]|(v & Hv & [[Hfo Hk]|Hinvk])]).
  - rewrite (resume_rejected _ _ _ _ _ Hc Hst He) in Hres. by injection Hres as <-.
  - rewrite (resume_unchanged _ _ _ _ _ Hc Hst Hv Hfo Hk) in Hres.
    by injection Hres as <-.
  - by destruct (resume_invokes_fields _ _ _ _ _ Hc Hst Hv Hinvk Hres)
      as (_ & _ & _ & _ & _ & _ & ? & _).
Qed.

(** X3.  A forced cycle whose dependencies have reloaded calls the mapping
    function whatever the recorded key, makes the new chain current and
    leaves the key alone.  So an unforced cycle that ends after it returns
    the chain of the reload without a further call when the key was the
    recorded one, and calls the mapping function once more when it was not. *)
Theorem forced_cycle_reloads (o : AsyncStore) (w : World) (c : nat) (cy : Cycle)
    (v : Value) :
  cycles w !! c = Some cy -> c_status cy = AwaitParents ->
  c_force cy = true ->
  state_of (heap w) (c_parents cy) = Fulfilled v ->
  exists w1,
    step o w (ResumeCycle c) = Some w1 /\
    loadCalls w1 = loadCalls w ++ [mapping_argument (stores w)] /\
    loadedValuesString w1 = loadedValuesString w /\
    currentLoadPromise w1 = Some (length (heap w)) /\
    heap w1 = heap w ++ [{| p_kind := LoadChain; p_state := Pending |}] /\
    returned w1 c = Some (Some (length (heap w))) /\
    forall c' cy' v',
      cycles w1 !! c' = Some cy' -> c_status cy' = AwaitParents ->
      c_force cy' = false ->
      state_of (heap w1) (c_parents cy') = Fulfilled v' ->
      exists w2,
        step o w1 (ResumeCycle c') = Some w2 /\
        if bool_decide (loadedValuesString w = Some (key w))
        then returned w2 c' = Some (Some (length (heap w))) /\
             loadCalls w2 = loadCalls w1
        else loadCalls w2 = loadCalls w1 ++ [mapping_argument (stores w)].
Proof.
  intros Hc Hst Hfo Hv.
  destruct (resume c w) as [w1|] eqn:Hres;
    [|by rewrite (resume_invokes _ _ _ _ _ Hc Hst Hv (or_introl Hfo)) in Hres].
  destruct (resume_invokes_fields _ _ _ _ _ Hc Hst Hv (or_introl Hfo) Hres)
    as (Hlc & Hk & Hclp & Hh & Hret & _ & Hss & _).
  rewrite Hfo in Hk. exists w1. split_and!; try done.
  intros c' cy' v' Hc' Hst' Hfo' Hv'. simpl.
  assert (key w1 = key w) as Hkey by (unfold key_of; by rewrite Hss).
  destruct (bool_decide (loadedValuesString w = Some (key w))) eqn:Hdec.
  - apply bool_decide_eq_true in Hdec.
    assert (loadedValuesString w1 = Some (key w1)) as Hk1 by congruence.
    rewrite (resume_unchanged _ _ _ _ _ Hc' Hst' Hv' Hfo' Hk1).
    eexists. split; [done|]. rewrite returned_return_from by done.
    by rewrite Hclp.
  - apply bool_decide_eq_false in Hdec.
    assert (loadedValuesString w1 <> Some (key w1)) as Hk1 by congruence.
    destruct (resume c' w1) as [w2|] eqn:Hres';
      [|by rewrite (resume_invokes _ _ _ _ _ Hc' Hst' Hv' (or_intror Hk1)) in Hres'].
    destruct (resume_invokes_fields _ _ _ _ _ Hc' Hst' Hv' (or_intror Hk1) Hres')
      as (Hlc' & _). exists w2. split; [done|]. by rewrite Hlc', Hss.
Qed.

(** A fulfilled join has no pending element. *)
Lemma join_fulfilled_elements (h : Heap) agg elems st v p :
  heap_ok h -> h !! agg = Some {| p_kind := All elems; p_state := st |} ->
  state_of h agg = Fulfilled v -> In (Prom p) elems ->
  exists x, state_of h p = Fulfilled x.
Proof.
  intros Hok Hagg Hv Hin.
  destruct (join_fulfilled _ _ _ _ _ Hok Hagg Hv) as (vs & _ & Hall).
  apply list_elem_of_In in Hin.
  destruct (proj1 (list_elem_of_lookup _ _) Hin) as [i Hi].
  destruct (Forall2_lookup_l _ _ _ _ _ Hall Hi) as (x & _ & Hx).
  by exists x.
Qed.

(** X4.  While the [load()] / [reload()] of some dependency is pending, the
    cycle that awaits it cannot call the mapping function: it can only end,
    without a call, because another dependency was rejected. *)
Theorem mapping_waits_for_dependencies (o : AsyncStore) (w : World) (c : nat)
    (cy : Cycle) (elems : list Awaitable) (st : Settlement) (p : nat) :
  world_ok w ->
  cycles w !! c = Some cy -> c_status cy = AwaitParents ->
  heap w !! c_parents cy = Some {| p_kind := All elems; p_state := st |} ->
  In (Prom p) elems -> state_of (heap w) p = Pending ->
  forall w', step o w (ResumeCycle c) = Some w' ->
    loadCalls w' = loadCalls w /\ cell w' = cell w /\
    exists e, state_of (heap w) (c_parents cy) = Rejected e /\
              cycle_result w' c = Rejected e.
Proof.
  intros [Hok _] Hc Hst Hagg Hin Hp w' Hres. simpl in Hres.
  destruct (resume_cases _ _ _ _ Hres)
    as (cy0 & Hc0 & _ & [[e He]|(v & Hv & _)]);
    rewrite Hc in Hc0; injection Hc0 as <-.
  - rewrite (resume_rejected _ _ _ _ _ Hc Hst He) in Hres. injection Hres as <-.
    split_and!; [done|done|]. exists e. split; [done|].
    unfold cycle_result, return_from. cbn [cycles with_cycles heap].
    rewrite list_lookup_insert_eq by (by eapply lookup_lt_Some). done.
  - destruct (join_fulfilled_elements _ _ _ _ _ _ Hok Hagg Hv Hin) as [x Hx].
    congruence.
Qed.

Lemma run_where_weaken (ok1 ok2 : World -> Event -> bool) o evs : forall w w',
  (forall w0 ev, ok1 w0 ev = true -> ok2 w0 ev = true) ->
  run_where ok1 o w evs = Some w' -> run_where ok2 o w evs = Some w'.
Proof.
  induction evs as [|ev rest IH]; intros w w' Himp; simpl; [done|].
  destruct (ok1 w ev) eqn:Hok; [|done]. rewrite (Himp _ _ Hok).
  destruct (step o w ev) as [w1|]; [|done]. by apply IH.
Qed.

Lemma unforced_resume_same_attempt w ev :
  unforced_resume w ev = true -> same_attempt w ev = true.
Proof.
  destruct ev; simpl; try done. by destruct (cycles w !! c).
Qed.

Lemma unforced_resume_run_stores o evs : forall w w',
  run_where unforced_resume o w evs = Some w' ->
  stores w' = stores w /\ cell w' = cell w.
Proof.
  induction evs as [|ev rest IH]; intros w w'; simpl.
  - by intros [= <-].
  - destruct (unforced_resume w ev) eqn:Hok; [|done].
    destruct ev as [| | | | | |c|]; try done. simpl.
    destruct (resume c w) as [w1|] eqn:Hres; [|done]. intros Hrun.
    destruct (IH _ _ Hrun) as [Hs Hcell].
    rewrite Hs, Hcell, (resume_stores _ _ _ Hres), (resume_cell _ _ _ _ Hres). done.
Qed.

(** X5.  However many unforced cycles end in a row, the mapping function is
    called at most once, and with the values the dependencies hold when the
    cycles end, not those they held when the cycles were started. *)
Theorem burst_of_cycles_calls_once (o : AsyncStore) (evs : list Event)
    (w w' : World) :
  run_where unforced_resume o w evs = Some w' ->
  stores w' = stores w /\ cell w' = cell w /\
  (loadCalls w' = loadCalls w \/
   loadCalls w' = loadCalls w ++ [mapping_argument (stores w)] /\
   loadedValuesString w' = Some (key w)).
Proof.
  intros Hrun. destruct (unforced_resume_run_stores _ _ _ _ Hrun) as [Hs Hcell].
  split_and!; [done|done|]. clear Hs Hcell. revert w Hrun.
  induction evs as [|ev rest IH]; intros w; simpl.
  - intros [= <-]. by left.
  - destruct (unforced_resume w ev) eqn:Hok; [|done].
    destruct ev as [| | | | | |c|]; try done. simpl in *.
    destruct (resume c w) as [w1|] eqn:Hres; [|done]. intros Hrun.
    assert (key w1 = key w) as Hkey
      by (unfold key_of; by rewrite (resume_stores _ _ _ Hres)).
    destruct (resume_cases _ _ _ _ Hres)
      as (cy & Hc & Hst & [[e He]|(v & Hv & [[Hfo Hk]|Hinvk])]).
    + rewrite (resume_rejected _ _ _ _ _ Hc Hst He) in Hres. injection Hres as <-.
      destruct (IH _ Hrun) as [Hl|[Hl Hk]]; [by left|right]. done.
    + rewrite (resume_unchanged _ _ _ _ _ Hc Hst Hv Hfo Hk) in Hres.
      injection Hres as <-. destruct (IH _ Hrun) as [Hl|[Hl Hk']]; [by left|right].
      done.
    + rewrite Hc in Hok. apply negb_true_iff in Hok.
      destruct (resume_invokes_fields _ _ _ _ _ Hc Hst Hv Hinvk Hres)
        as (Hlc & Hk & _). rewrite Hok in Hk.
      assert (loadedValuesString w1 = Some (key w1)) as Hk1 by congruence.
      destruct (same_attempt_run JSON_stringify o rest w1 w') as [Hk' Hl'];
        [|done|].
      { eapply run_where_weaken; [|exact Hrun].
        apply unforced_resume_same_attempt. }
      right. split; [congruence|].
      destruct (unforced_resume_run_stores _ _ _ _ Hrun) as [Hs _].
      unfold key_of in *. rewrite Hk'. by rewrite Hs, (resume_stores _ _ _ Hres).
Qed.

End Cycles.

Lemma heap_grows_length h h' : heap_grows h h' -> length h <= length h'.
Proof.
  intros [_ Hk]. destruct (decide (length h = 0)) as [->|Hne]; [lia|].
  assert (is_Some (h !! (length h - 1))) as [r Hr] by (apply lookup_lt_is_Some; lia).
  destruct (Hk _ _ Hr) as (r' & Hr' & _). apply lookup_lt_Some in Hr'. lia.
Qed.

Section Memo.

Variable JSON_stringify : list Value -> string.

Abbreviation resume := (loadDependenciesThenSet_resume JSON_stringify).
Abbreviation key := (key_of JSON_stringify).
Abbreviation step := (step JSON_stringify).
Abbreviation run := (run JSON_stringify).
Abbreviation readable_inv := (readable_inv JSON_stringify).

Lemma start_cycles ch f force w c w' :
  (forall ss w0, f ss w0 = dispatchAll ch ss w0) ->
  loadDependenciesThenSet_start f force w = (c, w') ->
  exists extra, cycles w' = cycles w ++ extra /\
                Forall (fun cy => c_status cy = AwaitParents) extra.
Proof.
  intros Hf Hst.
  destruct (start_spec _ _ _ _ _ _ Hf Hst) as (agg & w1 & _ & _ & Hcy & _).
  eexists. split; [exact Hcy|]. by repeat constructor.
Qed.

Ltac no_new_cycle :=
  exists []; rewrite app_nil_r; split; [done | constructor].

(** Only the end of a cycle changes a cycle; the other events add cycles
    that wait. *)
Lemma step_cycles o w ev w' :
  step o w ev = Some w' -> (forall c, ev <> ResumeCycle c) ->
  exists extra, cycles w' = cycles w ++ extra /\
                Forall (fun cy => c_status cy = AwaitParents) extra.
Proof.
  destruct ev as [i v| | | |v|p out|c|k]; simpl; intros Hstep Hnr.
  - injection Hstep as <-. no_new_cycle.
  - injection Hstep as <-.
    destruct (loadDependenciesThenSet_start loadAll false w) as [c w1] eqn:Hst.
    by eapply start_cycles; [apply loadAll_dispatchAll|].
  - destruct (o_load o); [|done]. injection Hstep as <-.
    destruct (loadDependenciesThenSet_start loadAll false w) as [c w1] eqn:Hst.
    by eapply start_cycles; [apply loadAll_dispatchAll|].
  - destruct (o_reload o); [|done]. injection Hstep as <-.
    destruct (loadDependenciesThenSet_start reloadAll _ w) as [c w1] eqn:Hst.
    by eapply start_cycles; [apply reloadAll_dispatchAll|].
  - destruct (o_set o); [|done]. injection Hstep as <-.
    unfold setStoreValueThenWrite_start.
    destruct (loadAll _ _) as [agg w2] eqn:Hl. rewrite loadAll_dispatchAll in Hl.
    destruct (dispatchAll_frame _ _ _ _ _ Hl) as ((_&_&_&_&Hcy&_) & _).
    cbn [cycles with_sets with_cell] in *. exists []. rewrite app_nil_r.
    split; [done | constructor].
  - unfold settle_in_world in Hstep. destruct (heap w !! p) as [r|]; [|done].
    destruct (settle p out (heap w)) as [h'|]; [|done].
    destruct (p_kind r), out; injection Hstep as <-; no_new_cycle.
  - by destruct (Hnr c).
  - unfold setStoreValueThenWrite_resume in Hstep.
    destruct (sets w !! k) as [sc|] eqn:Hk; [|done].
    destruct (set_stage sc) as [agg|wr|c| |e]; [| | |done|done].
    + destruct (state_of (heap w) agg); [done| |]; injection Hstep as <-;
        no_new_cycle.
    + destruct (state_of (heap w) wr) as [|wresp|e]; [done| |].
      * destruct (reloadable o).
        -- destruct (loadDependenciesThenSet_start _ _ _) as [c w2] eqn:Hst.
           injection Hstep as <-.
           destruct (start_cycles _ _ _ _ _ _ reloadAll_dispatchAll Hst)
             as (extra & Hcy & Hex).
           exists extra. split; [|done]. cbn [cycles set_stage_to with_sets].
           rewrite Hcy. by destruct (is_undefined wresp).
        -- injection Hstep as <-. cbn [cycles set_stage_to with_sets].
           destruct (is_undefined wresp); no_new_cycle.
      * injection Hstep as <-. no_new_cycle.
    + destruct (cycles w !! c) as [cy|]; [|done].
      destruct (c_status cy) as [|[p|]]; [done| |].
      * destruct (state_of (heap w) p); [done| |]; injection Hstep as <-;
          no_new_cycle.
      * injection Hstep as <-. no_new_cycle.
Qed.

Lemma memo_ok_grow w w' extra :
  memo_ok w -> heap_grows (heap w) (heap w') ->
  currentLoadPromise w' = currentLoadPromise w ->
  loadedValuesString w' = loadedValuesString w ->
  cycles w' = cycles w ++ extra ->
  Forall (fun cy => c_status cy = AwaitParents) extra ->
  memo_ok w'.
Proof.
  intros (Hk & Hp & Hr) Hg Hclp Hl Hcy Hex.
  apply heap_grows_length in Hg. unfold memo_ok. rewrite Hclp, Hl, Hcy.
  split_and!.
  - done.
  - intros p Hcur. specialize (Hp p Hcur). lia.
  - intros c cy r Hc Hst. apply lookup_app_Some in Hc as [Hc|[_ Hc]].
    + destruct (Hr c cy r Hc Hst) as (p & -> & Hlt). exists p. split; [done|lia].
    + rewrite Forall_lookup in Hex. specialize (Hex _ _ Hc). congruence.
Qed.

Lemma memo_ok_insert w c cy p cs (h : Heap) :
  cycles w !! c = Some cy -> p < length h -> length (heap w) <= length h ->
  (forall c0 cy0 r, cycles w !! c0 = Some cy0 -> c_status cy0 = Returned r ->
     exists q, r = Some q /\ q < length (heap w)) ->
  cs = <[c := {| c_parents := c_parents cy; c_force := c_force cy;
                 c_status := Returned (Some p) |}]> (cycles w) ->
  forall c0 cy0 r, cs !! c0 = Some cy0 -> c_status cy0 = Returned r ->
    exists q, r = Some q /\ q < length h.
Proof.
  intros Hc Hp Hle Hr -> c0 cy0 r Hc0 Hst.
  destruct (decide (c0 = c)) as [->|Hne].
  - rewrite list_lookup_insert_eq in Hc0 by (by eapply lookup_lt_Some).
    injection Hc0 as <-. simpl in Hst. injection Hst as <-. by exists p.
  - rewrite list_lookup_insert_ne in Hc0 by done.
    destruct (Hr _ _ _ Hc0 Hst) as (q & -> & Hq). exists q. split; [done|lia].
Qed.

Lemma memo_ok_resume c w w' :
  world_ok w -> memo_ok w -> resume c w = Some w' -> memo_ok w'.
Proof.
  intros [_ Hj] (Hk & Hp & Hr) Hres. destruct (resume_cases _ _ _ _ Hres)
    as (cy & Hc & Hst & [[e He]|(v & Hv & [[Hfo Hkk]|Hinvk])]).
  - rewrite (resume_rejected _ _ _ _ _ Hc Hst He) in Hres. injection Hres as <-.
    destruct (Hj c cy Hc) as (elems & st & Hagg). apply lookup_lt_Some in Hagg.
    unfold memo_ok. cbn. split_and!.
    + intros k _. by eexists.
    + by intros p [= <-].
    + by eapply (memo_ok_insert w c cy (c_parents cy)).
  - rewrite (resume_unchanged _ _ _ _ _ Hc Hst Hv Hfo Hkk) in Hres.
    injection Hres as <-. destruct (Hk _ Hkk) as [p Hcur].
    unfold memo_ok. cbn. split_and!; [done|done|].
    rewrite Hcur. eapply (memo_ok_insert w c cy p); eauto.
  - destruct (resume_invokes_fields _ _ _ _ _ _ Hc Hst Hv Hinvk Hres)
      as (_ & _ & Hclp & Hh & _ & Hcy & _).
    assert (length (heap w') = S (length (heap w))) as Hlen
      by (rewrite Hh, length_app; simpl; lia).
    unfold memo_ok. rewrite Hclp. split_and!.
    + intros k _. by eexists.
    + intros p [= <-]. lia.
    + eapply (memo_ok_insert w c cy (length (heap w))); eauto; lia.
Qed.

Lemma memo_ok_step o w ev w' :
  world_ok w -> memo_ok w -> step o w ev = Some w' -> memo_ok w'.
Proof.
  intros Hw Hm Hstep.
  assert ((exists c, ev = ResumeCycle c) \/ (forall c, ev <> ResumeCycle c))
    as [[c ->]|Hnr] by (destruct ev; eauto; right; done).
  - by eapply memo_ok_resume.
  - destruct (step_memo _ _ _ _ _ Hstep Hnr) as (Hclp & Hl & _).
    destruct (step_cycles _ _ _ _ Hstep Hnr) as (extra & Hcy & Hex).
    eapply memo_ok_grow; eauto. by eapply step_grows.
Qed.

Lemma memo_ok_run o evs : forall w w',
  world_ok w -> memo_ok w -> run o w evs = Some w' -> memo_ok w'.
Proof.
  induction evs as [|ev rest IH]; intros w w' Hw Hm; simpl.
  - by intros [= <-].
  - destruct (step o w ev) as [w1|] eqn:Hstep; [|done].
    apply IH; [by eapply world_ok_step | by eapply memo_ok_step].
Qed.

(** X6.  Whatever happens to a store: a recorded key comes with a current
    promise, so the cycle that finds its key recorded has a promise to return;
    every [load()] / [reload()] that has finished returned a promise of the
    heap, never [undefined]. *)
Theorem memo_points_at_promises (o : AsyncStore) (ss : Stores)
    (evs : list Event) (w : World) :
  run o (init_world ss o) evs = Some w ->
  (forall k, loadedValuesString w = Some k -> is_Some (currentLoadPromise w)) /\
  (forall p, currentLoadPromise w = Some p -> is_Some (heap w !! p)) /\
  (forall c r, returned w c = Some r ->
     exists p, r = Some p /\ is_Some (heap w !! p)).
Proof.
  intros Hrun.
  assert (memo_ok (init_world ss o)) as Hinit.
  { unfold memo_ok. simpl. split_and!; [done|done|]. intros c cy r Hc. done. }
  destruct (memo_ok_run _ _ _ _ (world_ok_init ss o) Hinit Hrun) as (Hk & Hp & Hr).
  split_and!; [done| |].
  - intros p Hcur. apply lookup_lt_is_Some. by apply Hp.
  - intros c r. unfold returned. destruct (cycles w !! c) as [cy|] eqn:Hc; [|done].
    destruct (c_status cy) as [|r0] eqn:Hst; [done|]. intros [= ->].
    destruct (Hr _ _ _ Hc Hst) as (p & -> & Hlt). exists p.
    split; [done|]. by apply lookup_lt_is_Some.
Qed.

Lemma resume_loadCalls c w w' :
  resume c w = Some w' ->
  loadCalls w' = loadCalls w \/
  loadCalls w' = loadCalls w ++ [mapping_argument (stores w)].
Proof.
  intros Hres. destruct (resume_cases _ _ _ _ Hres)
    as (cy & Hc & Hst & [[e He]|(v & Hv & [[Hfo Hk]|Hinvk])]).
  - rewrite (resume_rejected _ _ _ _ _ Hc Hst He) in Hres. injection Hres as <-.
    by left.
  - rewrite (resume_unchanged _ _ _ _ _ Hc Hst Hv Hfo Hk) in Hres.
    injection Hres as <-. by left.
  - right. by destruct (resume_invokes_fields _ _ _ _ _ _ Hc Hst Hv Hinvk Hres)
      as (? & _).
Qed.

Lemma readable_inv_step o w ev w' :
  reloadable o = false ->
  readable_inv o w -> step o w ev = Some w' -> readable_inv o w'.
Proof.
  intros Hrel (Hd & Hs & Hl) Hstep.
  assert (unforced_event o ev = true) as Hunf
    by (destruct ev; simpl; by rewrite ?Hrel).
  assert ((exists i v, ev = DepChanged i v) \/ (forall i v, ev <> DepChanged i v))
    as [(i & v & ->)|Hnd] by (destruct ev; eauto; right; done).
  - simpl in Hstep. injection Hstep as <-. rewrite Hs. simpl.
    split_and!; [|done|done]. eapply dedup_inv_frame; [exact Hd|done..|].
    by rewrite Hs.
  - pose proof (dedup_inv_step _ _ _ _ _ _ Hunf Hd Hstep) as Hd'.
    assert (dedup_inv JSON_stringify o 0 w') as Hd0.
    { destruct ev; try done. by destruct (Hnd i v). }
    split_and!; [done| |].
    + assert ((exists c, ev = ResumeCycle c) \/ (forall c, ev <> ResumeCycle c))
        as [[c ->]|Hnr] by (destruct ev; eauto; right; done).
      * by rewrite (resume_stores _ _ _ _ Hstep).
      * destruct (step_memo _ _ _ _ _ Hstep Hnr) as (_ & _ & _ & Hst).
        by rewrite Hst.
    + assert ((exists c, ev = ResumeCycle c) \/ (forall c, ev <> ResumeCycle c))
        as [[c ->]|Hnr] by (destruct ev; eauto; right; done).
      * destruct (resume_loadCalls _ _ _ Hstep) as [->| ->]; [done|].
        apply Forall_app. split; [done|]. rewrite Hs. by repeat constructor.
      * destruct (step_memo _ _ _ _ _ Hstep Hnr) as (_ & _ & -> & _). done.
Qed.

(** X7.  A store without dependencies that is not reloadable (asyncReadable
    by default) calls its load function at most once, on the empty list,
    whatever is called on it and in whatever order. *)
Theorem readable_loads_once (o : AsyncStore) (evs : list Event) (w : World) :
  reloadable o = false ->
  run o (init_world (Many []) o) evs = Some w ->
  length (loadCalls w) <= 1 /\ Forall (fun a => a = VArr []) (loadCalls w).
Proof.
  intros Hrel Hrun.
  assert (readable_inv o w) as (Hd & _ & Hl).
  { assert (readable_inv o (init_world (Many []) o)) as Hinit.
    { split_and!; [apply dedup_inv_init|done|constructor]. }
    revert Hinit Hrun. generalize (init_world (Many []) o). clear -Hrel.
    induction evs as [|ev rest IH]; intros w0 Hinv; simpl.
    - by intros [= <-].
    - destruct (step o w0 ev) as [w1|] eqn:Hstep; [|done].
      apply IH. by eapply readable_inv_step. }
  split; [|done]. destruct Hd as (_ & _ & Hlen).
  destruct (bool_decide _) in Hlen; lia.
Qed.

End Memo.

Section SetErrors.

Variable JSON_stringify : list Value -> string.

Abbreviation resume := (loadDependenciesThenSet_resume JSON_stringify).
Abbreviation step := (step JSON_stringify).

(** X8.  When a dependency fails to load while [set] awaits loadAll, [set]
    fails with that error and is over: the write mapping function is never
    called and the value [set] put in the cell stays. *)
Theorem set_fails_with_dependency (o : AsyncStore) (w : World) (k : nat)
    (v : Value) (agg : nat) (elems : list Awaitable) (p : nat) (e : Error)
    (w1 : World) :
  world_ok w ->
  sets w !! k = Some {| set_value := v; set_stage := SetAwaitParents agg |} ->
  heap w !! agg = Some {| p_kind := All elems; p_state := Pending |} ->
  In (Prom p) elems ->
  step o w (Settle p (Rejected e)) = Some w1 ->
  exists w2,
    step o w1 (ResumeSet k) = Some w2 /\
    sets w2 !! k = Some {| set_value := v; set_stage := SetFailed e |} /\
    writeCalls w2 = writeCalls w /\ loadCalls w2 = loadCalls w /\
    cell w2 = cell w /\ cycles w2 = cycles w /\
    step o w2 (ResumeSet k) = None.
Proof.
  intros [Hok _] Hk Hagg Hin Hstep.
  simpl in Hstep. unfold settle_in_world in Hstep.
  destruct (heap w !! p) as [r|] eqn:Hp; [|done].
  destruct (settle p (Rejected e) (heap w)) as [h'|] eqn:Hs; [|done].
  assert (w1 = with_heap h' w) as -> by (destruct (p_kind r); congruence).
  assert (state_of h' agg = Rejected e) as Hrej.
  { eapply settle_rejects_join; [exact Hok|exact Hagg|done|done|exact Hin|exact Hs]. }
  simpl. unfold setStoreValueThenWrite_resume. cbn [sets with_heap heap].
  rewrite Hk. cbn [set_stage set_value]. rewrite Hrej.
  eexists. split; [done|]. split_and!; try done.
  - by rewrite set_stage_to_lookup.
  - rewrite set_stage_to_lookup by done. done.
Qed.

(** X9.  On a reloadable store [set] ends with a forced cycle.  When the
    dependencies of that cycle have reloaded the mapping function is called;
    [set] stays pending until the new chain settles, succeeds with the
    reloaded value in the cell when the chain fulfils, and fails with the
    chain's error, the cell untouched, when it is rejected. *)
Theorem set_awaits_reload (o : AsyncStore) (w : World) (k : nat) (v : Value)
    (c : nat) (cy : Cycle) (x : Value) :
  sets w !! k = Some {| set_value := v; set_stage := SetAwaitReload c |} ->
  cycles w !! c = Some cy -> c_status cy = AwaitParents ->
  c_force cy = true ->
  step o w (ResumeSet k) = None /\
  (state_of (heap w) (c_parents cy) = Fulfilled x ->
   exists w1,
     step o w (ResumeCycle c) = Some w1 /\
     loadCalls w1 = loadCalls w ++ [mapping_argument (stores w)] /\
     step o w1 (ResumeSet k) = None /\
     (forall r, exists w2 w3,
        step o w1 (Settle (length (heap w)) (Fulfilled r)) = Some w2 /\
        cell w2 = r /\
        step o w2 (ResumeSet k) = Some w3 /\
        sets w3 !! k = Some {| set_value := v; set_stage := SetDone |} /\
        cell w3 = r) /\
     (forall e, exists w2 w3,
        step o w1 (Settle (length (heap w)) (Rejected e)) = Some w2 /\
        cell w2 = cell w /\
        step o w2 (ResumeSet k) = Some w3 /\
        sets w3 !! k = Some {| set_value := v; set_stage := SetFailed e |} /\
        cell w3 = cell w)).
Proof.
  intros Hk Hc Hst Hfo. split.
  { simpl. unfold setStoreValueThenWrite_resume. rewrite Hk. cbn [set_stage].
    by rewrite Hc, Hst. }
  intros Hv.
  destruct (resume c w) as [w1|] eqn:Hres;
    [|by rewrite (resume_invokes _ _ _ _ _ Hc Hst Hv (or_introl Hfo)) in Hres].
  destruct (resume_invokes_fields _ _ _ _ _ _ Hc Hst Hv (or_introl Hfo) Hres)
    as (Hlc & _ & _ & Hh & _ & Hcy & _ & Hcell & Hsets & _).
  set (m := length (heap w)) in *.
  assert (heap w1 !! m = Some {| p_kind := LoadChain; p_state := Pending |}) as Hm.
  { rewrite Hh. unfold m. by rewrite lookup_app_r, Nat.sub_diag by lia. }
  assert (cycles w1 !! c = Some {| c_parents := c_parents cy; c_force := c_force cy;
                                   c_status := Returned (Some m) |}) as Hc1.
  { rewrite Hcy. by rewrite list_lookup_insert_eq by (by eapply lookup_lt_Some). }
  exists w1. split_and!; [done|done| | |].
  - simpl. unfold setStoreValueThenWrite_resume. rewrite Hsets, Hk.
    cbn [set_stage]. rewrite Hc1. cbn [c_status]. unfold state_of. by rewrite Hm.
  - intros r.
    destruct (settle_chain_fulfilled w1 m _ r Hm eq_refl eq_refl) as (h' & Hs & Hw).
    exists (with_cell r (with_heap h' w1)). eexists. split; [exact Hw|].
    split; [done|]. simpl. unfold setStoreValueThenWrite_resume.
    cbn [sets cycles heap with_cell with_heap]. rewrite Hsets, Hk.
    cbn [set_stage set_value]. rewrite Hc1. cbn [c_status].
    rewrite (settle_state_self _ _ _ _ Hs). split; [done|].
    split; [|done]. rewrite set_stage_to_lookup; [done|].
    cbn [sets with_cell with_heap]. by rewrite Hsets.
  - intros e.
    assert (exists h', settle m (Rejected e) (heap w1) = Some h') as [h' Hs].
    { unfold settle. rewrite Hm. simpl. by eexists. }
    exists (with_heap h' w1). eexists. split.
    { simpl. unfold settle_in_world. rewrite Hm, Hs. done. }
    split; [done|]. simpl. unfold setStoreValueThenWrite_resume.
    cbn [sets cycles heap with_heap]. rewrite Hsets, Hk.
    cbn [set_stage set_value]. rewrite Hc1. cbn [c_status].
    rewrite (settle_state_self _ _ _ _ Hs). split; [done|].
    split; [|done]. rewrite set_stage_to_lookup; [done|].
    cbn [sets with_heap]. by rewrite Hsets.
Qed.

End SetErrors.

(** ** Capabilities along a graph of stores *)

Lemma existsb_map_ext {A B} (f : B -> bool) (g : A -> B) (h : A -> bool)
    (l : list A) :
  Forall (fun x => f (g x) = h x) l -> existsb f (map g l) = existsb h l.
Proof. induction 1 as [|x l Hx _ IH]; [done|]. simpl. by rewrite Hx, IH. Qed.

Lemma async_object_caps wr ss r i v :
  has_load (as_store (async_object wr ss r i) v) = true /\
  has_reload (as_store (async_object wr ss r i) v)
  = r || existsb has_reload (getStoresArray ss).
Proof. by destruct wr. Qed.

Lemma derived_caps ss v :
  has_load (derived_as_store (derived ss) v) = existsb has_load (getStoresArray ss) /\
  has_reload (derived_as_store (derived ss) v)
  = existsb has_reload (getStoresArray ss).
Proof.
  simpl. unfold anyLoadable, anyReloadable, isLoadable, isReloadable.
  by destruct (existsb has_load _), (existsb has_reload _).
Qed.

(** X10.  Through any graph of derived and async stores, a store has [load]
    exactly when it is async or derives, through derived stores, from a store
    that has [load]; it has [reload] exactly when it or one of its ancestors is
    an async store flagged reloadable or a store that has [reload]. *)
Theorem capabilities_follow_ancestry (t : StoreTree) :
  has_load (store_of t) = loadable_above t /\
  has_reload (store_of t) = reloadable_above t.
Proof.
  revert t. fix IH 1. intros [s|wr r i p|wr r i ps|p v|ps v].
  - split; reflexivity.
  - destruct (IH p) as [_ Hr].
    change (store_of (AsyncOne wr r i p))
      with (as_store (async_object wr (One (store_of p)) r i) i).
    destruct (async_object_caps wr (One (store_of p)) r i i) as [-> ->].
    simpl. rewrite Hr, orb_false_r. split; reflexivity.
  - assert (Forall (fun x => has_reload (store_of x) = reloadable_above x) ps) as Hps.
    { induction ps as [|x ps IHps]; constructor; [apply IH | apply IHps]. }
    change (store_of (AsyncMany wr r i ps))
      with (as_store (async_object wr (Many (map store_of ps)) r i) i).
    destruct (async_object_caps wr (Many (map store_of ps)) r i i) as [-> ->].
    cbn [getStoresArray reloadable_above loadable_above].
    rewrite (existsb_map_ext _ _ _ _ Hps). split; reflexivity.
  - destruct (IH p) as [Hl Hr].
    change (store_of (DerivedOne p v))
      with (derived_as_store (derived (One (store_of p))) v).
    destruct (derived_caps (One (store_of p)) v) as [-> ->].
    simpl. rewrite Hl, Hr, !orb_false_r. split; reflexivity.
  - assert (Forall (fun x => has_load (store_of x) = loadable_above x) ps) as Hl.
    { induction ps as [|x ps IHps]; constructor; [apply IH | apply IHps]. }
    assert (Forall (fun x => has_reload (store_of x) = reloadable_above x) ps) as Hr.
    { clear Hl. induction ps as [|x ps IHps]; constructor; [apply IH | apply IHps]. }
    change (store_of (DerivedMany ps v))
      with (derived_as_store (derived (Many (map store_of ps))) v).
    destruct (derived_caps (Many (map store_of ps)) v) as [-> ->].
    cbn [getStoresArray reloadable_above loadable_above].
    rewrite (existsb_map_ext _ _ _ _ Hl), (existsb_map_ext _ _ _ _ Hr).
    split; reflexivity.
Qed.

Section ReadOnly.

Variable JSON_stringify : list Value -> string.

Abbreviation resume := (loadDependenciesThenSet_resume JSON_stringify).
Abbreviation step := (step JSON_stringify).
Abbreviation run := (run JSON_stringify).

(** Without [set] in the object there is never a call of [set] under way. *)
Lemma no_set_step o w ev w' :
  o_set o = false -> sets w = [] -> step o w ev = Some w' -> sets w' = [].
Proof.
  intros Hset Hnil Hstep.
  assert ((exists c, ev = ResumeCycle c) \/ (forall c, ev <> ResumeCycle c))
    as [[c ->]|Hnr] by (destruct ev; eauto; right; done).
  - simpl in Hstep. destruct (resume_cases _ _ _ _ Hstep)
      as (cy & Hc & Hst & [[e He]|(v & Hv & [[Hfo Hk]|Hinvk])]).
    + rewrite (resume_rejected _ _ _ _ _ Hc Hst He) in Hstep.
      by injection Hstep as <-.
    + rewrite (resume_unchanged _ _ _ _ _ Hc Hst Hv Hfo Hk) in Hstep.
      by injection Hstep as <-.
    + destruct (resume_invokes_fields _ _ _ _ _ _ Hc Hst Hv Hinvk Hstep)
        as (_ & _ & _ & _ & _ & _ & _ & _ & Hs & _). congruence.
  - destruct ev as [i v| | | |v|p out|c|k]; simpl in Hstep.
    + by injection Hstep as <-.
    + injection Hstep as <-.
      destruct (loadDependenciesThenSet_start loadAll false w) as [c w1] eqn:Hst.
      destruct (start_spec _ _ _ _ _ _ loadAll_dispatchAll Hst)
        as (agg & w2 & _ & _ & _ & _ & _ & _ & _ & _ & _ & Hs & _).
      simpl. congruence.
    + destruct (o_load o); [|done]. injection Hstep as <-.
      destruct (loadDependenciesThenSet_start loadAll false w) as [c w1] eqn:Hst.
      destruct (start_spec _ _ _ _ _ _ loadAll_dispatchAll Hst)
        as (agg & w2 & _ & _ & _ & _ & _ & _ & _ & _ & _ & Hs & _).
      simpl. congruence.
    + destruct (o_reload o); [|done]. injection Hstep as <-.
      destruct (loadDependenciesThenSet_start reloadAll _ w) as [c w1] eqn:Hst.
      destruct (start_spec _ _ _ _ _ _ reloadAll_dispatchAll Hst)
        as (agg & w2 & _ & _ & _ & _ & _ & _ & _ & _ & _ & Hs & _).
      simpl. congruence.
    + by rewrite Hset in Hstep.
    + unfold settle_in_world in Hstep. destruct (heap w !! p) as [r|]; [|done].
      destruct (settle p out (heap w)) as [h'|]; [|done].
      destruct (p_kind r), out; injection Hstep as <-; done.
    + by destruct (Hnr c).
    + unfold setStoreValueThenWrite_resume in Hstep.
      by rewrite Hnil, lookup_nil in Hstep.
Qed.

Lemma cell_from_mapping_step o w ev w' :
  o_set o = false -> sets w = [] ->
  cell_from_mapping o w -> step o w ev = Some w' -> cell_from_mapping o w'.
Proof.
  intros Hset Hnil Hinv Hstep.
  destruct (step_cell_cases _ _ _ _ _ Hstep)
    as [Heq|[(p & r & v & -> & Hp & Hk & Hv)|[[v ->]|[k ->]]]].
  - destruct Hinv as [Hi|(p & r & Hp & Hk & Hs)]; [left; congruence|right].
    destruct (step_grows _ _ _ _ _ Hstep) as [Hle Hkind].
    destruct (Hkind p r Hp) as (r' & Hp' & Hk'). exists p, r'.
    split_and!; [done|congruence|].
    specialize (Hle p). unfold state_of in Hle. rewrite Hp, Hp', Hs in Hle.
    rewrite Heq. by apply Hle.
  - right. simpl in Hstep. unfold settle_in_world in Hstep. rewrite Hp in Hstep.
    destruct (settle p (Fulfilled v) (heap w)) as [h'|] eqn:Hs; [|done].
    rewrite Hk in Hstep. injection Hstep as <-. cbn [heap cell with_cell with_heap].
    pose proof (settle_state_self _ _ _ _ Hs) as Hst.
    destruct (heap_grows_settle _ _ _ _ Hs) as [_ Hkind].
    destruct (Hkind p r Hp) as (r' & Hp' & Hk').
    exists p, r'. split_and!; [done|congruence|].
    unfold state_of in Hst. by rewrite Hp' in Hst.
  - simpl in Hstep. by rewrite Hset in Hstep.
  - simpl in Hstep. unfold setStoreValueThenWrite_resume in Hstep.
    by rewrite Hnil, lookup_nil in Hstep.
Qed.

(** X12.  The value of a store without [set] (asyncDerived, asyncReadable) is
    at any time its initial value or a value one of its mapping computations
    has resolved to: nothing else is ever published, and [set] cannot be
    called on it. *)
Theorem async_derived_value_origin (o : AsyncStore) (ss : Stores)
    (evs : list Event) (w : World) :
  o_set o = false ->
  run o (init_world ss o) evs = Some w ->
  (cell w = initial o \/
   exists p, heap w !! p = Some {| p_kind := LoadChain;
                                   p_state := Fulfilled (cell w) |}) /\
  sets w = [] /\ writeCalls w = [] /\
  forall v, step o w (CallSet v) = None.
Proof.
  intros Hset Hrun.
  assert (cell_from_mapping o w /\ sets w = [] /\ writeCalls w = [])
    as (Hinv & Hnil & Hwc).
  { assert (cell_from_mapping o (init_world ss o) /\
            sets (init_world ss o) = [] /\ writeCalls (init_world ss o) = [])
      as Hinit by (split_and!; [by left|done|done]).
    revert Hinit Hrun. generalize (init_world ss o). clear -Hset.
    induction evs as [|ev rest IH]; intros w0 (Hc & Hs & Hwc); simpl.
    - by intros [= <-].
    - destruct (step o w0 ev) as [w1|] eqn:Hstep; [|done].
      apply IH. split_and!.
      + by eapply cell_from_mapping_step.
      + by eapply no_set_step.
      + rewrite <- Hwc. clear IH Hc.
        destruct ev as [i v| | | |v|p out|c|k]; simpl in Hstep.
        * by injection Hstep as <-.
        * injection Hstep as <-.
          destruct (loadDependenciesThenSet_start loadAll false w0)
            as [c w1'] eqn:Hst.
          by destruct (start_spec _ _ _ _ _ _ loadAll_dispatchAll Hst)
            as (agg & w2 & _ & _ & _ & _ & _ & _ & _ & _ & _ & _ & _ & ?).
        * destruct (o_load o); [|done]. injection Hstep as <-.
          destruct (loadDependenciesThenSet_start loadAll false w0)
            as [c w1'] eqn:Hst.
          by destruct (start_spec _ _ _ _ _ _ loadAll_dispatchAll Hst)
            as (agg & w2 & _ & _ & _ & _ & _ & _ & _ & _ & _ & _ & _ & ?).
        * destruct (o_reload o); [|done]. injection Hstep as <-.
          destruct (loadDependenciesThenSet_start reloadAll _ w0)
            as [c w1'] eqn:Hst.
          by destruct (start_spec _ _ _ _ _ _ reloadAll_dispatchAll Hst)
            as (agg & w2 & _ & _ & _ & _ & _ & _ & _ & _ & _ & _ & _ & ?).
        * by rewrite Hset in Hstep.
        * unfold settle_in_world in Hstep.
          destruct (heap w0 !! p) as [r|]; [|done].
          destruct (settle p out (heap w0)) as [h'|]; [|done].
          destruct (p_kind r), out; injection Hstep as <-; done.
        * destruct (resume_cases _ _ _ _ Hstep)
            as (cy & Hc & Hst & [[e He]|(v & Hv & [[Hfo Hk]|Hinvk])]).
          -- rewrite (resume_rejected _ _ _ _ _ Hc Hst He) in Hstep.
             by injection Hstep as <-.
          -- rewrite (resume_unchanged _ _ _ _ _ Hc Hst Hv Hfo Hk) in Hstep.
             by injection Hstep as <-.
          -- by destruct (resume_invokes_fields _ _ _ _ _ _ Hc Hst Hv Hinvk Hstep)
               as (_ & _ & _ & _ & _ & _ & _ & _ & _ & ? & _).
        * unfold setStoreValueThenWrite_resume in Hstep.
          by rewrite Hs, lookup_nil in Hstep. }
  split_and!; [|done|done|].
  - destruct Hinv as [?|(p & [k st] & Hp & Hk & Hs)]; [by left|right].
    simpl in *. subst. by exists p.
  - intros v. simpl. by rewrite Hset.
Qed.

End ReadOnly.

(** ** The lint rule *)

Module EslintFacts.
Import Eslint.

Lemma handler_cases (n : ImportNode) :
  (from_svelte n = false /\ ImportDeclaration n = []) \/
  (from_svelte n = true /\
   exists r, ImportDeclaration n = [r] /\ node r = n /\
             value (source (apply_fix r)) = "svelte-fancy-stores" /\
             specifiers (apply_fix r) = specifiers n).
Proof.
  unfold from_svelte, ImportDeclaration.
  destruct (decide (value (source n) = "svelte/store")) as [Heq|Hne].
  - right. rewrite bool_decide_eq_true_2 by done.
    rewrite bool_decide_eq_false_2 by (by intros ?). split; [done|].
    eexists. split_and!; reflexivity.
  - left. rewrite bool_decide_eq_false_2 by done.
    by rewrite bool_decide_eq_true_2 by done.
Qed.

Lemma fixed_node_clean (n : ImportNode) :
  ImportDeclaration (match ImportDeclaration n with
                     | r :: _ => apply_fix r
                     | [] => n
                     end) = [].
Proof.
  destruct (handler_cases n) as [[_ Hn]|[_ (r & Hr & _ & Hv & _)]].
  - by rewrite Hn, Hn.
  - rewrite Hr. unfold ImportDeclaration at 1. rewrite Hv. reflexivity.
Qed.

(** X11.  The rule reports exactly the imports from svelte/store, one report
    each; one pass of its fixes leaves a file the rule has nothing to report
    on, with as many imports, those from other modules untouched and those
    from svelte/store now from svelte-fancy-stores with the same specifiers. *)
Theorem fix_pass_converges (file : list ImportNode) :
  length (lint file) = count_from_svelte file /\
  lint (fix_pass file) = [] /\
  length (fix_pass file) = length file /\
  (forall i n, file !! i = Some n ->
     exists n', fix_pass file !! i = Some n' /\
                specifiers n' = specifiers n /\
                (if from_svelte n
                 then value (source n') = "svelte-fancy-stores"
                 else n' = n)).
Proof.
  split_and!.
  - unfold lint. induction file as [|n rest IH]; [done|]. simpl.
    rewrite length_app, IH.
    by destruct (handler_cases n) as [[-> ->]|[-> (r & -> & _)]].
  - unfold lint, fix_pass. induction file as [|n rest IH]; [done|]. simpl.
    by rewrite fixed_node_clean, IH.
  - unfold fix_pass. by rewrite length_map.
  - intros i n Hi. unfold fix_pass. rewrite list_lookup_fmap, Hi. simpl.
    eexists. split; [done|].
    destruct (handler_cases n) as [[Hf ->]|[Hf (r & -> & _ & Hv & Hs)]];
      rewrite Hf; done.
Qed.

End EslintFacts.

(** ** The properties on examples *)

Lemma loadAll_plain_immediate_witness :
  exists w',
    loadAll (Many [plain_store "A"; plain_store "B"])
      (init_world (Many []) (asyncReadable VUndefined false)) = (0, w') /\
    state_of (heap w') 0 = Fulfilled (VArr [VStr "A"; VStr "B"]).
Proof.
  destruct (loadAll_plain_immediate (Many [plain_store "A"; plain_store "B"])
              (init_world (Many []) (asyncReadable VUndefined false)) eq_refl)
    as (w' & Hl & _ & Hst & _).
  exists w'. split; [exact Hl | exact Hst].
Defined.

Lemma reloadAll_without_reload_witness :
  reloadAll (Many [plain_store "A"; loadable_store "B"])
    (init_world (Many []) (asyncReadable VUndefined false))
  = loadAll (Many [plain_store "A"; loadable_store "B"])
      (init_world (Many []) (asyncReadable VUndefined false)).
Proof.
  exact (reloadAll_without_reload (Many [plain_store "A"; loadable_store "B"])
           (init_world (Many []) (asyncReadable VUndefined false)) eq_refl).
Defined.

Lemma forced_cycle_reloads_witness :
  exists w1,
    step sample_stringify (asyncReadable VUndefined true)
      (world_after (asyncReadable VUndefined true) (Many [])
         [CallLoad; ResumeCycle 0; CallReload])
      (ResumeCycle 1) = Some w1 /\
    loadCalls w1 = [VArr []; VArr []].
Proof.
  destruct (forced_cycle_reloads sample_stringify (asyncReadable VUndefined true)
              (world_after (asyncReadable VUndefined true) (Many [])
                 [CallLoad; ResumeCycle 0; CallReload])
              1 {| c_parents := 2; c_force := true; c_status := AwaitParents |}
              (VArr []))
    as (w1 & Hstep & Hcalls & _).
  - vm_compute. reflexivity.
  - vm_compute. reflexivity.
  - vm_compute. reflexivity.
  - vm_compute. reflexivity.
  - exists w1. split; [exact Hstep | exact Hcalls].
Defined.

Lemma mapping_waits_for_dependencies_witness :
  loadCalls
    (world_after
       (asyncDerived (Many [loadable_store "A"; loadable_store "B"]) false VUndefined)
       (Many [loadable_store "A"; loadable_store "B"])
       [CallLoad; Settle 1 (Rejected "error"); ResumeCycle 0]) = [].
Proof.
  pose (o := asyncDerived (Many [loadable_store "A"; loadable_store "B"])
               false VUndefined).
  pose (ss := Many [loadable_store "A"; loadable_store "B"]).
  destruct (mapping_waits_for_dependencies sample_stringify o
              (world_after o ss [CallLoad; Settle 1 (Rejected "error")])
              0 {| c_parents := 2; c_force := false; c_status := AwaitParents |}
              [Prom 0; Prom 1] (Rejected "error") 0)
    with (w' := world_after o ss
                  [CallLoad; Settle 1 (Rejected "error"); ResumeCycle 0])
    as (Hcalls & _).
  - apply (world_ok_reachable sample_stringify o ss
             [CallLoad; Settle 1 (Rejected "error")]).
    vm_compute. reflexivity.
  - vm_compute. reflexivity.
  - vm_compute. reflexivity.
  - vm_compute. reflexivity.
  - left. reflexivity.
  - vm_compute. reflexivity.
  - vm_compute. reflexivity.
  - exact Hcalls.
Defined.

Lemma burst_of_cycles_calls_once_witness :
  cell (world_after (asyncDerived (One (plain_store "A")) false VUndefined)
          (One (plain_store "A"))
          [CallLoad; Notify; DepChanged 0 (VStr "L"); Notify;
           ResumeCycle 0; ResumeCycle 1; ResumeCycle 2])
  = cell (world_after (asyncDerived (One (plain_store "A")) false VUndefined)
            (One (plain_store "A"))
            [CallLoad; Notify; DepChanged 0 (VStr "L"); Notify]).
Proof.
  destruct (burst_of_cycles_calls_once sample_stringify
              (asyncDerived (One (plain_store "A")) false VUndefined)
              [ResumeCycle 0; ResumeCycle 1; ResumeCycle 2]
              (world_after (asyncDerived (One (plain_store "A")) false VUndefined)
                 (One (plain_store "A"))
                 [CallLoad; Notify; DepChanged 0 (VStr "L"); Notify])
              (world_after (asyncDerived (One (plain_store "A")) false VUndefined)
                 (One (plain_store "A"))
                 [CallLoad; Notify; DepChanged 0 (VStr "L"); Notify;
                  ResumeCycle 0; ResumeCycle 1; ResumeCycle 2]))
    as (_ & Hcell & _).
  - vm_compute. reflexivity.
  - exact Hcell.
Defined.

Lemma memo_points_at_promises_witness :
  is_Some (currentLoadPromise
             (world_after (asyncReadable VUndefined false) (Many [])
                [CallLoad; ResumeCycle 0])).
Proof.
  destruct (memo_points_at_promises sample_stringify
              (asyncReadable VUndefined false) (Many [])
              [CallLoad; ResumeCycle 0]
              (world_after (asyncReadable VUndefined false) (Many [])
                 [CallLoad; ResumeCycle 0])) as (Hkey & _).
  - vm_compute. reflexivity.
  - apply (Hkey "[]"). vm_compute. reflexivity.
Defined.

Lemma readable_loads_once_witness :
  length (loadCalls
            (world_after (Legacy.asyncReadable VUndefined false) (Many [])
               [CallLoad; ResumeCycle 0; CallReload; ResumeCycle 1])) <= 1.
Proof.
  destruct (readable_loads_once sample_stringify
              (Legacy.asyncReadable VUndefined false)
              [CallLoad; ResumeCycle 0; CallReload; ResumeCycle 1]
              (world_after (Legacy.asyncReadable VUndefined false) (Many [])
                 [CallLoad; ResumeCycle 0; CallReload; ResumeCycle 1])
              eq_refl) as [Hlen _].
  - vm_compute. reflexivity.
  - exact Hlen.
Defined.

Lemma set_fails_with_dependency_witness :
  exists w2,
    step sample_stringify
      (asyncWritable (One (loadable_store "parent")) false VUndefined)
      (world_after (asyncWritable (One (loadable_store "parent")) false VUndefined)
         (One (loadable_store "parent"))
         [CallSet (VStr "new"); Settle 0 (Rejected "error")])
      (ResumeSet 0) = Some w2 /\
    writeCalls w2 = [] /\ cell w2 = VStr "new".
Proof.
  pose (o := asyncWritable (One (loadable_store "parent")) false VUndefined).
  pose (ss := One (loadable_store "parent")).
  destruct (set_fails_with_dependency sample_stringify o
              (world_after o ss [CallSet (VStr "new")]) 0 (VStr "new") 1
              [Prom 0] 0 "error"
              (world_after o ss [CallSet (VStr "new"); Settle 0 (Rejected "error")]))
    as (w2 & Hstep & _ & Hwrite & _ & Hcell & _).
  - apply (world_ok_reachable sample_stringify o ss [CallSet (VStr "new")]).
    vm_compute. reflexivity.
  - vm_compute. reflexivity.
  - vm_compute. reflexivity.
  - left. reflexivity.
  - vm_compute. reflexivity.
  - exists w2. split; [exact Hstep|]. split; [exact Hwrite | exact Hcell].
Defined.

Lemma set_awaits_reload_witness :
  step sample_stringify (asyncWritable (Many []) true VUndefined)
    (world_after (asyncWritable (Many []) true VUndefined) (Many [])
       [CallSet (VStr "new"); ResumeSet 0; Settle 1 (Fulfilled VUndefined);
        ResumeSet 0])
    (ResumeSet 0) = None.
Proof.
  destruct (set_awaits_reload sample_stringify
              (asyncWritable (Many []) true VUndefined)
              (world_after (asyncWritable (Many []) true VUndefined) (Many [])
                 [CallSet (VStr "new"); ResumeSet 0;
                  Settle 1 (Fulfilled VUndefined); ResumeSet 0])
              0 (VStr "new") 0
              {| c_parents := 2; c_force := true; c_status := AwaitParents |}
              (VArr []))
    as [Hwait _].
  - vm_compute. reflexivity.
  - vm_compute. reflexivity.
  - vm_compute. reflexivity.
  - vm_compute. reflexivity.
  - exact Hwait.
Defined.

Lemma capabilities_follow_ancestry_witness :
  has_reload
    (store_of (DerivedOne
                 (AsyncMany false false VUndefined
                    [Leaf (plain_store "A");
                     AsyncMany false true VUndefined []])
                 VUndefined)) = true.
Proof.
  destruct (capabilities_follow_ancestry
              (DerivedOne
                 (AsyncMany false false VUndefined
                    [Leaf (plain_store "A");
                     AsyncMany false true VUndefined []])
                 VUndefined)) as [_ Hr].
  rewrite Hr. reflexivity.
Defined.

Lemma fix_pass_converges_witness :
  Eslint.lint
    (Eslint.fix_pass
       [{| Eslint.specifiers := ["writable"];
           Eslint.source := {| Eslint.value := "svelte/store";
                               Eslint.raw := "'svelte/store'" |} |}]) = [].
Proof.
  destruct (EslintFacts.fix_pass_converges
              [{| Eslint.specifiers := ["writable"];
                  Eslint.source := {| Eslint.value := "svelte/store";
                                      Eslint.raw := "'svelte/store'" |} |}])
    as (_ & Hclean & _).
  exact Hclean.
Defined.

Lemma async_derived_value_origin_witness :
  sets (world_after (asyncReadable (VStr "initial") false) (Many [])
          [CallLoad; ResumeCycle 0; Settle 1 (Fulfilled (VStr "loaded"))]) = [].
Proof.
  destruct (async_derived_value_origin sample_stringify
              (asyncReadable (VStr "initial") false) (Many [])
              [CallLoad; ResumeCycle 0; Settle 1 (Fulfilled (VStr "loaded"))]
              (world_after (asyncReadable (VStr "initial") false) (Many [])
                 [CallLoad; ResumeCycle 0; Settle 1 (Fulfilled (VStr "loaded"))]))
    as (_ & Hsets & _).
  - reflexivity.
  - vm_compute. reflexivity.
  - exact Hsets.
Defined.

(** * The memo, the write path and the cell after a failed load *)

(** ** The count of the calls of the mapping function *)

Section MemoCount.

Variable JSON_stringify : list Value -> string.

Abbreviation resume := (loadDependenciesThenSet_resume JSON_stringify).
Abbreviation key := (key_of JSON_stringify).
Abbreviation step := (step JSON_stringify).
Abbreviation run := (run JSON_stringify).

Lemma calls_due_step o w ev w' :
  step o w ev = Some w' ->
  calls_due JSON_stringify w'
  <= calls_due JSON_stringify w + count_changes [ev]
     + (if forced_resume w ev then 1 else 0).
Proof.
  intros Hstep. unfold calls_due.
  assert ((exists c, ev = ResumeCycle c) \/ (forall c, ev <> ResumeCycle c))
    as [[c ->]|Hnr] by (destruct ev; eauto; right; done).
  - simpl in *. destruct (resume_cases _ _ _ _ Hstep)
      as (cy & Hc & Hst & [[e He]|(v & Hv & [[Hfo Hk]|Hinvk])]).
    + rewrite (resume_rejected _ _ _ _ _ Hc Hst He) in Hstep.
      injection Hstep as <-. unfold key_of. cbn. lia.
    + rewrite (resume_unchanged _ _ _ _ _ Hc Hst Hv Hfo Hk) in Hstep.
      injection Hstep as <-. unfold key_of. cbn. lia.
    + destruct (resume_invokes_fields _ _ _ _ _ _ Hc Hst Hv Hinvk Hstep)
        as (Hlc & Hkey & _ & _ & _ & _ & Hss & _).
      assert (key w' = key w) as Hkw by (unfold key_of; by rewrite Hss).
      rewrite Hc, Hv, Hlc, length_app, Hkey, Hkw. simpl.
      destruct (c_force cy) eqn:Hfo.
      * lia.
      * destruct Hinvk as [|Hne]; [done|].
        rewrite bool_decide_eq_true_2 by done.
        rewrite bool_decide_eq_false_2 by done. lia.
  - destruct (step_memo _ _ _ _ _ Hstep Hnr) as (_ & Hl & Hlc & Hst).
    rewrite Hl, Hlc.
    assert ((exists i v, ev = DepChanged i v) \/ (forall i v, ev <> DepChanged i v))
      as [(i & v & ->)|Hnd] by (destruct ev; eauto; right; done).
    + simpl. destruct (bool_decide _), (bool_decide _); lia.
    + unfold key_of. rewrite (Hst Hnd).
      assert (forced_resume w ev = false) as ->
        by (destruct ev as [| | | | | |c|]; try done; by destruct (Hnr c)).
      lia.
Qed.

Lemma calls_due_run o evs : forall w w',
  run o w evs = Some w' ->
  calls_due JSON_stringify w'
  <= calls_due JSON_stringify w + count_changes evs
     + count_forced_ends JSON_stringify o w evs.
Proof.
  induction evs as [|ev rest IH]; intros w w' Hrun; simpl in Hrun.
  - injection Hrun as <-. simpl. lia.
  - destruct (step o w ev) as [w1|] eqn:Hstep; [|done].
    pose proof (calls_due_step _ _ _ _ Hstep) as H1.
    pose proof (IH _ _ Hrun) as H2.
    assert (count_changes (ev :: rest) = count_changes [ev] + count_changes rest)
      as Hcc by (by destruct ev).
    rewrite Hcc. cbn [count_forced_ends]. rewrite Hstep. lia.
Qed.

Lemma quiet_step o w ev w' :
  step o w ev = Some w' ->
  count_changes [ev] = 0 -> forced_resume w ev = false ->
  loadedValuesString w = Some (key w) ->
  loadedValuesString w' = Some (key w') /\ loadCalls w' = loadCalls w.
Proof.
  intros Hstep Hnc Hnf Hk.
  assert ((exists c, ev = ResumeCycle c) \/ (forall c, ev <> ResumeCycle c))
    as [[c ->]|Hnr] by (destruct ev; eauto; right; done).
  - simpl in *. destruct (resume_cases _ _ _ _ Hstep)
      as (cy & Hc & Hst & [[e He]|(v & Hv & [[Hfo Hkk]|Hinvk])]).
    + rewrite (resume_rejected _ _ _ _ _ Hc Hst He) in Hstep.
      by injection Hstep as <-.
    + rewrite (resume_unchanged _ _ _ _ _ Hc Hst Hv Hfo Hkk) in Hstep.
      by injection Hstep as <-.
    + rewrite Hc, Hv in Hnf. destruct Hinvk as [?|?]; congruence.
  - destruct (step_memo _ _ _ _ _ Hstep Hnr) as (_ & Hl & Hlc & Hst).
    assert (stores w' = stores w) as Hs.
    { apply Hst. intros i v ->. done. }
    unfold key_of in *. rewrite Hl, Hs. done.
Qed.

Lemma quiet_run o evs : forall w w',
  run o w evs = Some w' ->
  count_changes evs = 0 -> count_forced_ends JSON_stringify o w evs = 0 ->
  loadedValuesString w = Some (key w) ->
  loadedValuesString w' = Some (key w') /\ loadCalls w' = loadCalls w.
Proof.
  induction evs as [|ev rest IH]; intros w w'; simpl.
  - by intros [= <-].
  - destruct (step o w ev) as [w1|] eqn:Hstep; [|done]. intros Hrun Hnc Hnf Hk.
    assert (count_changes [ev] = 0 /\ count_changes rest = 0) as [Hc1 Hc2].
    { destruct ev; simpl in *; done. }
    assert (forced_resume w ev = false) as Hf by (destruct (forced_resume w ev); [lia|done]).
    rewrite Hf in Hnf. simpl in Hnf.
    destruct (quiet_step _ _ _ _ Hstep Hc1 Hf Hk) as [Hk1 Hlc].
    destruct (IH _ _ Hrun Hc2 Hnf Hk1) as [? ?]. split; congruence.
Qed.

(** C1, amended.  An unforced cycle whose dependency values serialize to the
    recorded key returns [currentLoadPromise] as it is, allocates no promise,
    calls no mapping function and publishes nothing.  A forced cycle calls
    the mapping function and leaves the key as it is.  Hence, from any state
    and over any events, the calls of the mapping function grow by at most
    the number of changes of the dependency values, plus the number of forced
    cycles that end with their dependencies reloaded, plus one when the
    recorded key is not that of the present values; with that key recorded,
    no change and no such forced cycle, there is no call at all. *)
Theorem dedup_guarantee (o : AsyncStore) :
  (forall w c cy v,
     cycles w !! c = Some cy -> c_status cy = AwaitParents ->
     c_force cy = false ->
     state_of (heap w) (c_parents cy) = Fulfilled v ->
     loadedValuesString w = Some (key w) ->
     exists w',
       step o w (ResumeCycle c) = Some w' /\
       returned w' c = Some (currentLoadPromise w) /\
       currentLoadPromise w' = currentLoadPromise w /\
       loadedValuesString w' = loadedValuesString w /\
       heap w' = heap w /\ cell w' = cell w /\
       loadCalls w' = loadCalls w /\ writeCalls w' = writeCalls w /\
       depCalls w' = depCalls w) /\
  (forall w c cy v,
     cycles w !! c = Some cy -> c_status cy = AwaitParents ->
     c_force cy = true ->
     state_of (heap w) (c_parents cy) = Fulfilled v ->
     exists w',
       step o w (ResumeCycle c) = Some w' /\
       loadCalls w' = loadCalls w ++ [mapping_argument (stores w)] /\
       loadedValuesString w' = loadedValuesString w) /\
  (forall w evs w',
     run o w evs = Some w' ->
     calls_due JSON_stringify w'
     <= calls_due JSON_stringify w + count_changes evs
        + count_forced_ends JSON_stringify o w evs /\
     length (loadCalls w')
     <= calls_due JSON_stringify w + count_changes evs
        + count_forced_ends JSON_stringify o w evs) /\
  (forall w evs w',
     run o w evs = Some w' ->
     loadedValuesString w = Some (key w) ->
     count_changes evs = 0 -> count_forced_ends JSON_stringify o w evs = 0 ->
     loadCalls w' = loadCalls w /\ loadedValuesString w' = Some (key w')) /\
  (forall ss evs w,
     run o (init_world ss o) evs = Some w ->
     length (loadCalls w)
     <= 1 + count_changes evs
        + count_forced_ends JSON_stringify o (init_world ss o) evs /\
     (forallb (unforced_event o) evs = true ->
      length (loadCalls w) <= 1 + count_changes evs /\
      (count_changes evs = 0 -> length (loadCalls w) <= 1))).
Proof.
  split_and!.
  - intros w c cy v Hc Hst Hfo Hv Hk. eexists. split.
    + simpl. by eapply resume_unchanged.
    + split_and!; try done. by apply returned_return_from.
  - intros w c cy v Hc Hst Hfo Hv.
    destruct (resume c w) as [w'|] eqn:Hres;
      [|by rewrite (resume_invokes _ _ _ _ _ Hc Hst Hv (or_introl Hfo)) in Hres].
    destruct (resume_invokes_fields _ _ _ _ _ _ Hc Hst Hv (or_introl Hfo) Hres)
      as (Hlc & Hk & _).
    rewrite Hfo in Hk. exists w'. split_and!; done.
  - intros w evs w' Hrun. pose proof (calls_due_run _ _ _ _ Hrun) as Hle.
    split; [done|]. unfold calls_due in Hle at 1. lia.
  - intros w evs w' Hrun Hk Hnc Hnf.
    destruct (quiet_run _ _ _ _ Hrun Hnc Hnf Hk). done.
  - intros ss evs w Hrun. split.
    + pose proof (calls_due_run _ _ _ _ Hrun) as Hle.
      unfold calls_due in Hle. simpl in Hle.
      destruct (bool_decide _) in Hle; lia.
    + intros Hunf.
      pose proof (dedup_inv_run JSON_stringify o evs 0 _ _ Hunf
                    (dedup_inv_init JSON_stringify o ss) Hrun)
        as (_ & _ & Hlen).
      assert (length (loadCalls w) <= 1 + count_changes evs) as Hle.
      { destruct (bool_decide _) in Hlen; lia. }
      split; [done|]. intros Hz. lia.
Qed.

End MemoCount.

(** The consequence fails as the spec has it: a forced cycle does not record
    the key.  On a reloadable store that has recorded none, [reload()] calls
    the mapping function, and the notification that follows calls it again
    on the same dependency values. *)
Lemma unforced_cycles_never_recompute_fails :
  ~ unforced_cycles_never_recompute sample_stringify
      (asyncDerived (One (plain_store "A")) true VUndefined)
      (One (plain_store "A")).
Proof.
  intros Hclaim.
  pose (o := asyncDerived (One (plain_store "A")) true VUndefined).
  pose (ss := One (plain_store "A")).
  assert (loadCalls (world_after o ss (reload_then_notify ++ [ResumeCycle 1]))
          = loadCalls (world_after o ss reload_then_notify)) as Hsame.
  { eapply (Hclaim reload_then_notify (world_after o ss reload_then_notify) 1).
    - vm_compute. reflexivity.
    - reflexivity.
    - vm_compute. discriminate.
    - vm_compute. reflexivity.
    - vm_compute. reflexivity. }
  vm_compute in Hsame. discriminate Hsame.
Qed.

Lemma dedup_guarantee_witness :
  length (loadCalls
            (world_after (asyncDerived (One (plain_store "A")) true VUndefined)
               (One (plain_store "A"))
               [CallLoad; ResumeCycle 0; CallReload; ResumeCycle 1; Notify;
                ResumeCycle 2])) <= 2 /\
  loadCalls
    (world_after (asyncDerived (One (plain_store "A")) true VUndefined)
       (One (plain_store "A"))
       [CallLoad; ResumeCycle 0; CallReload; ResumeCycle 1; Notify;
        ResumeCycle 2; CallLoad; ResumeCycle 3])
  = [VStr "A"; VStr "A"].
Proof.
  pose (o := asyncDerived (One (plain_store "A")) true VUndefined).
  pose (ss := One (plain_store "A")).
  destruct (dedup_guarantee sample_stringify o) as (_ & _ & _ & Hquiet & Hcount).
  split.
  - destruct (Hcount ss
                [CallLoad; ResumeCycle 0; CallReload; ResumeCycle 1; Notify;
                 ResumeCycle 2]
                (world_after o ss
                   [CallLoad; ResumeCycle 0; CallReload; ResumeCycle 1; Notify;
                    ResumeCycle 2])) as [Hle _].
    + vm_compute. reflexivity.
    + exact Hle.
  - destruct (Hquiet
                (world_after o ss
                   [CallLoad; ResumeCycle 0; CallReload; ResumeCycle 1])
                [Notify; ResumeCycle 2; CallLoad; ResumeCycle 3]
                (world_after o ss
                   [CallLoad; ResumeCycle 0; CallReload; ResumeCycle 1; Notify;
                    ResumeCycle 2; CallLoad; ResumeCycle 3])) as [Hlc _].
    + vm_compute. reflexivity.
    + vm_compute. reflexivity.
    + reflexivity.
    + vm_compute. reflexivity.
    + etransitivity; [exact Hlc|]. vm_compute. reflexivity.
Defined.

(** ** A failed attempt and the memo *)

Section FailedAttempt.

Variable JSON_stringify : list Value -> string.

Abbreviation resume := (loadDependenciesThenSet_resume JSON_stringify).
Abbreviation key := (key_of JSON_stringify).
Abbreviation step := (step JSON_stringify).
Abbreviation run := (run JSON_stringify).
Abbreviation run_where := (run_where JSON_stringify).
Abbreviation same_key := (same_key JSON_stringify).
Abbreviation same_key_loaded := (same_key_loaded JSON_stringify).

(** While the recorded key is [K] and the current promise is rejected, an
    event that passes [same_key] leaves the key and the calls as they are and
    the current promise rejected. *)
Lemma same_key_step o K w ev w' q e :
  same_key K w ev = true -> step o w ev = Some w' ->
  loadedValuesString w = Some K ->
  currentLoadPromise w = Some q -> state_of (heap w) q = Rejected e ->
  loadedValuesString w' = Some K /\ loadCalls w' = loadCalls w /\
  (exists q' e', currentLoadPromise w' = Some q' /\
                 state_of (heap w') q' = Rejected e') /\
  (resumes_failed w ev = false ->
   currentLoadPromise w' = Some q /\ state_of (heap w') q = Rejected e).
Proof.
  intros Hok Hstep Hk Hq He.
  assert (state_of (heap w') q = Rejected e) as He'.
  { eapply heap_grows_state; [by eapply step_grows | done | done]. }
  assert ((exists c, ev = ResumeCycle c) \/ (forall c, ev <> ResumeCycle c))
    as [[c ->]|Hnr] by (destruct ev; eauto; right; done).
  - simpl in *. destruct (resume_cases _ _ _ _ Hstep)
      as (cy & Hc & Hst & [[e0 He0]|(v & Hv & [[Hfo Hkk]|Hinvk])]).
    + rewrite (resume_rejected _ _ _ _ _ Hc Hst He0) in Hstep.
      injection Hstep as <-. rewrite Hc, He0. split_and!; [done|done| |done].
      exists (c_parents cy), e0. done.
    + rewrite (resume_unchanged _ _ _ _ _ Hc Hst Hv Hfo Hkk) in Hstep.
      injection Hstep as <-. split_and!; [done|done| |done].
      exists q, e. done.
    + rewrite Hc, Hv in Hok. apply andb_true_iff in Hok as [Hfo Hkey].
      apply negb_true_iff in Hfo. apply bool_decide_eq_true in Hkey.
      destruct Hinvk as [?|Hne]; [congruence|]. by rewrite Hk, <- Hkey in Hne.
  - destruct (step_memo _ _ _ _ _ Hstep Hnr) as (Hclp & Hl & Hlc & _).
    split_and!; [congruence|done| |intros _; split; congruence].
    exists q, e. split; congruence.
Qed.

Lemma same_key_run o K evs : forall w w' q e,
  run_where (same_key K) o w evs = Some w' ->
  loadedValuesString w = Some K ->
  currentLoadPromise w = Some q -> state_of (heap w) q = Rejected e ->
  loadedValuesString w' = Some K /\ loadCalls w' = loadCalls w /\
  exists q' e', currentLoadPromise w' = Some q' /\
                state_of (heap w') q' = Rejected e'.
Proof.
  induction evs as [|ev rest IH]; intros w w' q e; simpl.
  - intros [= <-] Hk Hq He. split_and!; [done|done|]. by exists q, e.
  - destruct (same_key K w ev) eqn:Hok; [|done].
    destruct (step o w ev) as [w1|] eqn:Hstep; [|done]. intros Hrun Hk Hq He.
    destruct (same_key_step _ _ _ _ _ _ _ Hok Hstep Hk Hq He)
      as (Hk1 & Hlc & (q1 & e1 & Hq1 & He1) & _).
    destruct (IH _ _ _ _ Hrun Hk1 Hq1 He1) as (? & ? & ?).
    split_and!; [done|congruence|done].
Qed.

Lemma same_key_loaded_run o K evs : forall w w' m e,
  run_where (same_key_loaded K) o w evs = Some w' ->
  loadedValuesString w = Some K ->
  currentLoadPromise w = Some m -> state_of (heap w) m = Rejected e ->
  loadedValuesString w' = Some K /\ loadCalls w' = loadCalls w /\
  currentLoadPromise w' = Some m /\ state_of (heap w') m = Rejected e.
Proof.
  induction evs as [|ev rest IH]; intros w w' m e; simpl.
  - by intros [= <-].
  - destruct (same_key_loaded K w ev) eqn:Hok; [|done].
    apply andb_true_iff in Hok as [Hsame Hnf]. apply negb_true_iff in Hnf.
    destruct (step o w ev) as [w1|] eqn:Hstep; [|done]. intros Hrun Hk Hm He.
    destruct (same_key_step _ _ _ _ _ _ _ Hsame Hstep Hk Hm He)
      as (Hk1 & Hlc & _ & Hkeep).
    destruct (Hkeep Hnf) as [Hm1 He1].
    destruct (IH _ _ _ _ Hrun Hk1 Hm1 He1) as (? & ? & ? & ?).
    split_and!; [done|congruence|done|done].
Qed.

(** C10, amended.  Let the current load promise [m] be rejected and [K] be
    the recorded key.  As long as every cycle that ends with its dependencies
    loaded is unforced and finds dependency values that serialize to [K]
    (whatever the dependencies did in between), the mapping function is not
    called again, [K] stays recorded, and each such cycle returns the current
    promise, which is rejected; it is [m] itself as long as no cycle has
    ended on a failed dependency load.  A failed dependency load makes the
    rejected join the current promise and leaves the key alone.  The memo
    holds one key: an unforced cycle that finds other values calls the
    mapping function on them and records their key, and when the chain it
    started is rejected the memo is in the state described first; a forced
    cycle calls the mapping function whatever the key. *)
Theorem failed_attempt_not_retried (o : AsyncStore) (K : string) :
  (forall w1 m e evs w2,
     currentLoadPromise w1 = Some m -> state_of (heap w1) m = Rejected e ->
     loadedValuesString w1 = Some K ->
     run_where (same_key K) o w1 evs = Some w2 ->
     loadCalls w2 = loadCalls w1 /\ loadedValuesString w2 = Some K /\
     (exists q e', currentLoadPromise w2 = Some q /\
                   state_of (heap w2) q = Rejected e') /\
     forall c cy v,
       cycles w2 !! c = Some cy -> c_status cy = AwaitParents ->
       c_force cy = false ->
       state_of (heap w2) (c_parents cy) = Fulfilled v ->
       key w2 = K ->
       exists w3 e',
         step o w2 (ResumeCycle c) = Some w3 /\
         returned w3 c = Some (currentLoadPromise w2) /\
         cycle_result w3 c = Rejected e' /\
         loadCalls w3 = loadCalls w1 /\ heap w3 = heap w2 /\ cell w3 = cell w2) /\
  (forall w1 m e evs w2,
     currentLoadPromise w1 = Some m -> state_of (heap w1) m = Rejected e ->
     loadedValuesString w1 = Some K ->
     run_where (same_key_loaded K) o w1 evs = Some w2 ->
     currentLoadPromise w2 = Some m /\
     forall c cy v,
       cycles w2 !! c = Some cy -> c_status cy = AwaitParents ->
       c_force cy = false ->
       state_of (heap w2) (c_parents cy) = Fulfilled v ->
       key w2 = K ->
       exists w3,
         step o w2 (ResumeCycle c) = Some w3 /\
         returned w3 c = Some (Some m) /\
         cycle_result w3 c = Rejected e /\
         loadCalls w3 = loadCalls w1) /\
  (forall w c cy e,
     cycles w !! c = Some cy -> c_status cy = AwaitParents ->
     state_of (heap w) (c_parents cy) = Rejected e ->
     exists w',
       step o w (ResumeCycle c) = Some w' /\
       currentLoadPromise w' = Some (c_parents cy) /\
       returned w' c = Some (Some (c_parents cy)) /\
       loadedValuesString w' = loadedValuesString w /\
       loadCalls w' = loadCalls w /\ heap w' = heap w) /\
  (forall w c cy v e,
     cycles w !! c = Some cy -> c_status cy = AwaitParents ->
     c_force cy = false ->
     state_of (heap w) (c_parents cy) = Fulfilled v ->
     loadedValuesString w <> Some (key w) ->
     exists w' w1,
       step o w (ResumeCycle c) = Some w' /\
       loadCalls w' = loadCalls w ++ [mapping_argument (stores w)] /\
       loadedValuesString w' = Some (key w) /\
       currentLoadPromise w' = Some (length (heap w)) /\
       returned w' c = Some (Some (length (heap w))) /\
       step o w' (Settle (length (heap w)) (Rejected e)) = Some w1 /\
       currentLoadPromise w1 = Some (length (heap w)) /\
       state_of (heap w1) (length (heap w)) = Rejected e /\
       loadedValuesString w1 = Some (key w) /\
       loadCalls w1 = loadCalls w' /\ cell w1 = cell w) /\
  (forall w c cy v,
     cycles w !! c = Some cy -> c_status cy = AwaitParents ->
     c_force cy = true ->
     state_of (heap w) (c_parents cy) = Fulfilled v ->
     exists w',
       step o w (ResumeCycle c) = Some w' /\
       loadCalls w' = loadCalls w ++ [mapping_argument (stores w)] /\
       loadedValuesString w' = loadedValuesString w /\
       currentLoadPromise w' = Some (length (heap w))).
Proof.
  split_and!.
  - intros w1 m e evs w2 Hm He Hk Hrun.
    destruct (same_key_run _ _ _ _ _ _ _ Hrun Hk Hm He)
      as (Hk2 & Hlc & q & e' & Hq & He').
    split_and!; [done|done|by exists q, e'|].
    intros c cy v Hc Hst Hfo Hv Hkey. exists (return_from c cy (currentLoadPromise w2) w2), e'.
    assert (loadedValuesString w2 = Some (key w2)) as Hk2' by congruence.
    split_and!; try done.
    + simpl. by eapply resume_unchanged.
    + by apply returned_return_from.
    + unfold cycle_result, return_from. cbn [cycles with_cycles heap].
      rewrite list_lookup_insert_eq by (by eapply lookup_lt_Some).
      simpl. by rewrite Hq.
  - intros w1 m e evs w2 Hm He Hk Hrun.
    destruct (same_key_loaded_run _ _ _ _ _ _ _ Hrun Hk Hm He)
      as (Hk2 & Hlc & Hm2 & He2).
    split; [done|].
    intros c cy v Hc Hst Hfo Hv Hkey. exists (return_from c cy (currentLoadPromise w2) w2).
    assert (loadedValuesString w2 = Some (key w2)) as Hk2' by congruence.
    split_and!; try done.
    + simpl. by eapply resume_unchanged.
    + rewrite returned_return_from by done. by rewrite Hm2.
    + unfold cycle_result, return_from. cbn [cycles with_cycles heap].
      rewrite list_lookup_insert_eq by (by eapply lookup_lt_Some).
      simpl. by rewrite Hm2.
  - intros w c cy e Hc Hst He. eexists. split.
    + simpl. by eapply resume_rejected.
    + split_and!; try done. by apply returned_return_from.
  - intros w c cy v e Hc Hst Hfo Hv Hne.
    destruct (resume c w) as [w'|] eqn:Hres;
      [|by rewrite (resume_invokes _ _ _ _ _ Hc Hst Hv (or_intror Hne)) in Hres].
    destruct (resume_invokes_fields _ _ _ _ _ _ Hc Hst Hv (or_intror Hne) Hres)
      as (Hlc & Hk & Hclp & Hh & Hret & _ & _ & Hcell & _).
    rewrite Hfo in Hk.
    set (m := length (heap w)) in *.
    assert (heap w' !! m = Some {| p_kind := LoadChain; p_state := Pending |}) as Hm.
    { rewrite Hh. unfold m. by rewrite lookup_app_r, Nat.sub_diag by lia. }
    assert (exists h', settle m (Rejected e) (heap w') = Some h') as [h' Hs].
    { unfold settle. rewrite Hm. simpl. by eexists. }
    exists w', (with_heap h' w'). split_and!; try done.
    + simpl. unfold settle_in_world. rewrite Hm, Hs. done.
    + by apply (settle_state_self _ _ _ _ Hs).
  - intros w c cy v Hc Hst Hfo Hv.
    destruct (resume c w) as [w'|] eqn:Hres;
      [|by rewrite (resume_invokes _ _ _ _ _ Hc Hst Hv (or_introl Hfo)) in Hres].
    destruct (resume_invokes_fields _ _ _ _ _ _ Hc Hst Hv (or_introl Hfo) Hres)
      as (Hlc & Hk & Hclp & _).
    rewrite Hfo in Hk. exists w'. split_and!; done.
Qed.

End FailedAttempt.

Lemma failed_attempt_not_retried_witness :
  exists w3,
    step sample_stringify (asyncDerived (One (plain_store "A")) false VUndefined)
      (world_after (asyncDerived (One (plain_store "A")) false VUndefined)
         (One (plain_store "A"))
         [CallLoad; ResumeCycle 0; Settle 1 (Rejected "error");
          DepChanged 0 (VStr "B"); DepChanged 0 (VStr "A"); CallLoad])
      (ResumeCycle 1) = Some w3 /\
    returned w3 1 = Some (Some 1) /\
    cycle_result w3 1 = Rejected "error" /\
    loadCalls w3 = [VStr "A"].
Proof.
  pose (o := asyncDerived (One (plain_store "A")) false VUndefined).
  pose (ss := One (plain_store "A")).
  destruct (failed_attempt_not_retried sample_stringify o
              (sample_stringify [VStr "A"])) as (_ & Hcached & _).
  destruct (Hcached
              (world_after o ss [CallLoad; ResumeCycle 0; Settle 1 (Rejected "error")])
              1 "error"
              [DepChanged 0 (VStr "B"); DepChanged 0 (VStr "A"); CallLoad]
              (world_after o ss
                 [CallLoad; ResumeCycle 0; Settle 1 (Rejected "error");
                  DepChanged 0 (VStr "B"); DepChanged 0 (VStr "A"); CallLoad]))
    as (_ & Hend).
  - vm_compute. reflexivity.
  - vm_compute. reflexivity.
  - vm_compute. reflexivity.
  - vm_compute. reflexivity.
  - destruct (Hend 1 {| c_parents := 2; c_force := false; c_status := AwaitParents |}
                (VArr [VStr "A"]))
      as (w3 & Hstep & Hret & Hres & Hlc).
    + vm_compute. reflexivity.
    + reflexivity.
    + reflexivity.
    + vm_compute. reflexivity.
    + vm_compute. reflexivity.
    + exists w3. split; [exact Hstep|]. split; [exact Hret|].
      split; [exact Hres|]. rewrite Hlc. vm_compute. reflexivity.
Defined.

(** ** The write path and its reload *)

Section WriteThenReload.

Variable JSON_stringify : list Value -> string.

Abbreviation resume := (loadDependenciesThenSet_resume JSON_stringify).
Abbreviation step := (step JSON_stringify).

(** C8.  [set(v)] puts [v] in the cell before anything is awaited and starts
    a loadAll of the dependencies; when that join fulfils, the write mapping
    function is called with [v] and the joined values; when its result
    fulfils, the result goes to the cell unless it is undefined, and a
    reloadable store then starts a forced cycle on reloadAll, which [set]
    awaits: the dependencies are reloaded, the mapping load function is called
    whatever the recorded key, and [set] ends when the new chain settles, with
    the reloaded value in the cell, or fails with the error of the chain or of
    the dependencies.  When the result of the write function is rejected,
    [set] fails with that error and the cell is left alone. *)
Theorem set_publishes_then_writes (o : AsyncStore) (v : Value) :
  (forall w, o_set o = true ->
     exists agg w1 w',
       loadAll (stores w) (with_cell v w) = (agg, w1) /\
       step o w (CallSet v) = Some w' /\
       cell w' = v /\
       sets w' = sets w ++ [{| set_value := v; set_stage := SetAwaitParents agg |}] /\
       heap w' = heap w1 /\
       depCalls w' = depCalls w ++ load_calls (getStoresArray (stores w)) /\
       writeCalls w' = writeCalls w /\ loadCalls w' = loadCalls w /\
       cycles w' = cycles w) /\
  (forall w k agg parentValues,
     sets w !! k = Some {| set_value := v; set_stage := SetAwaitParents agg |} ->
     state_of (heap w) agg = Fulfilled parentValues ->
     exists w',
       step o w (ResumeSet k) = Some w' /\
       writeCalls w' = writeCalls w ++ [(v, parentValues)] /\
       heap w' = heap w ++ [pending_call] /\
       sets w' !! k = Some {| set_value := v;
                              set_stage := SetAwaitWrite (length (heap w)) |} /\
       cell w' = cell w) /\
  (forall w k wr writeResponse,
     sets w !! k = Some {| set_value := v; set_stage := SetAwaitWrite wr |} ->
     state_of (heap w) wr = Fulfilled writeResponse ->
     exists w',
       step o w (ResumeSet k) = Some w' /\
       cell w' = (if is_undefined writeResponse then cell w else writeResponse) /\
       loadCalls w' = loadCalls w /\ writeCalls w' = writeCalls w /\
       if reloadable o
       then exists agg w1,
              reloadAll (stores w)
                (if is_undefined writeResponse then w
                 else with_cell writeResponse w) = (agg, w1) /\
              heap w' = heap w1 /\
              depCalls w' = depCalls w ++ reload_calls (getStoresArray (stores w)) /\
              cycles w' = cycles w ++ [{| c_parents := agg; c_force := true;
                                          c_status := AwaitParents |}] /\
              sets w' !! k = Some {| set_value := v;
                                     set_stage := SetAwaitReload (length (cycles w)) |}
       else cycles w' = cycles w /\ heap w' = heap w /\ depCalls w' = depCalls w /\
            sets w' !! k = Some {| set_value := v; set_stage := SetDone |}) /\
  (forall w k wr e,
     sets w !! k = Some {| set_value := v; set_stage := SetAwaitWrite wr |} ->
     state_of (heap w) wr = Rejected e ->
     exists w',
       step o w (ResumeSet k) = Some w' /\
       sets w' !! k = Some {| set_value := v; set_stage := SetFailed e |} /\
       cell w' = cell w /\ cycles w' = cycles w /\ heap w' = heap w /\
       loadCalls w' = loadCalls w) /\
  (forall w k c cy,
     sets w !! k = Some {| set_value := v; set_stage := SetAwaitReload c |} ->
     cycles w !! c = Some cy -> c_status cy = AwaitParents ->
     c_force cy = true ->
     step o w (ResumeSet k) = None /\
     (forall x, state_of (heap w) (c_parents cy) = Fulfilled x ->
        exists w1,
          step o w (ResumeCycle c) = Some w1 /\
          loadCalls w1 = loadCalls w ++ [mapping_argument (stores w)] /\
          loadedValuesString w1 = loadedValuesString w /\
          currentLoadPromise w1 = Some (length (heap w)) /\
          heap w1 = heap w ++ [{| p_kind := LoadChain; p_state := Pending |}] /\
          cell w1 = cell w /\
          step o w1 (ResumeSet k) = None /\
          (forall r, exists w2 w3,
             step o w1 (Settle (length (heap w)) (Fulfilled r)) = Some w2 /\
             cell w2 = r /\
             step o w2 (ResumeSet k) = Some w3 /\
             sets w3 !! k = Some {| set_value := v; set_stage := SetDone |} /\
             cell w3 = r) /\
          (forall e, exists w2 w3,
             step o w1 (Settle (length (heap w)) (Rejected e)) = Some w2 /\
             cell w2 = cell w /\
             step o w2 (ResumeSet k) = Some w3 /\
             sets w3 !! k = Some {| set_value := v; set_stage := SetFailed e |} /\
             cell w3 = cell w)) /\
     (forall e, state_of (heap w) (c_parents cy) = Rejected e ->
        exists w1 w2,
          step o w (ResumeCycle c) = Some w1 /\
          loadCalls w1 = loadCalls w /\ cell w1 = cell w /\
          step o w1 (ResumeSet k) = Some w2 /\
          sets w2 !! k = Some {| set_value := v; set_stage := SetFailed e |} /\
          cell w2 = cell w /\ loadCalls w2 = loadCalls w)).
Proof.
  split_and!.
  - intros w Hset. simpl. rewrite Hset. unfold setStoreValueThenWrite_start.
    destruct (loadAll (stores (with_cell v w)) (with_cell v w)) as [agg w1] eqn:Hl.
    exists agg, w1. eexists. split; [exact Hl|]. split; [done|].
    rewrite loadAll_dispatchAll in Hl.
    destruct (dispatchAll_frame _ _ _ _ _ Hl)
      as ((Hst & Hcell & _ & _ & Hcy & Hse & Hlc & Hwc) & _ & elems & n & _ & Hdc).
    cbn [cell with_sets sets heap depCalls writeCalls loadCalls cycles] in *.
    split_and!; try done. by rewrite Hse.
  - intros w k agg parentValues Hk Hagg. simpl.
    unfold setStoreValueThenWrite_resume. rewrite Hk. cbn [set_stage set_value].
    rewrite Hagg. cbn [alloc]. eexists. split; [done|].
    split_and!; try done.
    by rewrite set_stage_to_lookup.
  - intros w k wr writeResponse Hk Hwr. simpl.
    unfold setStoreValueThenWrite_resume. rewrite Hk. cbn [set_stage set_value].
    rewrite Hwr. destruct (reloadable o) eqn:Hrel.
    + set (w0 := if is_undefined writeResponse then w else with_cell writeResponse w).
      assert (sets w0 = sets w /\ cycles w0 = cycles w /\ stores w0 = stores w /\
              cell w0 = (if is_undefined writeResponse then cell w
                         else writeResponse) /\
              loadCalls w0 = loadCalls w /\ writeCalls w0 = writeCalls w /\
              depCalls w0 = depCalls w)
        as (Hs0 & Hc0 & Hst0 & Hcell0 & Hlc0 & Hwc0 & Hdc0).
      { unfold w0. by destruct (is_undefined writeResponse). }
      destruct (loadDependenciesThenSet_start reloadAll true w0) as [c w2] eqn:Hstart.
      eexists. split; [done|].
      unfold loadDependenciesThenSet_start in Hstart. rewrite Hst0 in Hstart.
      destruct (reloadAll (stores w) w0) as [agg w1] eqn:Hr.
      injection Hstart as <- <-.
      rewrite reloadAll_dispatchAll in Hr.
      destruct (dispatchAll_frame _ _ _ _ _ Hr)
        as ((_ & Hcell & _ & _ & Hcy & Hse & Hlc & Hwc) & _ & elems & n & _ & Hdc).
      split_and!.
      * cbn. congruence.
      * cbn. congruence.
      * cbn. congruence.
      * exists agg, w1. split_and!; [done|done| | |].
        -- cbn. rewrite Hdc. by rewrite Hdc0.
        -- cbn. congruence.
        -- rewrite Hcy, Hc0. rewrite set_stage_to_lookup; [done|].
           cbn. congruence.
    + eexists. split; [done|]. split_and!.
      * by destruct (is_undefined writeResponse).
      * by destruct (is_undefined writeResponse).
      * by destruct (is_undefined writeResponse).
      * by destruct (is_undefined writeResponse).
      * by destruct (is_undefined writeResponse).
      * by destruct (is_undefined writeResponse).
      * rewrite set_stage_to_lookup; [done|].
        by destruct (is_undefined writeResponse).
  - intros w k wr e Hk Hwr. simpl.
    unfold setStoreValueThenWrite_resume. rewrite Hk. cbn [set_stage set_value].
    rewrite Hwr. eexists. split; [done|]. split_and!; try done.
    by rewrite set_stage_to_lookup.
  - intros w k c cy Hk Hc Hst Hfo. split_and!.
    { simpl. unfold setStoreValueThenWrite_resume. rewrite Hk. cbn [set_stage].
      by rewrite Hc, Hst. }
    + intros x Hv.
      destruct (resume c w) as [w1|] eqn:Hres;
        [|by rewrite (resume_invokes _ _ _ _ _ Hc Hst Hv (or_introl Hfo)) in Hres].
      destruct (resume_invokes_fields _ _ _ _ _ _ Hc Hst Hv (or_introl Hfo) Hres)
        as (Hlc & Hkey & Hclp & Hh & _ & Hcy & _ & Hcell & Hsets & _).
      rewrite Hfo in Hkey.
      set (m := length (heap w)) in *.
      assert (heap w1 !! m = Some {| p_kind := LoadChain; p_state := Pending |}) as Hm.
      { rewrite Hh. unfold m. by rewrite lookup_app_r, Nat.sub_diag by lia. }
      assert (cycles w1 !! c
              = Some {| c_parents := c_parents cy; c_force := c_force cy;
                        c_status := Returned (Some m) |}) as Hc1.
      { rewrite Hcy. by rewrite list_lookup_insert_eq by (by eapply lookup_lt_Some). }
      exists w1. split_and!; [done|done|done|done|done|done| | |].
      * simpl. unfold setStoreValueThenWrite_resume. rewrite Hsets, Hk.
        cbn [set_stage]. rewrite Hc1. cbn [c_status]. unfold state_of. by rewrite Hm.
      * intros r.
        destruct (settle_chain_fulfilled w1 m _ r Hm eq_refl eq_refl) as (h' & Hs & Hw).
        exists (with_cell r (with_heap h' w1)). eexists. split; [exact Hw|].
        split; [done|]. simpl. unfold setStoreValueThenWrite_resume.
        cbn [sets cycles heap with_cell with_heap]. rewrite Hsets, Hk.
        cbn [set_stage set_value]. rewrite Hc1. cbn [c_status].
        rewrite (settle_state_self _ _ _ _ Hs). split; [done|].
        split; [|done]. rewrite set_stage_to_lookup; [done|].
        cbn [sets with_cell with_heap]. by rewrite Hsets.
      * intros e.
        assert (exists h', settle m (Rejected e) (heap w1) = Some h') as [h' Hs].
        { unfold settle. rewrite Hm. simpl. by eexists. }
        exists (with_heap h' w1). eexists. split.
        { simpl. unfold settle_in_world. rewrite Hm, Hs. done. }
        split; [done|]. simpl. unfold setStoreValueThenWrite_resume.
        cbn [sets cycles heap with_heap]. rewrite Hsets, Hk.
        cbn [set_stage set_value]. rewrite Hc1. cbn [c_status].
        rewrite (settle_state_self _ _ _ _ Hs). split; [done|].
        split; [|done]. rewrite set_stage_to_lookup; [done|].
        cbn [sets with_heap]. by rewrite Hsets.
    + intros e He. simpl.
      rewrite (resume_rejected _ _ _ _ _ Hc Hst He).
      eexists. eexists. split; [done|]. split; [done|]. split; [done|].
      unfold setStoreValueThenWrite_resume.
      cbn [sets cycles heap return_from with_cycles with_currentLoadPromise].
      rewrite Hk. cbn [set_stage set_value].
      rewrite list_lookup_insert_eq by (by eapply lookup_lt_Some).
      cbn [c_status]. rewrite He. split; [done|].
      split; [|done]. rewrite set_stage_to_lookup; done.
Qed.

End WriteThenReload.

Lemma set_publishes_then_writes_witness :
  exists w0 w1 w2 w3,
    step sample_stringify
      (asyncWritable (One (plain_store "parent")) true VUndefined)
      (world_after (asyncWritable (One (plain_store "parent")) true VUndefined)
         (One (plain_store "parent"))
         [CallSet (VStr "new"); ResumeSet 0; Settle 1 (Fulfilled (VStr "saved"))])
      (ResumeSet 0) = Some w0 /\
    cell w0 = VStr "saved" /\
    writeCalls w0 = [(VStr "new", VArr [VStr "parent"])] /\
    step sample_stringify
      (asyncWritable (One (plain_store "parent")) true VUndefined) w0
      (ResumeCycle 0) = Some w1 /\
    loadCalls w1 = [VStr "parent"] /\
    step sample_stringify
      (asyncWritable (One (plain_store "parent")) true VUndefined) w1
      (Settle 3 (Fulfilled (VStr "reloaded"))) = Some w2 /\
    step sample_stringify
      (asyncWritable (One (plain_store "parent")) true VUndefined) w2
      (ResumeSet 0) = Some w3 /\
    sets w3 !! 0 = Some {| set_value := VStr "new"; set_stage := SetDone |} /\
    cell w3 = VStr "reloaded".
Proof.
  pose (o := asyncWritable (One (plain_store "parent")) true VUndefined).
  pose (ss := One (plain_store "parent")).
  destruct (set_publishes_then_writes sample_stringify o (VStr "new"))
    as (_ & _ & Hwritten & _ & Hreload).
  destruct (Hwritten
              (world_after o ss
                 [CallSet (VStr "new"); ResumeSet 0;
                  Settle 1 (Fulfilled (VStr "saved"))])
              0 1 (VStr "saved"))
    as (w0 & Hstep0 & Hcell0 & _ & Hwc0 & Hrel).
  { vm_compute. reflexivity. }
  { vm_compute. reflexivity. }
  assert (w0 = world_after o ss
                 [CallSet (VStr "new"); ResumeSet 0;
                  Settle 1 (Fulfilled (VStr "saved")); ResumeSet 0]) as Hw0.
  { vm_compute in Hstep0. injection Hstep0 as <-. vm_compute. reflexivity. }
  destruct (Hreload w0 0 0
              {| c_parents := 2; c_force := true; c_status := AwaitParents |})
    as (_ & Hful & _).
  { rewrite Hw0. vm_compute. reflexivity. }
  { rewrite Hw0. vm_compute. reflexivity. }
  { reflexivity. }
  { reflexivity. }
  destruct (Hful (VArr [VStr "parent"]))
    as (w1 & Hstep1 & Hlc1 & _ & _ & Hh1 & _ & _ & Hdone & _).
  { rewrite Hw0. vm_compute. reflexivity. }
  destruct (Hdone (VStr "reloaded")) as (w2 & w3 & Hstep2 & _ & Hstep3 & Hsets3 & Hcell3).
  exists w0, w1, w2, w3. split_and!.
  - exact Hstep0.
  - rewrite Hcell0. reflexivity.
  - rewrite Hwc0. vm_compute. reflexivity.
  - exact Hstep1.
  - rewrite Hlc1, Hw0. vm_compute. reflexivity.
  - rewrite Hw0 in Hstep2. exact Hstep2.
  - exact Hstep3.
  - exact Hsets3.
  - exact Hcell3.
Defined.

(** ** The cell after a failed load *)

Section CellAfterFailure.

Variable JSON_stringify : list Value -> string.

Abbreviation step := (step JSON_stringify).
Abbreviation run := (run JSON_stringify).

Lemma no_set_run o evs : forall w w',
  o_set o = false -> sets w = [] -> run o w evs = Some w' -> sets w' = [].
Proof.
  induction evs as [|ev rest IH]; intros w w' Hset Hnil; simpl.
  - by intros [= <-].
  - destruct (step o w ev) as [w1|] eqn:Hstep; [|done].
    apply IH; [done|]. by eapply no_set_step.
Qed.

(** C6, amended.  When the mapping function's result is rejected, the load
    chain is rejected with that error, so is every [load()] / [reload()] that
    returned it, and the cell keeps its value.  That value is [initial] as
    long as no computation has succeeded and [set] was not called, hence on
    every store without [set] as long as no computation has succeeded; [set]
    puts its argument in the cell at once, without any load chain. *)
Theorem mapping_failure_keeps_cell (o : AsyncStore) :
  (forall w p r e,
     heap w !! p = Some r -> p_kind r = LoadChain -> p_state r = Pending ->
     exists w',
       step o w (Settle p (Rejected e)) = Some w' /\
       cell w' = cell w /\
       state_of (heap w') p = Rejected e /\
       (forall c, returned w c = Some (Some p) ->
                  cycle_result w' c = Rejected e)) /\
  (forall ss evs w,
     run o (init_world ss o) evs = Some w ->
     sets w = [] -> ~ some_success (heap w) ->
     cell w = initial o) /\
  (forall ss evs w,
     o_set o = false ->
     run o (init_world ss o) evs = Some w ->
     ~ some_success (heap w) ->
     cell w = initial o) /\
  (forall w v, o_set o = true ->
     exists w',
       step o w (CallSet v) = Some w' /\ cell w' = v /\
       sets w' <> [] /\
       (some_success (heap w') -> some_success (heap w))).
Proof.
  split_and!.
  - intros w p r e Hp Hk Hs.
    assert (exists h', settle p (Rejected e) (heap w) = Some h') as [h' Hh].
    { unfold settle. rewrite Hp, Hs, Hk. simpl. by eexists. }
    exists (with_heap h' w). split_and!.
    + simpl. unfold settle_in_world. rewrite Hp, Hh, Hk. done.
    + done.
    + by eapply settle_state_self.
    + intros c. unfold returned, cycle_result. cbn [cycles with_heap heap].
      destruct (cycles w !! c) as [cy|]; [|done].
      destruct (c_status cy); [done|]. intros [= ->].
      by eapply settle_state_self.
  - intros ss evs w Hrun Hsets Hnone.
    assert (initial_inv o (init_world ss o)) as Hinit by (by left).
    destruct (initial_inv_run _ _ _ _ _ Hinit Hrun) as [?|[?|?]]; done.
  - intros ss evs w Hset Hrun Hnone.
    assert (sets w = []) as Hsets
      by (by apply (no_set_run o evs (init_world ss o) w Hset)).
    assert (initial_inv o (init_world ss o)) as Hinit by (by left).
    destruct (initial_inv_run _ _ _ _ _ Hinit Hrun) as [?|[?|?]]; done.
  - intros w v Hset. simpl. rewrite Hset. eexists. split; [done|].
    unfold setStoreValueThenWrite_start.
    destruct (loadAll (stores (with_cell v w)) (with_cell v w)) as [agg w1] eqn:Hl.
    rewrite loadAll_dispatchAll in Hl.
    destruct (dispatchAll_frame _ _ _ _ _ Hl)
      as ((_ & Hcell & _) & _ & elems & n & Hh & _).
    cbn [cell with_sets sets heap with_cell] in *. split_and!.
    + done.
    + intros Hnil. by apply app_eq_nil in Hnil as [_ ?].
    + intros (p & r & x & Hp & Hk & Hs). exists p, r, x. split_and!; [|done|done].
      rewrite Hh in Hp.
      apply lookup_app_Some in Hp as [Hp|[_ Hp]].
      * apply lookup_app_Some in Hp as [Hp|[_ Hp]]; [done|].
        apply lookup_replicate in Hp as [-> _]. done.
      * apply list_lookup_singleton_Some in Hp as [_ <-]. done.
Qed.

End CellAfterFailure.

(** C6 fails on a store with [set]: [set] puts its argument in the cell
    before anything is loaded, so after a first load that fails the cell
    holds that value, not [initial], although no computation has succeeded. *)
Lemma initial_until_success_fails :
  ~ initial_until_success sample_stringify
      (asyncWritable (Many []) false (VStr "initial")) (Many []).
Proof.
  intros Hclaim.
  pose (o := asyncWritable (Many []) false (VStr "initial")).
  assert (cell (world_after o (Many [])
                  (set_then_failed_load ++ [Settle 2 (Rejected "error")]))
          = VStr "initial") as Hcell.
  { eapply (Hclaim set_then_failed_load (world_after o (Many []) set_then_failed_load)
              2 {| p_kind := LoadChain; p_state := Pending |} "error").
    - vm_compute. reflexivity.
    - vm_compute. reflexivity.
    - reflexivity.
    - reflexivity.
    - vm_compute. reflexivity.
    - intros (p & r & x & Hp & Hk & Hs).
      destruct p as [|[|[|p]]]; vm_compute in Hp; [| | |done];
        injection Hp as <-; done. }
  vm_compute in Hcell. discriminate Hcell.
Qed.

Lemma mapping_failure_keeps_cell_witness :
  exists w',
    step sample_stringify (asyncReadable (VStr "initial") false)
      (world_after (asyncReadable (VStr "initial") false) (Many [])
         [CallLoad; ResumeCycle 0])
      (Settle 1 (Rejected "error")) = Some w' /\
    cell w' = VStr "initial" /\ cycle_result w' 0 = Rejected "error".
Proof.
  destruct (mapping_failure_keeps_cell sample_stringify
              (asyncReadable (VStr "initial") false)) as [Hstep _].
  destruct (Hstep (world_after (asyncReadable (VStr "initial") false) (Many [])
                     [CallLoad; ResumeCycle 0])
              1 {| p_kind := LoadChain; p_state := Pending |} "error")
    as (w' & Hs & Hcell & _ & Hret).
  - vm_compute. reflexivity.
  - reflexivity.
  - reflexivity.
  - exists w'. split; [exact Hs|]. split; [exact Hcell | exact (Hret 0 eq_refl)].
Defined.
